(** * The pooled data-access object of [DAO Pattern/data_access_object.py]

    A shallow embedding of the generic [DataAccessObject] class: its
    session handling ([_run_in_session]), its CRUD methods, the
    fire-and-forget variants and the lazily created background executor.

    The class talks to two collaborators whose code is not part of the
    file: the ORM session (SQLAlchemy's [Session]) and the connection
    manager ([PostgresConnection]).  Both are modelled below as an explicit
    relational store with a unit-of-work on top of it; Python objects live
    on a heap and are addressed by reference, so that attachment to a
    session and mutation after a call can be expressed. *)

From Stdlib Require Import ZArith String List Lia.
From stdpp Require Import base option list gmap strings fin_maps.

Local Open Scope string_scope.
Local Open Scope list_scope.
Local Open Scope Z_scope.

(** ** Values, attribute dictionaries and exceptions *)

(** Column values.  SQL NULL / Python [None] is not a value: an attribute
    that is not set is simply missing from the dictionary. *)
Inductive value : Type :=
| VInt (z : Z)
| VStr (s : string)
| VBool (b : bool).

#[global] Instance value_eq_dec : EqDecision value.
Proof. solve_decision. Defined.

(** A Python [dict[str, Any]]: keyword arguments, the attributes of an
    entity, a row of the table. *)
Abbreviation attrs := (gmap string value).

(** The subclasses of [Exception] that the code below can meet. *)
Inductive exn : Type :=
| TypeError            (* model constructor called with an unknown keyword *)
| AttributeError       (* getattr(model, name) on a missing attribute *)
| IntegrityError       (* the store rejects a write: duplicate primary key *)
| StaleDataError       (* UPDATE matched no row *)
| InvalidRequestError  (* session misuse, unknown filter_by attribute *)
| PoolExhausted        (* no session can be acquired from the pool *)
| OtherError (msg : string).

#[global] Instance exn_eq_dec : EqDecision exn.
Proof. solve_decision. Defined.

(** [str(e)] *)
Definition exn_str (e : exn) : string :=
  match e with
  | TypeError => "TypeError"
  | AttributeError => "AttributeError"
  | IntegrityError => "IntegrityError"
  | StaleDataError => "StaleDataError"
  | InvalidRequestError => "InvalidRequestError"
  | PoolExhausted => "PoolExhausted"
  | OtherError msg => msg
  end.

(** Outcome of a Python call: a value or a raised exception. *)
Inductive result (A : Type) : Type :=
| Ok (a : A)
| Raise (e : exn).
Arguments Ok {A} a.
Arguments Raise {A} e.

(** A [concurrent.futures.Future] once its job has run: it holds the
    job's result or the exception the job raised. *)
Definition Future (A : Type) : Type := result A.

(** ** The process state *)

Inductive stmt : Type := SELECT | INSERT | UPDATE | DELETE.

#[global] Instance stmt_eq_dec : EqDecision stmt.
Proof. solve_decision. Defined.

Definition is_write (s : stmt) : bool :=
  match s with SELECT => false | _ => true end.

Inductive pool_event : Type := Checkout | Checkin.

#[global] Instance pool_event_eq_dec : EqDecision pool_event.
Proof. solve_decision. Defined.

(** [Logger.error(message, exception=e, logger_name=...)] *)
Record log_record : Type := LogRecord {
  log_message : string;
  log_exception : exn;
  log_logger_name : string
}.

(** [ThreadPoolExecutor(max_workers=..., thread_name_prefix=...)] *)
Record executor : Type := ThreadPoolExecutor {
  max_workers : Z;
  thread_name_prefix : string
}.

Record world : Type := World {
  table : list attrs;              (* committed rows, in store order *)
  sequence : Z;                    (* next autogenerated primary key *)
  statements : list stmt;          (* SQL statements issued so far *)
  heap : list attrs;               (* Python entity objects, by reference *)
  checked_out : nat;               (* sessions currently out of the pool *)
  pool_log : list pool_event;      (* acquisitions and releases so far *)
  stdout : list string;            (* what print() wrote *)
  logger : list log_record;        (* what Logger.error recorded *)
  bg_executor : option executor;   (* DataAccessObject._bg_executor *)
  os_cpu_count : option Z          (* what os.cpu_count() returns *)
}.

Definition set_table (f : list attrs → list attrs) (w : world) : world :=
  World (f (table w)) (sequence w) (statements w) (heap w) (checked_out w)
        (pool_log w) (stdout w) (logger w) (bg_executor w) (os_cpu_count w).
Definition set_sequence (f : Z → Z) (w : world) : world :=
  World (table w) (f (sequence w)) (statements w) (heap w) (checked_out w)
        (pool_log w) (stdout w) (logger w) (bg_executor w) (os_cpu_count w).
Definition set_statements (f : list stmt → list stmt) (w : world) : world :=
  World (table w) (sequence w) (f (statements w)) (heap w) (checked_out w)
        (pool_log w) (stdout w) (logger w) (bg_executor w) (os_cpu_count w).
Definition set_heap (f : list attrs → list attrs) (w : world) : world :=
  World (table w) (sequence w) (statements w) (f (heap w)) (checked_out w)
        (pool_log w) (stdout w) (logger w) (bg_executor w) (os_cpu_count w).
Definition set_checked_out (f : nat → nat) (w : world) : world :=
  World (table w) (sequence w) (statements w) (heap w) (f (checked_out w))
        (pool_log w) (stdout w) (logger w) (bg_executor w) (os_cpu_count w).
Definition set_pool_log (f : list pool_event → list pool_event) (w : world) : world :=
  World (table w) (sequence w) (statements w) (heap w) (checked_out w)
        (f (pool_log w)) (stdout w) (logger w) (bg_executor w) (os_cpu_count w).
Definition set_stdout (f : list string → list string) (w : world) : world :=
  World (table w) (sequence w) (statements w) (heap w) (checked_out w)
        (pool_log w) (f (stdout w)) (logger w) (bg_executor w) (os_cpu_count w).
Definition set_logger (f : list log_record → list log_record) (w : world) : world :=
  World (table w) (sequence w) (statements w) (heap w) (checked_out w)
        (pool_log w) (stdout w) (f (logger w)) (bg_executor w) (os_cpu_count w).
Definition set_bg_executor (e : option executor) (w : world) : world :=
  World (table w) (sequence w) (statements w) (heap w) (checked_out w)
        (pool_log w) (stdout w) (logger w) e (os_cpu_count w).

(** ** A state-and-exception monad

    Side effects performed before an exception is raised persist, as in
    Python: a raising computation still returns the state it reached. *)
Definition M (S A : Type) : Type := S → result A * S.

Definition ret {S A} (a : A) : M S A := λ st, (Ok a, st).
Definition raise {S A} (e : exn) : M S A := λ st, (Raise e, st).
Definition bind {S A B} (m : M S A) (f : A → M S B) : M S B :=
  λ st, match m st with
        | (Ok a, st') => f a st'
        | (Raise e, st') => (Raise e, st')
        end.

Notation "'let*' x := m 'in' k" := (bind m (λ x, k))
  (at level 10, x name, m at level 100, k at level 200, only parsing).

Definition gets {S A} (f : S → A) : M S A := λ st, (Ok (f st), st).
Definition modify {S} (f : S → S) : M S unit := λ st, (Ok tt, f st).

Fixpoint mapM {S A B} (f : A → M S B) (l : list A) : M S (list B) :=
  match l with
  | [] => ret []
  | x :: l' => let* y := f x in let* ys := mapM f l' in ret (y :: ys)
  end.

(** [for x in l: f(x)] *)
Fixpoint forM_ {S A} (f : A → M S unit) (l : list A) : M S unit :=
  match l with
  | [] => ret tt
  | x :: l' => let* _ := f x in forM_ f l'
  end.

(** ** The mapped model class and the DAO configuration *)

Record dao : Type := Dao {
  class_name : string;                  (* self.__class__.__name__ *)
  columns : gset string;                (* mapped attributes of self.model *)
  model_pk : string;                    (* the mapper's primary-key column *)
  primary_key_attribute_name : string;  (* the property; "id" by default *)
  max_connections : nat                 (* bound of this DAO's pool *)
}.

(** The DAO names the model's primary key, and that key is a column. *)
Definition well_configured (d : dao) : Prop :=
  primary_key_attribute_name d = model_pk d ∧ model_pk d ∈ columns d.

(** ** The relational store under a unit of work

    This is the model of the ORM session: the identity map of the objects
    attached to the session, the writes of the open transaction, and the
    statements [get], [query], [add], [delete], [flush], [refresh] and
    [expunge] used by the DAO. *)

Inductive write : Type :=
| WInsert (r : attrs)
| WUpdate (k : value) (r : attrs)
| WDelete (k : value).

Inductive obj_state : Type :=
| Pending                  (* added, not yet inserted *)
| Persistent (k : value)   (* stands for the row with primary key k *)
| Deleted (k : value).     (* marked for deletion *)

Record session : Type := Session {
  tx_writes : list write;               (* flushed, not yet committed *)
  identity : list (nat * obj_state)     (* the objects attached to it *)
}.

Definition new_session : session := Session [] [].

(** An object is attached to a session when the session tracks it. *)
Definition attached (o : nat) (s : session) : Prop := o ∈ (identity s).*1.

Abbreviation SM := (M (session * world)).
Abbreviation DM := (M world).

(** Run a computation that ignores the session at hand. *)
Definition liftW {A} (m : DM A) : SM A :=
  λ x, match m x.2 with (r, w') => (r, (x.1, w')) end.

Definition has_key (d : dao) (k : value) (r : attrs) : bool :=
  bool_decide (r !! model_pk d = Some k).

Definition find_row (d : dao) (k : value) (t : list attrs) : option attrs :=
  List.find (has_key d k) t.

Definition apply_write (d : dao) (wr : write) (t : list attrs) : list attrs :=
  match wr with
  | WInsert r => t ++ [r]
  | WUpdate k r => map (λ x, if has_key d k x then r else x) t
  | WDelete k => List.filter (λ x, negb (has_key d k x)) t
  end.

(** What the transaction of the session sees: the committed table with
    its own writes applied. *)
Definition view (d : dao) (x : session * world) : list attrs :=
  foldl (λ t wr, apply_write d wr t) (table x.2) (tx_writes x.1).

(** Sending a statement to the store. *)
Definition issue (q : stmt) (w : world) : world :=
  set_statements (λ l, l ++ [q]) w.

Definition emit (q : stmt) : SM unit :=
  modify (λ x, (x.1, issue q x.2)).

Definition add_write (wr : write) : SM unit :=
  modify (λ x, (Session (tx_writes x.1 ++ [wr]) (identity x.1), x.2)).

Definition set_identity (ids : list (nat * obj_state)) : SM unit :=
  modify (λ x, (Session (tx_writes x.1) ids, x.2)).

Definition attach (o : nat) (st : obj_state) : SM unit :=
  modify (λ x, (Session (tx_writes x.1) (identity x.1 ++ [(o, st)]), x.2)).

Definition alloc (a : attrs) : SM nat :=
  λ x, (Ok (length (heap x.2)), (x.1, set_heap (λ h, h ++ [a]) x.2)).

(** [setattr(o, key, v)] on the object behind reference [o] *)
Definition setattr (o : nat) (key : string) (v : value) : DM unit :=
  modify (set_heap (alter (<[key := v]>) o)).

Definition object_attrs (o : nat) : SM attrs :=
  λ x, match heap x.2 !! o with
       | Some a => (Ok a, x)
       | None => (Raise InvalidRequestError, x)
       end.

Definition next_key : SM value :=
  λ x, (Ok (VInt (sequence x.2)), (x.1, set_sequence (λ n, n + 1) x.2)).

Definition identity_find (k : value) (ids : list (nat * obj_state)) : option nat :=
  fst <$> List.find (λ e, match e.2 with
                          | Persistent k' | Deleted k' => bool_decide (k' = k)
                          | Pending => false
                          end) ids.

Definition identity_state (o : nat) (ids : list (nat * obj_state)) : option obj_state :=
  snd <$> List.find (λ e, bool_decide (e.1 = o)) ids.

(** The part of an object's attributes that is stored: its columns. *)
Definition persisted (d : dao) (a : attrs) : attrs :=
  filter (λ kv, kv.1 ∈ columns d) a.

(** Turning a fetched row into an entity: the object already attached for
    that key if there is one, a new attached object otherwise. *)
Definition load_row (d : dao) (r : attrs) : SM nat :=
  match r !! model_pk d with
  | None => raise InvalidRequestError
  | Some k =>
      let* hit := gets (λ x, identity_find k (identity x.1)) in
      match hit with
      | Some o => ret o
      | None => let* o := alloc r in
                let* _ := attach o (Persistent k) in
                ret o
      end
  end.

(** [session.get(model, k)] *)
Definition session_get (d : dao) (k : value) : SM (option nat) :=
  let* hit := gets (λ x, identity_find k (identity x.1)) in
  match hit with
  | Some o => ret (Some o)
  | None =>
      let* _ := emit SELECT in
      let* row := gets (λ x, find_row d k (view d x)) in
      match row with
      | Some r => let* o := load_row d r in ret (Some o)
      | None => ret None
      end
  end.

(** [session.query(model)] and its generative methods *)
Record query : Type := Query {
  q_criteria : list (string * value);          (* column = value, conjoined *)
  q_order_by : option (attrs → attrs → bool);
  q_offset : option Z;
  q_limit : option Z
}.

Definition session_query : query := Query [] None None None.

Definition query_filter (c : string * value) (q : query) : query :=
  Query (q_criteria q ++ [c]) (q_order_by q) (q_offset q) (q_limit q).

Definition query_filter_by (d : dao) (filters : attrs) (q : query) : SM query :=
  if bool_decide (dom filters ⊆ columns d)
  then ret (Query (q_criteria q ++ map_to_list filters)
                  (q_order_by q) (q_offset q) (q_limit q))
  else raise InvalidRequestError.

Definition query_order_by (le : attrs → attrs → bool) (q : query) : query :=
  Query (q_criteria q) (Some le) (q_offset q) (q_limit q).

Definition query_offset (n : Z) (q : query) : query :=
  Query (q_criteria q) (q_order_by q) (Some n) (q_limit q).

Definition query_limit (n : Z) (q : query) : query :=
  Query (q_criteria q) (q_order_by q) (q_offset q) (Some n).

Definition row_matches (q : query) (r : attrs) : bool :=
  forallb (λ c, bool_decide (r !! c.1 = Some c.2)) (q_criteria q).

Fixpoint insert_sorted (le : attrs → attrs → bool) (r : attrs) (l : list attrs)
  : list attrs :=
  match l with
  | [] => [r]
  | x :: l' => if le r x then r :: l else x :: insert_sorted le r l'
  end.

Definition sort_rows (le : attrs → attrs → bool) (l : list attrs) : list attrs :=
  foldr (insert_sorted le) [] l.

(** WHERE, then ORDER BY, then OFFSET, then LIMIT *)
Definition select (q : query) (t : list attrs) : list attrs :=
  let rows := List.filter (row_matches q) t in
  let rows := match q_order_by q with Some le => sort_rows le rows | None => rows end in
  let rows := match q_offset q with Some n => drop (Z.to_nat n) rows | None => rows end in
  match q_limit q with Some n => take (Z.to_nat n) rows | None => rows end.

(** [q.all()] *)
Definition query_all (d : dao) (q : query) : SM (list nat) :=
  let* _ := emit SELECT in
  let* rows := gets (λ x, select q (view d x)) in
  mapM (load_row d) rows.

(** [q.first()]: the query with LIMIT 1, and its row if it has one *)
Definition query_first (d : dao) (q : query) : SM (option nat) :=
  let* os := query_all d (query_limit 1 q) in
  ret (head os).

(** [session.expunge(o)] *)
Definition session_expunge (o : nat) : SM unit :=
  let* ids := gets (λ x, identity x.1) in
  if bool_decide (o ∈ ids.*1)
  then set_identity (List.filter (λ e, negb (bool_decide (e.1 = o))) ids)
  else raise InvalidRequestError.

(** [session.add(o)] *)
Definition session_add (o : nat) : SM unit :=
  let* ids := gets (λ x, identity x.1) in
  if bool_decide (o ∈ ids.*1) then ret tt else attach o Pending.

(** [session.delete(o)] *)
Definition session_delete (o : nat) : SM unit :=
  let* ids := gets (λ x, identity x.1) in
  match identity_state o ids with
  | Some (Persistent k) =>
      set_identity (map (λ e, if bool_decide (e.1 = o) then (o, Deleted k) else e) ids)
  | Some Pending => session_expunge o
  | Some (Deleted _) => ret tt
  | None => raise InvalidRequestError
  end.

(** What [session.flush()] does for one attached object. *)
Definition flush_one (d : dao) (e : nat * obj_state) : SM (list (nat * obj_state)) :=
  match e.2 with
  | Pending =>
      let* a := object_attrs e.1 in
      let* k := match a !! model_pk d with
                | Some k => ret k
                | None => next_key
                end in
      let* _ := emit INSERT in
      let* dup := gets (λ x, find_row d k (view d x)) in
      match dup with
      | Some _ => raise IntegrityError
      | None =>
          let* _ := add_write (WInsert (<[model_pk d := k]> (persisted d a))) in
          let* _ := liftW (setattr e.1 (model_pk d) k) in
          ret [(e.1, Persistent k)]
      end
  | Persistent k =>
      let* a := object_attrs e.1 in
      let* cur := gets (λ x, find_row d k (view d x)) in
      match cur with
      | None => raise StaleDataError
      | Some r =>
          let r' := persisted d a ∪ r in
          if bool_decide (r' = r) then ret [e]
          else
            let* _ := emit UPDATE in
            let k' := default k (r' !! model_pk d) in
            let* clash := gets (λ x, if bool_decide (k' = k) then None
                                     else find_row d k' (view d x)) in
            match clash with
            | Some _ => raise IntegrityError
            | None => let* _ := add_write (WUpdate k r') in
                      ret [(e.1, Persistent k')]
            end
      end
  | Deleted k =>
      let* _ := emit DELETE in
      let* _ := add_write (WDelete k) in
      ret []
  end.

Fixpoint flush_all (d : dao) (ids : list (nat * obj_state))
  : SM (list (nat * obj_state)) :=
  match ids with
  | [] => ret []
  | e :: rest => let* e' := flush_one d e in
                 let* rest' := flush_all d rest in
                 ret (e' ++ rest')
  end.

(** [session.flush()] *)
Definition session_flush (d : dao) : SM unit :=
  let* ids := gets (λ x, identity x.1) in
  let* ids' := flush_all d ids in
  set_identity ids'.

(** [session.refresh(o)]: reload the columns of [o] from its row *)
Definition session_refresh (d : dao) (o : nat) : SM unit :=
  let* st := gets (λ x, identity_state o (identity x.1)) in
  match st with
  | Some (Persistent k) =>
      let* _ := emit SELECT in
      let* cur := gets (λ x, find_row d k (view d x)) in
      match cur with
      | Some r => liftW (modify (set_heap (alter (λ a, r ∪ a) o)))
      | None => raise InvalidRequestError
      end
  | _ => raise InvalidRequestError
  end.

(** The model constructor called with keyword arguments: the declarative
    constructor accepts mapped attributes only. *)
Definition model_new (d : dao) (fields : attrs) : SM nat :=
  if bool_decide (dom fields ⊆ columns d) then alloc fields else raise TypeError.

(** ** The connection manager

    [PostgresConnection] is not part of the file.  Its context manager
    [get_session], which [session_scope] wraps, is modelled after the
    specification of the unit of work: a session is acquired from the
    DAO's bounded pool (and the call fails when the pool is exhausted),
    the body runs, its writes are flushed and committed on normal exit
    and rolled back when the body raised, and the session is released on
    every exit path. *)

Definition checkout (w : world) : world :=
  set_pool_log (λ l, l ++ [Checkout]) (set_checked_out S w).

Definition checkin (w : world) : world :=
  set_pool_log (λ l, l ++ [Checkin]) (set_checked_out Nat.pred w).

(** Modelled from the spec: acquisition of a session from the pool of
    [PostgresConnection], which is not in the file; it fails with a pool
    error when [max_connections] sessions are already out. *)
Definition acquire (d : dao) : DM session :=
  λ w, if bool_decide (checked_out w < max_connections d)%nat
       then (Ok new_session, checkout w)
       else (Raise PoolExhausted, w).

(** Modelled from the spec: the release of the session to the pool of
    [PostgresConnection]. *)
Definition release : DM unit := modify checkin.

(** Modelled from the spec: the commit done by [get_session] on normal
    exit; the writes are flushed and become the table. *)
Definition commit (d : dao) : SM unit :=
  let* _ := session_flush d in
  modify (λ x, (Session [] (identity x.1), set_table (λ _, view d x) x.2)).

(** Modelled from the spec: the rollback done by [get_session] when the
    body raised; the uncommitted writes are dropped and the session is
    discarded with them. *)
Definition rollback (x : session * world) : world := x.2.

(** Modelled from the spec: [PostgresConnection.get_session], the
    context manager around the body of [session_scope]. *)
Definition get_session {A} (d : dao) (body : SM A) : DM A :=
  let* s := acquire d in
  λ w, match (let* a := body in let* _ := commit d in ret a) (s, w) with
       | (Ok a, x) => (let* _ := release in ret a) x.2
       | (Raise e, x) => (let* _ := release in raise e) (rollback x)
       end.

(** ** The data-access object *)

Module DAO.

(** [with self._pg.get_session() as session: yield session] *)
Definition session_scope {A} (d : dao) (body : SM A) : DM A :=
  get_session d body.

(** [with self.session_scope() as session: return fn(session)]; the
    callable [fn] receives the session as the state it runs in. *)
Definition _run_in_session {A} (d : dao) (fn : SM A) : DM A :=
  session_scope d fn.

(** [getattr(self.model, self.primary_key_attribute_name)] *)
Definition _get_pk_column (d : dao) : SM string :=
  if bool_decide (primary_key_attribute_name d ∈ columns d)
  then ret (primary_key_attribute_name d)
  else raise AttributeError.

(** [os.cpu_count() or 1] *)
Definition cpu_count_or_1 (c : option Z) : Z :=
  match c with
  | Some n => if bool_decide (n = 0) then 1 else n
  | None => 1
  end.

Definition _get_bg_executor : DM executor :=
  λ w, match bg_executor w with
       | None =>
           (* with cls._bg_lock: *)
           match bg_executor w with
           | None =>
               let max_workers := Z.max 4 (cpu_count_or_1 (os_cpu_count w)) in
               let ex := ThreadPoolExecutor max_workers "dao-bg" in
               (Ok ex, set_bg_executor (Some ex) w)
           | Some ex => (Ok ex, w)
           end
       | Some ex => (Ok ex, w)
       end.

(** The job wrapped around [fn] by [_submit_background]. *)
Definition _runner {A} (d : dao) (fn : SM A) : DM A :=
  λ w, match _run_in_session d fn w with
       | (Ok a, w') => (Ok a, w')
       | (Raise e, w') =>
           (Raise e,
            set_logger (λ l, l ++ [LogRecord "Background DAO operation failed"
                                             e (class_name d)])
              (set_stdout (λ l, l ++ [exn_str e]) w'))
       end.

(** [executor.submit(job)]: the job runs on a worker and its outcome,
    result or exception, is stored in the Future; [submit] itself returns
    the Future and does not raise.  The worker is taken to run the job to
    completion, which is the one schedule the sequential model follows. *)
Definition submit {A} (ex : executor) (job : DM A) : DM (Future A) :=
  λ w, match job w with (r, w') => (Ok r, w') end.

Definition _submit_background {A} (d : dao) (fn : SM A) : DM (Future A) :=
  let* ex := _get_bg_executor in
  submit ex (_runner d fn).

(** *** Reads *)

Definition get_op (d : dao) (id_value : value) : SM (option nat) :=
  let* row := session_get d id_value in
  match row with
  | Some o => let* _ := session_expunge o in ret (Some o)
  | None => ret None
  end.

Definition get (d : dao) (id_value : value) : DM (option nat) :=
  _run_in_session d (get_op d id_value).

Definition list_op (d : dao) (limit offset : Z) : SM (list nat) :=
  let q := session_query in
  let q := if bool_decide (offset > 0) then query_offset offset q else q in
  let q := if bool_decide (limit > 0) then query_limit limit q else q in
  let* rows := query_all d q in
  let* _ := forM_ session_expunge rows in
  ret rows.

Definition list_ (d : dao) (limit offset : Z) : DM (list nat) :=
  _run_in_session d (list_op d limit offset).

Definition list_by_op (d : dao) (limit offset : Z) (filters : attrs)
  : SM (list nat) :=
  let* q := query_filter_by d filters session_query in
  let q := if bool_decide (offset > 0) then query_offset offset q else q in
  let q := if bool_decide (limit > 0) then query_limit limit q else q in
  let* rows := query_all d q in
  let* _ := forM_ session_expunge rows in
  ret rows.

Definition list_by (d : dao) (limit offset : Z) (filters : attrs)
  : DM (list nat) :=
  _run_in_session d (list_by_op d limit offset filters).

Definition list_by_order_by_op (d : dao) (order_by : attrs → attrs → bool)
    (limit offset : Z) (filters : attrs) : SM (list nat) :=
  let* q := query_filter_by d filters session_query in
  let q := query_order_by order_by q in
  let q := if bool_decide (offset > 0) then query_offset offset q else q in
  let q := if bool_decide (limit > 0) then query_limit limit q else q in
  let* rows := query_all d q in
  let* _ := forM_ session_expunge rows in
  ret rows.

Definition list_by_order_by (d : dao) (order_by : attrs → attrs → bool)
    (limit offset : Z) (filters : attrs) : DM (list nat) :=
  _run_in_session d (list_by_order_by_op d order_by limit offset filters).

Definition exists_op (d : dao) (id_value : value) : SM (option nat) :=
  let* pk_col := _get_pk_column d in
  let* res := query_first d (query_filter (pk_col, id_value) session_query) in
  match res with
  | Some o => let* _ := session_expunge o in ret (Some o)
  | None => ret None
  end.

Definition exists_ (d : dao) (id_value : value) : DM (option nat) :=
  _run_in_session d (exists_op d id_value).

(** *** Writes *)

(** [for key, value in fields.items(): setattr(row, key, value)] *)
Definition set_fields (o : nat) (fields : attrs) : SM unit :=
  forM_ (λ kv, liftW (setattr o kv.1 kv.2)) (map_to_list fields).

Definition create_write (d : dao) (fields : attrs) : SM nat :=
  let* row := model_new d fields in
  let* _ := session_add row in
  let* _ := session_flush d in
  let* _ := session_refresh d row in
  let* _ := session_expunge row in
  ret row.

Definition create (d : dao) (fields : attrs) : DM nat :=
  _run_in_session d (create_write d fields).

Definition update_write (d : dao) (id_value : value) (fields : attrs)
  : SM (option nat) :=
  let* row := session_get d id_value in
  match row with
  | None => ret None
  | Some o =>
      let* _ := set_fields o fields in
      let* _ := session_flush d in
      let* _ := session_refresh d o in
      let* _ := session_expunge o in
      ret (Some o)
  end.

Definition update (d : dao) (id_value : value) (fields : attrs)
  : DM (option nat) :=
  _run_in_session d (update_write d id_value fields).

Definition upsert_write (d : dao) (id_value : value) (fields : attrs) : SM nat :=
  let* existing_row := session_get d id_value in
  match existing_row with
  | None =>
      (* row_data = {pk: id_value}; row_data.update(fields) *)
      let row_data : attrs := {[ primary_key_attribute_name d := id_value ]} in
      let row_data := fields ∪ row_data in
      let* new_row := model_new d row_data in
      let* _ := session_add new_row in
      let* _ := session_flush d in
      let* _ := session_refresh d new_row in
      let* _ := session_expunge new_row in
      ret new_row
  | Some o =>
      let* _ := set_fields o fields in
      let* _ := session_flush d in
      let* _ := session_refresh d o in
      let* _ := session_expunge o in
      ret o
  end.

Definition upsert (d : dao) (id_value : value) (fields : attrs) : DM nat :=
  _run_in_session d (upsert_write d id_value fields).

Definition delete_write (d : dao) (id_value : value) : SM bool :=
  let* row := session_get d id_value in
  match row with
  | None => ret false
  | Some o =>
      let* _ := session_delete o in
      let* _ := session_flush d in
      ret true
  end.

Definition delete (d : dao) (id_value : value) : DM bool :=
  _run_in_session d (delete_write d id_value).

(** *** Fire-and-forget counterparts *)

(** [create_ff] and [delete_ff] define a [_write] of their own, which is
    the [_write] of [create] and of [delete] statement for statement. *)
Definition create_ff (d : dao) (fields : attrs) : DM (Future nat) :=
  _submit_background d (create_write d fields).

(** [lambda session: self.update(id_value, **fields)]: the callable does
    not use the session it is given and calls the synchronous method. *)
Definition update_ff (d : dao) (id_value : value) (fields : attrs)
  : DM (Future (option nat)) :=
  _submit_background d (liftW (update d id_value fields)).

Definition upsert_ff (d : dao) (id_value : value) (fields : attrs)
  : DM (Future nat) :=
  _submit_background d (liftW (upsert d id_value fields)).

Definition delete_ff (d : dao) (id_value : value) : DM (Future bool) :=
  _submit_background d (delete_write d id_value).

Definition run_custom {A} (d : dao) (fn : SM A) : DM A :=
  _run_in_session d fn.

End DAO.

(** ** A small instance to run the model on *)

Definition user_dao : dao :=
  Dao "UserDAO" {[ "id"; "name"; "email" ]} "id" "id" 2.

Definition alice : attrs :=
  {[ "id" := VInt 1; "name" := VStr "alice"; "email" := VStr "a@x" ]}.
Definition bob : attrs :=
  {[ "id" := VInt 2; "name" := VStr "bob"; "email" := VStr "b@x" ]}.
Definition carol : attrs :=
  {[ "id" := VInt 3; "name" := VStr "carol"; "email" := VStr "c@x" ]}.

Definition users_world : world :=
  World [alice; bob; carol] 4 [] [] 0 [] [] [] None (Some 8).


(** ** First use of the background executor by several threads

    [_get_bg_executor] run by any number of threads at once, each in a
    call on the class of its DAO.  Each thread is at one program point of
    the method; a step lets one thread execute the statement it is at, on
    the class attributes [_bg_executor] and [_bg_lock].  Reading an
    attribute of a class looks along its method resolution order;
    assigning one sets it on the class itself.  The interleaving is
    arbitrary.  An executor is named by its construction index, so that
    [constructed] counts the calls of the [ThreadPoolExecutor]
    constructor. *)

Module BgExecutor.

Inductive pc : Type :=
| AtCheck                 (* if cls._bg_executor is None: *)
| AtLock                  (*   with cls._bg_lock:   (waiting to enter) *)
| AtRecheck               (*     if cls._bg_executor is None: *)
| AtConstruct             (*       ThreadPoolExecutor(...) *)
| AtAssign (e : nat)      (*       cls._bg_executor = ... *)
| AtUnlock                (*   (leaving the with block) *)
| AtReturn                (* return cls._bg_executor *)
| Returned (r : option nat).

#[global] Instance pc_eq_dec : EqDecision pc.
Proof. solve_decision. Defined.

(** [cls], the class of the DAO the method is called on ([type(self)] in
    [_submit_background]): the class itself and the classes it inherits
    from, in method resolution order.  [DataAccessObject] comes last. *)
Record class : Type := Class {
  class_id : nat;
  bases : list nat
}.

#[global] Instance class_eq_dec : EqDecision class.
Proof. solve_decision. Defined.

Definition DataAccessObject : class := Class 0 [].

Definition mro (cls : class) : list nat := class_id cls :: bases cls.

Record shared : Type := Shared {
  (* the executor that the class's own [_bg_executor] names, for the
     classes where it names one; [DataAccessObject._bg_executor] is
     [None] at first and no other class has the attribute of its own *)
  _bg_executor : gmap nat nat;
  (* the thread holding [DataAccessObject._bg_lock], if any: no class
     has a lock of its own *)
  _bg_lock : option nat;
  (* executors constructed so far *)
  constructed : nat
}.

(** Reading [cls._bg_executor]: the attribute of the first class in the
    method resolution order that has one, which is the [None] of
    [DataAccessObject] when no executor is found before. *)
Definition class_getattr (cls : class) (attr : gmap nat nat) : option nat :=
  head (omap (λ k, attr !! k) (mro cls)).

(** Assigning [cls._bg_executor = e] sets the attribute of [cls] itself. *)
Definition class_setattr (cls : class) (e : nat) (attr : gmap nat nat)
  : gmap nat nat :=
  <[class_id cls := e]> attr.

Record config : Type := Config {
  mem : shared;
  threads : list (class * pc)
}.

(** The statement at [p], executed by thread [tid] in a call on [cls];
    [None] when the thread cannot move (it waits for the lock, or it has
    returned). *)
Definition thread_step (tid : nat) (cls : class) (m : shared) (p : pc)
  : option (shared * pc) :=
  match p with
  | AtCheck =>
      match class_getattr cls (_bg_executor m) with
      | None => Some (m, AtLock)
      | Some _ => Some (m, AtReturn)
      end
  | AtLock =>
      match _bg_lock m with
      | None => Some (Shared (_bg_executor m) (Some tid) (constructed m), AtRecheck)
      | Some _ => None
      end
  | AtRecheck =>
      match class_getattr cls (_bg_executor m) with
      | None => Some (m, AtConstruct)
      | Some _ => Some (m, AtUnlock)
      end
  | AtConstruct =>
      Some (Shared (_bg_executor m) (_bg_lock m) (S (constructed m)),
            AtAssign (constructed m))
  | AtAssign e =>
      Some (Shared (class_setattr cls e (_bg_executor m)) (_bg_lock m)
              (constructed m),
            AtUnlock)
  | AtUnlock =>
      Some (Shared (_bg_executor m) None (constructed m), AtReturn)
  | AtReturn => Some (m, Returned (class_getattr cls (_bg_executor m)))
  | Returned _ => None
  end.

Inductive step : config → config → Prop :=
| Step (c : config) (tid : nat) (cls : class) (p : pc) (m' : shared) (p' : pc) :
    threads c !! tid = Some (cls, p) →
    thread_step tid cls (mem c) p = Some (m', p') →
    step c (Config m' (<[tid := (cls, p')]> (threads c))).

(** One thread per listed class enters the method while no executor
    exists. *)
Definition start (classes : list class) : config :=
  Config (Shared ∅ None 0) ((λ cls, (cls, AtCheck)) <$> classes).

(** [n] threads enter the method on the same class. *)
Definition init (n : nat) (cls : class) : config := start (replicate n cls).

Definition reachable (classes : list class) (c : config) : Prop :=
  rtc step (start classes) c.

Definition finished (p : pc) : bool :=
  match p with Returned _ => true | _ => false end.

(** Running a schedule: the listed threads take one step each, in order;
    a thread that cannot move is skipped. *)
Definition sched_step (c : config) (tid : nat) : config :=
  match threads c !! tid with
  | Some (cls, p) =>
      match thread_step tid cls (mem c) p with
      | Some (m', p') => Config m' (<[tid := (cls, p')]> (threads c))
      | None => c
      end
  | None => c
  end.

Definition run_schedule (sched : list nat) (c : config) : config :=
  foldl sched_step c sched.

(** Two DAO classes, as an application defines them:
    [class UserDAO(DataAccessObject[User, int])] and
    [class OrderDAO(DataAccessObject[Order, int])]. *)
Definition UserDAO : class := Class 1 [0%nat].
Definition OrderDAO : class := Class 2 [0%nat].

End BgExecutor.

(** ** Notions used to state the properties *)

(** The three listing methods share their pagination and their last
    three statements; the shared parts are named here for the proofs. *)
Definition paginate (limit offset : Z) (q : query) : query :=
  let q := if bool_decide (offset > 0) then query_offset offset q else q in
  if bool_decide (limit > 0) then query_limit limit q else q.

Definition fetch_detached (d : dao) (q : query) : SM (list nat) :=
  let* rows := query_all d q in
  let* _ := forM_ session_expunge rows in
  ret rows.

(** A table is well formed when every row has a primary key, holds
    columns of the model only, and no two rows share a key. *)
Definition table_wf (d : dao) (t : list attrs) : Prop :=
  Forall (λ r, is_Some (r !! model_pk d) ∧ dom r ⊆ columns d) t
  ∧ NoDup ((λ r, r !! model_pk d) <$> t).

(** The attributes of the entities behind a list of references. *)
Definition entities (w : world) (os : list nat) : list (option attrs) :=
  (λ o, heap w !! o) <$> os.

(** [setattr(e, key, v)] done by the caller on an entity it holds. *)
Definition mutate (o : nat) (key : string) (v : value) (w : world) : world :=
  (setattr o key v w).2.

(** What a caller observes of [get(k)]: the attributes of the entity it
    is handed (or that there is none, or the exception), and the table
    the call leaves behind. *)
Definition observe_get (d : dao) (k : value) (w : world)
  : result (option attrs) * list attrs :=
  match DAO.get d k w with
  | (Ok (Some o), w') => (Ok (heap w' !! o), table w')
  | (Ok None, w') => (Ok None, table w')
  | (Raise e, w') => (Raise e, table w')
  end.

(** The part of the process state that the statements of a session
    leave alone: the pool, the output channels and the executor. *)
Definition env (w : world) :=
  (checked_out w, pool_log w, stdout w, logger w, bg_executor w,
   os_cpu_count w).

Definition session_local {A} (m : SM A) : Prop :=
  ∀ x, env (m x).2.2 = env x.2.


(** The public operations of a DAO, as calls with their arguments. *)
Inductive call : Type :=
| CGet (k : value)
| CList (limit offset : Z)
| CListBy (limit offset : Z) (filters : attrs)
| CListByOrderBy (order_by : attrs → attrs → bool) (limit offset : Z) (filters : attrs)
| CExists (k : value)
| CCreate (fields : attrs)
| CUpdate (k : value) (fields : attrs)
| CUpsert (k : value) (fields : attrs)
| CDelete (k : value)
| CCreateFF (fields : attrs)
| CUpdateFF (k : value) (fields : attrs)
| CUpsertFF (k : value) (fields : attrs)
| CDeleteFF (k : value).

Definition is_ff (c : call) : bool :=
  match c with
  | CCreateFF _ | CUpdateFF _ _ | CUpsertFF _ _ | CDeleteFF _ => true
  | _ => false
  end.

(** The two fire-and-forget methods written as a lambda around the
    synchronous method. *)
Definition delegates_to_sync (c : call) : bool :=
  match c with
  | CUpdateFF _ _ | CUpsertFF _ _ => true
  | _ => false
  end.

(** The process state a call leaves behind. *)
Definition perform (d : dao) (c : call) (w : world) : world :=
  match c with
  | CGet k => (DAO.get d k w).2
  | CList limit offset => (DAO.list_ d limit offset w).2
  | CListBy limit offset f => (DAO.list_by d limit offset f w).2
  | CListByOrderBy ob limit offset f => (DAO.list_by_order_by d ob limit offset f w).2
  | CExists k => (DAO.exists_ d k w).2
  | CCreate f => (DAO.create d f w).2
  | CUpdate k f => (DAO.update d k f w).2
  | CUpsert k f => (DAO.upsert d k f w).2
  | CDelete k => (DAO.delete d k w).2
  | CCreateFF f => (DAO.create_ff d f w).2
  | CUpdateFF k f => (DAO.update_ff d k f w).2
  | CUpsertFF k f => (DAO.upsert_ff d k f w).2
  | CDeleteFF k => (DAO.delete_ff d k w).2
  end.

(** A DAO with a pool of a single session. *)
Definition single_session_dao : dao :=
  Dao "UserDAO" {[ "id"; "name"; "email" ]} "id" "id" 1.

(** *** Invariant of the first-use race *)

Definition holds_lock (p : BgExecutor.pc) : bool :=
  match p with
  | BgExecutor.AtRecheck | BgExecutor.AtConstruct
  | BgExecutor.AtAssign _ | BgExecutor.AtUnlock => true
  | _ => false
  end.

(** What is known of the shared attributes when thread [tid], in a call
    on [cls], is at [p]. *)
Definition pc_ok (cls : BgExecutor.class) (m : BgExecutor.shared) (tid : nat)
    (p : BgExecutor.pc) : Prop :=
  match p with
  | BgExecutor.AtCheck | BgExecutor.AtLock => True
  | BgExecutor.AtRecheck => BgExecutor._bg_lock m = Some tid
  | BgExecutor.AtConstruct =>
      BgExecutor._bg_lock m = Some tid
      ∧ BgExecutor.class_getattr cls (BgExecutor._bg_executor m) = None
      ∧ BgExecutor.constructed m = 0%nat
  | BgExecutor.AtAssign e =>
      BgExecutor._bg_lock m = Some tid
      ∧ BgExecutor.class_getattr cls (BgExecutor._bg_executor m) = None
      ∧ BgExecutor.constructed m = 1%nat
      ∧ e = 0%nat
  | BgExecutor.AtUnlock =>
      BgExecutor._bg_lock m = Some tid
      ∧ BgExecutor.class_getattr cls (BgExecutor._bg_executor m) = Some 0%nat
  | BgExecutor.AtReturn => BgExecutor.class_getattr cls (BgExecutor._bg_executor m) = Some 0%nat
  | BgExecutor.Returned r =>
      r = Some 0%nat ∧ BgExecutor.class_getattr cls (BgExecutor._bg_executor m) = Some 0%nat
  end.

(** The invariant when every thread calls the method on [cls]. *)
Definition race_inv (cls : BgExecutor.class) (c : BgExecutor.config) : Prop :=
  (∀ tid k p, BgExecutor.threads c !! tid = Some (k, p) →
              k = cls ∧ pc_ok cls (BgExecutor.mem c) tid p)
  ∧ (∀ e, BgExecutor.class_getattr cls
            (BgExecutor._bg_executor (BgExecutor.mem c)) = Some e →
          e = 0%nat ∧ BgExecutor.constructed (BgExecutor.mem c) = 1%nat)
  ∧ (BgExecutor.class_getattr cls
       (BgExecutor._bg_executor (BgExecutor.mem c)) = None →
     BgExecutor.constructed (BgExecutor.mem c) = 0%nat
     ∨ ∃ tid, BgExecutor.threads c !! tid = Some (cls, BgExecutor.AtAssign 0))
  ∧ (∀ tid, BgExecutor._bg_lock (BgExecutor.mem c) = Some tid →
            ∃ p, BgExecutor.threads c !! tid = Some (cls, p)
                 ∧ holds_lock p = true).

(** Statements a thread still has to execute, at most. *)
Definition remaining (p : BgExecutor.pc) : nat :=
  match p with
  | BgExecutor.AtCheck => 7
  | BgExecutor.AtLock => 6
  | BgExecutor.AtRecheck => 5
  | BgExecutor.AtConstruct => 4
  | BgExecutor.AtAssign _ => 3
  | BgExecutor.AtUnlock => 2
  | BgExecutor.AtReturn => 1
  | BgExecutor.Returned _ => 0
  end.

Definition work_left (c : BgExecutor.config) : nat :=
  sum_list ((λ t, remaining t.2) <$> BgExecutor.threads c).

(** ** Notions used for the further properties *)

(** A property of the state of a session that a computation keeps,
    whether it returns or raises. *)
Definition preserves {A} (P : session * world → Prop) (m : SM A) : Prop :=
  ∀ x, P x → P (m x).2.

(** The committed table is [t]. *)
Definition table_is (t : list attrs) : session * world → Prop :=
  λ x, table x.2 = t.

(** What the transaction sees is a well-formed table. *)
Definition view_wf (d : dao) : session * world → Prop :=
  λ x, table_wf d (view d x).

(** The exception a call ends with: the one it raises for a synchronous
    method, the one held by its Future for a fire-and-forget method. *)
Definition raised {A} (r : result A) : option exn :=
  match r with Ok _ => None | Raise e => Some e end.

Definition held {A} (r : result (Future A)) : option exn :=
  match r with Ok fut => raised fut | Raise e => Some e end.

Definition call_failure (d : dao) (c : call) (w : world) : option exn :=
  match c with
  | CGet k => raised (DAO.get d k w).1
  | CList limit offset => raised (DAO.list_ d limit offset w).1
  | CListBy limit offset f => raised (DAO.list_by d limit offset f w).1
  | CListByOrderBy ob limit offset f =>
      raised (DAO.list_by_order_by d ob limit offset f w).1
  | CExists k => raised (DAO.exists_ d k w).1
  | CCreate f => raised (DAO.create d f w).1
  | CUpdate k f => raised (DAO.update d k f w).1
  | CUpsert k f => raised (DAO.upsert d k f w).1
  | CDelete k => raised (DAO.delete d k w).1
  | CCreateFF f => held (DAO.create_ff d f w).1
  | CUpdateFF k f => held (DAO.update_ff d k f w).1
  | CUpsertFF k f => held (DAO.upsert_ff d k f w).1
  | CDeleteFF k => held (DAO.delete_ff d k w).1
  end.

(** What the store and the entities look like: the table, the key
    sequence, the statements issued and the objects on the heap. *)
Definition store (w : world) :=
  (table w, sequence w, statements w, heap w).

(** A row agrees with a set of filters when it holds the value asked
    for in each filtered column. *)
Definition agrees (filters r : attrs) : bool :=
  bool_decide (map_Forall (λ key v, r !! key = Some v) filters).

(** A page of a list of rows: what [limit] and [offset] select. *)
Definition page (limit offset : Z) (rows : list attrs) : list attrs :=
  (if bool_decide (limit > 0) then take (Z.to_nat limit) else λ l, l)
    ((if bool_decide (offset > 0) then drop (Z.to_nat offset) else λ l, l) rows).

(** [le] orders the list: each row is below all the rows after it. *)
Fixpoint ordered (le : attrs → attrs → bool) (l : list attrs) : Prop :=
  match l with
  | [] => True
  | x :: l' => Forall (λ y, le x y = true) l' ∧ ordered le l'
  end.

(** An order to list the sample table by: [User.id.desc()]. *)
Definition id_of (r : attrs) : Z :=
  match r !! "id" with Some (VInt z) => z | _ => 0 end.

Definition by_id_desc (a b : attrs) : bool := id_of b <=? id_of a.

(** The state [w] with the pool, the output channels, the executor and
    the host of [w0] in place of its own. *)
Definition with_env (w0 w : world) : world :=
  World (table w) (sequence w) (statements w) (heap w) (checked_out w0)
        (pool_log w0) (stdout w0) (logger w0) (bg_executor w0) (os_cpu_count w0).

(** A callable that neither reads nor writes that part of the state:
    run from a state that differs there, it returns the same result and
    leaves the same session, store and heap. *)
Definition env_blind {A} (m : SM A) : Prop :=
  ∀ s w w0, m (s, with_env w0 w) =
            ((m (s, w)).1, ((m (s, w)).2.1, with_env w0 (m (s, w)).2.2)).

(** The exceptions a callable can raise are among those of [P]. *)
Definition raises_only {A} (P : exn → Prop) (m : SM A) : Prop :=
  ∀ x e, (m x).1 = Raise e → P e.

(** An error of the store or of the session, as opposed to the pool's. *)
Definition store_error (e : exn) : Prop := e ≠ PoolExhausted.

(** The sessions a call needs from the pool to do its work. *)
Definition sessions_needed (c : call) : nat :=
  if delegates_to_sync c then 2%nat else 1%nat.




(** A callable for [run_custom] that makes two rows in one unit of work. *)
Definition create_two (d : dao) (f1 f2 : attrs) : SM (nat * nat) :=
  let* a := DAO.create_write d f1 in
  let* b := DAO.create_write d f2 in
  ret (a, b).

(** The outcome of a call with its result changed by [g]: the same
    state, the same exception if it raised. *)
Definition map_result {S A B} (g : A → B) (r : result A * S) : result B * S :=
  match r with
  | (Ok a, st) => (Ok (g a), st)
  | (Raise e, st) => (Raise e, st)
  end.

(** * The observable dictionary of [observable_dict.py]

    [ObservableDict] is a [dict] whose mutating methods report what they
    did to a callback.  The built-in [dict] is modelled as the list of
    its items in insertion order, one item per key.  The callback is any
    callable: it is given the operation and the items, it can reach the
    dictionary it observes and the state of whoever listens, change
    both, install another callback or none, and return or raise; what it
    did before raising stays done. *)

Module ObservableDict.

(** What can be raised below. *)
Inductive pyexn : Type :=
| KeyError                      (* the key is not in the dictionary *)
| ValueError                    (* an element is not a (key, value) pair *)
| CallbackError (msg : string)  (* an [Exception] raised by a callback *)
| KeyboardInterrupt.            (* a [BaseException] that is no [Exception] *)

(** What [except Exception] catches. *)
Definition is_Exception (e : pyexn) : bool :=
  match e with
  | KeyboardInterrupt => false
  | _ => true
  end.

Inductive outcome (A : Type) : Type :=
| Returns (a : A)
| Raises (e : pyexn).
Arguments Returns {A} a.
Arguments Raises {A} e.

Section ObservableDict.
Context {K V L : Type} `{EqDecision K}.

(** A value of the dictionary: a [V] or Python's [None]. *)
Definition val : Type := option V.
Definition item : Type := (K * val)%type.

(** *** The built-in [dict] *)

Definition dict : Type := list item.

(** [dt[key]], or that the key is missing *)
Fixpoint dict_getitem (key : K) (dt : dict) : option val :=
  match dt with
  | [] => None
  | (k, v) :: dt' => if decide (k = key) then Some v else dict_getitem key dt'
  end.

(** [dict.__setitem__]: a key that is present keeps its place, a new
    key goes last. *)
Fixpoint dict_setitem (key : K) (value : val) (dt : dict) : dict :=
  match dt with
  | [] => [(key, value)]
  | (k, v) :: dt' =>
      if decide (k = key) then (k, value) :: dt'
      else (k, v) :: dict_setitem key value dt'
  end.

(** [dict.__delitem__] and [dict.pop] of a key that is present *)
Definition dict_delitem (key : K) (dt : dict) : dict :=
  List.filter (λ kv, negb (bool_decide (kv.1 = key))) dt.

(** [dict(pairs)] and [dict.update(pairs)] *)
Definition dict_assign (pairs : list item) (dt : dict) : dict :=
  foldl (λ dt kv, dict_setitem kv.1 kv.2 dt) dt pairs.

(** *** The class *)

(** [on_change(operation, items)].  The callable runs on the items of
    the dictionary and on the state of the listener, and leaves both as
    it likes; the last component of what it gives back is the callback
    it has installed in its own place, if it has called
    [set_on_change]. *)
Local Unset Elimination Schemes.
Inductive callback : Type :=
| Callback (call : string → list item → dict * L →
                   outcome unit * (dict * L) * option (option callback)).
Local Set Elimination Schemes.

Record od : Type := OD {
  data : dict;                      (* the items of the dict itself *)
  _on_change : option callback
}.

(** A method runs on the dictionary and on the state of the listener. *)
Definition method (A : Type) : Type := od * L → outcome A * (od * L).

Definition set_data (f : dict → dict) (st : od * L) : od * L :=
  (OD (f (data st.1)) (_on_change st.1), st.2).

(** [dict(initial, **kwargs)], then the callback is stored; nothing is
    notified. *)
Definition __init__ (initial : option (list item)) (on_change : option callback)
    (kwargs : list item) : od :=
  OD (dict_assign kwargs (dict_assign (default [] initial) [])) on_change.

Definition set_on_change (on_change : option callback) : method unit :=
  λ st, (Returns tt, (OD (data st.1) on_change, st.2)).

(** [if self._on_change: try: self._on_change(operation, items)
    except Exception: pass].  A callback that is set counts as true, as
    functions, methods and lambdas do.  What the callback raises is
    dropped when it is an [Exception]; anything else goes through to
    the caller of the method. *)
Definition _notify (operation : string) (items : list item) : method unit :=
  λ st, match _on_change st.1 with
        | None => (Returns tt, st)
        | Some (Callback call) =>
            match call operation items (data st.1, st.2) with
            | (r, (dt, l), installed) =>
                let st' := (OD dt (default (_on_change st.1) installed), l) in
                match r with
                | Returns _ => (Returns tt, st')
                | Raises e =>
                    if is_Exception e then (Returns tt, st')
                    else (Raises e, st')
                end
            end
        end.

(** [self._notify(...)] followed by [return a] *)
Definition and_return {A} (r : outcome unit * (od * L)) (a : A)
  : outcome A * (od * L) :=
  match r with
  | (Returns _, st) => (Returns a, st)
  | (Raises e, st) => (Raises e, st)
  end.

Definition __setitem__ (key : K) (value : val) : method unit :=
  λ st, _notify "set" [(key, value)] (set_data (dict_setitem key value) st).

(** The loop of [_assign_pairs]; an element that does not unpack into a
    key and a value is [None] and makes the [for] statement raise. *)
Fixpoint assign_loop (pairs : list (option item)) (changed : list item)
  : method (list item) :=
  λ st, match pairs with
        | [] => (Returns changed, st)
        | None :: _ => (Raises ValueError, st)
        | Some (key, value) :: rest =>
            assign_loop rest (changed ++ [(key, value)])
              (set_data (dict_setitem key value) st)
        end.

Definition _assign_pairs (pairs : list (option item)) : method (list item) :=
  assign_loop pairs [].

(** The positional argument of [update]. *)
Inductive other_arg : Type :=
| Mapping (m : dict)                    (* isinstance(other, Mapping) *)
| Pairs (l : list (option item)).       (* any other iterable *)

Definition update (other : option other_arg) (kwargs : list item) : method unit :=
  λ st,
    let r := match other with
             | None => (Returns [], st)
             | Some (Mapping m) => _assign_pairs (Some <$> m) st
             | Some (Pairs l) => _assign_pairs l st
             end in
    match r with
    | (Raises e, st') => (Raises e, st')
    | (Returns changed, st') =>
        let st'' := set_data (dict_assign kwargs) st' in
        match changed ++ kwargs with
        | [] => (Returns tt, st'')
        | changed' => _notify "update" changed' st''
        end
    end.

(** [key in self] and [self[key]] are one lookup here. *)
Definition setdefault (key : K) (default : val) : method val :=
  λ st, match dict_getitem key (data st.1) with
        | Some v => (Returns v, st)
        | None =>
            let value := default in
            and_return
              (_notify "setdefault" [(key, value)]
                 (set_data (dict_setitem key value) st))
              value
        end.

Definition pop (key : K) (default : val) : method val :=
  λ st, match dict_getitem key (data st.1) with
        | Some value =>
            and_return
              (_notify "pop" [(key, value)] (set_data (dict_delitem key) st))
              value
        | None =>
            match default with
            | Some v => (Returns (Some v), st)      (* default is not None *)
            | None => (Raises KeyError, st)         (* super().pop(key) *)
            end
        end.

(** [dict.popitem] takes the item inserted last. *)
Definition popitem : method item :=
  λ st, match last (data st.1) with
        | None => (Raises KeyError, st)
        | Some it =>
            and_return
              (_notify "popitem" [it] (set_data (λ dt, removelast dt) st))
              it
        end.

Definition clear : method unit :=
  λ st, match data st.1 with
        | [] => (Returns tt, set_data (λ _, []) st)
        | removed_items =>
            _notify "clear" removed_items (set_data (λ _, []) st)
        end.

Definition __delitem__ (key : K) : method unit :=
  λ st, match dict_getitem key (data st.1) with
        | None => (Raises KeyError, st)             (* value = self[key] *)
        | Some value =>
            _notify "delitem" [(key, value)] (set_data (dict_delitem key) st)
        end.

(** [ObservableDict(self.items())]: a new dictionary, without callback *)
Definition copy (self : od) : od := __init__ (Some (data self)) None [].

Definition items (self : od) : list item := data self.
Definition keys (self : od) : list K := (data self).*1.
Definition values (self : od) : list val := (data self).*2.
Definition to_dict (self : od) : dict := data self.

(** *** Notions used to state the properties *)

(** The mutating methods, as calls with their arguments. *)
Inductive call : Type :=
| Setitem (key : K) (value : val)
| Update (other : option other_arg) (kwargs : list item)
| Setdefault (key : K) (default : val)
| Pop (key : K) (default : val)
| Popitem
| Clear
| Delitem (key : K).

(** What a call leaves behind, and whether it raised. *)
Definition omit {A} (r : outcome A) : outcome unit :=
  match r with Returns _ => Returns tt | Raises e => Raises e end.

Definition run (c : call) (st : od * L) : outcome unit * (od * L) :=
  match c with
  | Setitem key value => __setitem__ key value st
  | Update other kwargs => update other kwargs st
  | Setdefault key default =>
      (omit (setdefault key default st).1, (setdefault key default st).2)
  | Pop key default => (omit (pop key default st).1, (pop key default st).2)
  | Popitem => (omit (popitem st).1, (popitem st).2)
  | Clear => clear st
  | Delitem key => __delitem__ key st
  end.

Definition perform (st : od * L) (c : call) : od * L := (run c st).2.

Definition failed (c : call) (st : od * L) : bool :=
  match (run c st).1 with Raises _ => true | Returns _ => false end.

(** No key occurs twice. *)
Definition dict_wf (dt : dict) : Prop := NoDup dt.*1.

(** No [update] among the calls raises half-way. *)
Fixpoint updates_return (cs : list call) (st : od * L) : bool :=
  match cs with
  | [] => true
  | c :: cs' =>
      match c with
      | Update _ _ => negb (failed c st)
      | _ => true
      end && updates_return cs' (perform st c)
  end.

(** A callback that keeps to itself: it leaves the items of the
    dictionary as they are, installs nothing in its own place, and
    raises nothing but an [Exception].  It may do what it likes with the
    state of the listener. *)
Definition passive (cb : callback) : Prop :=
  match cb with
  | Callback call =>
      ∀ operation its dt l,
        (call operation its (dt, l)).1.2.1 = dt
        ∧ (call operation its (dt, l)).2 = None
        ∧ ∀ e, (call operation its (dt, l)).1.1 = Raises e →
               is_Exception e = true
  end.

(** A dictionary with no callback or with one that keeps to itself. *)
Definition unobtrusive (self : od) : Prop :=
  match _on_change self with
  | Some cb => passive cb
  | None => True
  end.

(** What a call amounts to on given items: it returns or raises without
    a word to the callback, or it changes the items and then notifies. *)
Inductive effect : Type :=
| Silent (r : outcome unit) (after : dict)
| Notifies (after : dict) (operation : string) (its : list item).

(** The pairs of an iterable before its first element that is no pair,
    and whether there is no such element. *)
Fixpoint good_prefix (l : list (option item)) : list item * bool :=
  match l with
  | [] => ([], true)
  | None :: _ => ([], false)
  | Some kv :: rest => (kv :: (good_prefix rest).1, (good_prefix rest).2)
  end.

Definition effect_of (c : call) (dt : dict) : effect :=
  match c with
  | Setitem key value => Notifies (dict_setitem key value dt) "set" [(key, value)]
  | Update other kwargs =>
      let given := match other with
                   | None => ([], true)
                   | Some (Mapping m) => (m, true)
                   | Some (Pairs l) => good_prefix l
                   end in
      if given.2
      then match given.1 ++ kwargs with
           | [] => Silent (Returns tt) dt
           | changed => Notifies (dict_assign changed dt) "update" changed
           end
      else Silent (Raises ValueError) (dict_assign given.1 dt)
  | Setdefault key default =>
      match dict_getitem key dt with
      | Some _ => Silent (Returns tt) dt
      | None => Notifies (dict_setitem key default dt) "setdefault" [(key, default)]
      end
  | Pop key default =>
      match dict_getitem key dt with
      | Some value => Notifies (dict_delitem key dt) "pop" [(key, value)]
      | None =>
          match default with
          | Some _ => Silent (Returns tt) dt
          | None => Silent (Raises KeyError) dt
          end
      end
  | Popitem =>
      match last dt with
      | Some it => Notifies (removelast dt) "popitem" [it]
      | None => Silent (Raises KeyError) dt
      end
  | Clear =>
      match dt with
      | [] => Silent (Returns tt) dt
      | _ => Notifies [] "clear" dt
      end
  | Delitem key =>
      match dict_getitem key dt with
      | Some value => Notifies (dict_delitem key dt) "delitem" [(key, value)]
      | None => Silent (Raises KeyError) dt
      end
  end.

End ObservableDict.

(** *** A listener that keeps what it is told *)

Section recording.
Context {K V : Type} `{EqDecision K}.

Definition event : Type := (string * list (@item K V))%type.

Definition record : @callback K V (list event) :=
  Callback (λ operation items st,
              (Returns tt, (st.1, st.2 ++ [(operation, items)]), None)).

(** A callback that notes the event and is then interrupted. *)
Definition interrupted : @callback K V (list event) :=
  Callback (λ operation items st,
              (Raises KeyboardInterrupt,
               (st.1, st.2 ++ [(operation, items)]), None)).

(** What a listener that mirrors the dictionary does with an event: the
    items of a "set", an "update" or a "setdefault" are assigned, those
    of every other operation are removed. *)
Definition replay (dt : @dict K V) (ev : event) : @dict K V :=
  if bool_decide (ev.1 ∈ ["set"; "update"; "setdefault"])
  then dict_assign ev.2 dt
  else foldl (λ dt kv, dict_delitem kv.1 dt) dt ev.2.

(** The dictionary a mirroring listener has built from [init]. *)
Definition mirror (init : @dict K V) (log : list event) : @dict K V :=
  foldl replay init log.

End recording.

(** A callback that always fails. *)
Definition failing {K V L : Type} : @callback K V L :=
  Callback (λ _ _ st, (Raises (CallbackError "boom"), st, None)).

(** A callback that empties the dictionary it observes:
    [lambda op, items: dict.clear(d)]. *)
Definition clearing {K V L : Type} : @callback K V L :=
  Callback (λ _ _ st, (Returns tt, ([], st.2), None)).

End ObservableDict.

(** * Properties *)

Arguments find_row : simpl never.
Arguments view : simpl never.
Arguments persisted : simpl never.

(** ** The monad *)

Lemma bind_Ok {S A B} (m : M S A) (f : A → M S B) st a st' :
  m st = (Ok a, st') → bind m f st = f a st'.
Proof. unfold bind. by intros ->. Qed.

Lemma bind_Raise {S A B} (m : M S A) (f : A → M S B) st e st' :
  m st = (Raise e, st') → bind m f st = (Raise e, st').
Proof. unfold bind. by intros ->. Qed.

(** ** Process states *)

Lemma world_ext w1 w2 :
  table w1 = table w2 → sequence w1 = sequence w2 →
  statements w1 = statements w2 → heap w1 = heap w2 →
  checked_out w1 = checked_out w2 → pool_log w1 = pool_log w2 →
  stdout w1 = stdout w2 → logger w1 = logger w2 →
  bg_executor w1 = bg_executor w2 → os_cpu_count w1 = os_cpu_count w2 →
  w1 = w2.
Proof. destruct w1, w2; cbn; intros; by subst. Qed.

(** Two states built from the same one by setters: compare field by
    field; what is left are the fields that are not syntactically equal. *)
Ltac world_eq :=
  apply world_ext;
  cbn [table sequence statements heap checked_out pool_log stdout logger
       bg_executor os_cpu_count
       set_table set_sequence set_statements set_heap set_checked_out
       set_pool_log set_stdout set_logger set_bg_executor
       issue checkout checkin];
  try reflexivity.

(** One step of a computation whose first action is known. *)
Ltac mstep tac := erewrite bind_Ok by tac; cbv beta iota; cbn [fst snd].

(** ** Rows and views *)

Lemma view_no_writes d ids w : view d (Session [] ids, w) = table w.
Proof. reflexivity. Qed.

Lemma view_snoc d wr wrt ids w :
  view d (Session (wr ++ [wrt]) ids, w) =
  apply_write d wrt (view d (Session wr ids, w)).
Proof. unfold view; cbn. by rewrite foldl_snoc. Qed.

Lemma view_single d wrt ids w :
  view d (Session [wrt] ids, w) = apply_write d wrt (table w).
Proof. reflexivity. Qed.

Lemma view_identity_irrel d wr ids ids' w :
  view d (Session wr ids, w) = view d (Session wr ids', w).
Proof. reflexivity. Qed.

Lemma find_row_Some d k t r :
  find_row d k t = Some r → r !! model_pk d = Some k ∧ r ∈ t.
Proof.
  unfold find_row. intros H. apply find_some in H as [Hin Hk].
  split; [by apply bool_decide_eq_true_1 in Hk | by apply list_elem_of_In].
Qed.

(** ** The unit of work around a callable *)

Lemma commit_detached d wr w :
  commit d (Session wr [], w) =
  (Ok tt, (new_session, set_table (λ _, view d (Session wr [], w)) w)).
Proof. reflexivity. Qed.

Lemma run_in_session_Ok {A} d (fn : SM A) w a wr w1 :
  (checked_out w < max_connections d)%nat →
  fn (new_session, checkout w) = (Ok a, (Session wr [], w1)) →
  DAO._run_in_session d fn w =
  (Ok a, checkin (set_table (λ _, view d (Session wr [], w1)) w1)).
Proof.
  intros Hp Hfn.
  unfold DAO._run_in_session, DAO.session_scope, get_session, bind, acquire.
  rewrite bool_decide_eq_true_2 by done.
  rewrite Hfn. by rewrite commit_detached.
Qed.

Lemma run_in_session_Raise {A} d (fn : SM A) w e x :
  (checked_out w < max_connections d)%nat →
  fn (new_session, checkout w) = (Raise e, x) →
  DAO._run_in_session d fn w = (Raise e, checkin x.2).
Proof.
  intros Hp Hfn.
  unfold DAO._run_in_session, DAO.session_scope, get_session, bind, acquire.
  rewrite bool_decide_eq_true_2 by done.
  by rewrite Hfn.
Qed.

Lemma run_in_session_exhausted {A} d (fn : SM A) w :
  ¬ (checked_out w < max_connections d)%nat →
  DAO._run_in_session d fn w = (Raise PoolExhausted, w).
Proof.
  intros Hp.
  unfold DAO._run_in_session, DAO.session_scope, get_session, bind, acquire.
  by rewrite bool_decide_eq_false_2.
Qed.

(** ** Session statements on a session that tracks nothing yet *)

Lemma load_row_fresh d r k wr w :
  r !! model_pk d = Some k →
  load_row d r (Session wr [], w) =
  (Ok (length (heap w)),
   (Session wr [(length (heap w), Persistent k)], set_heap (λ h, h ++ [r]) w)).
Proof. intros Hk. unfold load_row. rewrite Hk. reflexivity. Qed.

Lemma session_get_miss d k wr w :
  find_row d k (view d (Session wr [], w)) = None →
  session_get d k (Session wr [], w) = (Ok None, (Session wr [], issue SELECT w)).
Proof.
  intros Hk. unfold session_get, bind, gets, emit, modify; cbn.
  change (view d _) with (view d (Session wr [], w)). by rewrite Hk.
Qed.

Lemma session_get_hit d k r wr w :
  find_row d k (view d (Session wr [], w)) = Some r →
  session_get d k (Session wr [], w) =
  (Ok (Some (length (heap w))),
   (Session wr [(length (heap w), Persistent k)],
    set_heap (λ h, h ++ [r]) (issue SELECT w))).
Proof.
  intros Hk. unfold session_get, bind, gets, emit, modify; cbn.
  change (view d _) with (view d (Session wr [], w)). rewrite Hk.
  apply find_row_Some in Hk as [Hk _].
  by rewrite (load_row_fresh _ _ k).
Qed.

Lemma session_expunge_only o st wr w :
  session_expunge o (Session wr [(o, st)], w) = (Ok tt, (Session wr [], w)).
Proof.
  unfold session_expunge, bind, gets, set_identity, modify; cbn.
  rewrite bool_decide_eq_true_2 by set_solver.
  cbn. by rewrite bool_decide_eq_true_2.
Qed.

(** ** The sample instance *)

Lemma users_world_wf : table_wf user_dao (table users_world).
Proof.
  split; [|apply (bool_decide_unpack _); by vm_compute].
  repeat constructor; try done; apply (bool_decide_unpack _); by vm_compute.
Qed.

Lemma user_dao_configured : well_configured user_dao.
Proof. split; [reflexivity|]. apply (bool_decide_unpack _). by vm_compute. Qed.

Lemma user_dao_pool_free : (checked_out users_world < max_connections user_dao)%nat.
Proof. cbn. lia. Qed.

Lemma session_delete_only o k wr w :
  session_delete o (Session wr [(o, Persistent k)], w) =
  (Ok tt, (Session wr [(o, Deleted k)], w)).
Proof.
  unfold session_delete, bind, gets, identity_state, set_identity, modify; cbn.
  rewrite bool_decide_eq_true_2 by done. reflexivity.
Qed.

Lemma session_flush_deleted d o k wr w :
  session_flush d (Session wr [(o, Deleted k)], w) =
  (Ok tt, (Session (wr ++ [WDelete k]) [], issue DELETE w)).
Proof. reflexivity. Qed.

(** ** [delete] *)

Lemma delete_write_absent d k w :
  find_row d k (table w) = None →
  DAO.delete_write d k (new_session, w) = (Ok false, (new_session, issue SELECT w)).
Proof.
  intros Hk. unfold DAO.delete_write, new_session.
  mstep ltac:(by apply session_get_miss). reflexivity.
Qed.

Lemma delete_write_present d k r w :
  find_row d k (table w) = Some r →
  DAO.delete_write d k (new_session, w) =
  (Ok true, (Session [WDelete k] [],
             issue DELETE (set_heap (λ h, h ++ [r]) (issue SELECT w)))).
Proof.
  intros Hk. unfold DAO.delete_write, new_session.
  mstep ltac:(by eapply session_get_hit).
  mstep ltac:(apply session_delete_only).
  mstep ltac:(apply session_flush_deleted).
  reflexivity.
Qed.

Lemma find_row_filter_out d k t :
  find_row d k (List.filter (λ x, negb (has_key d k x)) t) = None.
Proof.
  unfold find_row. induction t as [|x t IH]; [done|]. cbn.
  destruct (has_key d k x) eqn:E; cbn; [done|]. by rewrite E.
Qed.

Lemma find_row_filter_other d k k' t :
  k' ≠ k →
  find_row d k' (List.filter (λ x, negb (has_key d k x)) t) = find_row d k' t.
Proof.
  intros Hne. unfold find_row. induction t as [|x t IH]; [done|]. cbn.
  destruct (has_key d k x) eqn:E; cbn.
  - destruct (has_key d k' x) eqn:E'; [|done].
    unfold has_key in *. apply bool_decide_eq_true_1 in E, E'. congruence.
  - by rewrite IH.
Qed.

Lemma delete_absent d k w :
  (checked_out w < max_connections d)%nat →
  find_row d k (table w) = None →
  DAO.delete d k w =
  (Ok false, checkin (set_table (λ _, table w) (issue SELECT (checkout w)))).
Proof.
  intros Hp Hk. unfold DAO.delete.
  erewrite run_in_session_Ok; [|done|by apply delete_write_absent].
  reflexivity.
Qed.

Lemma delete_present d k r w :
  (checked_out w < max_connections d)%nat →
  find_row d k (table w) = Some r →
  DAO.delete d k w =
  (Ok true,
   checkin (set_table (λ _, List.filter (λ x, negb (has_key d k x)) (table w))
              (issue DELETE (set_heap (λ h, h ++ [r]) (issue SELECT (checkout w)))))).
Proof.
  intros Hp Hk. unfold DAO.delete.
  erewrite run_in_session_Ok; [|done|by eapply delete_write_present].
  reflexivity.
Qed.

(** C6.  [delete] of a key that is not in the table returns [False]
    without touching the store: the table and the key sequence are as
    before and the only statement issued is a SELECT (no write).  [delete] of a key
    that is in the table returns [True] and the row is gone, all other
    keys being looked up as before; a second [delete] of the same key
    then returns [False] and leaves the table as the first call left
    it. *)
Theorem delete_idempotent (d : dao) (k : value) (w : world) :
  (checked_out w < max_connections d)%nat →
  (find_row d k (table w) = None →
   ∃ w', DAO.delete d k w = (Ok false, w')
         ∧ table w' = table w
         ∧ sequence w' = sequence w
         ∧ statements w' = statements w ++ [SELECT]
         ∧ List.filter is_write (statements w') = List.filter is_write (statements w))
  ∧ (∀ r, find_row d k (table w) = Some r →
     ∃ w1 w2, DAO.delete d k w = (Ok true, w1)
              ∧ table w1 = List.filter (λ x, negb (has_key d k x)) (table w)
              ∧ find_row d k (table w1) = None
              ∧ (∀ k', k' ≠ k → find_row d k' (table w1) = find_row d k' (table w))
              ∧ DAO.delete d k w1 = (Ok false, w2)
              ∧ table w2 = table w1).
Proof.
  intros Hp. split.
  - intros Hk. eexists. split; [by apply delete_absent|].
    split; [done|]. split; [done|]. split; [done|].
    cbn [statements checkin set_pool_log set_checked_out set_table issue
         set_statements checkout].
    rewrite List.filter_app. cbn. by rewrite app_nil_r.
  - intros r Hk. do 2 eexists.
    split; [by eapply delete_present|].
    split; [done|]. cbn.
    split; [apply find_row_filter_out|].
    split; [intros; by apply find_row_filter_other|].
    split.
    + rewrite delete_absent; [done|done|apply find_row_filter_out].
    + reflexivity.
Qed.

Lemma delete_idempotent_witness :
  (checked_out users_world < max_connections user_dao)%nat
  ∧ find_row user_dao (VInt 2) (table users_world) = Some bob
  ∧ find_row user_dao (VInt 8) (table users_world) = None
  ∧ (∃ w', DAO.delete user_dao (VInt 8) users_world = (Ok false, w')
           ∧ table w' = table users_world)
  ∧ (∃ w1 w2, DAO.delete user_dao (VInt 2) users_world = (Ok true, w1)
              ∧ DAO.delete user_dao (VInt 2) w1 = (Ok false, w2)
              ∧ table w2 = [alice; carol]).
Proof.
  split; [exact user_dao_pool_free|]. split; [reflexivity|]. split; [reflexivity|].
  split.
  - destruct (delete_idempotent user_dao (VInt 8) users_world user_dao_pool_free)
      as [H _].
    destruct (H eq_refl) as (w' & Hrun & Ht & _). by exists w'.
  - destruct (delete_idempotent user_dao (VInt 2) users_world user_dao_pool_free)
      as [_ H].
    destruct (H bob eq_refl) as (w1 & w2 & H1 & Ht & _ & _ & H2 & H3).
    exists w1, w2. split; [exact H1|]. split; [exact H2|].
    rewrite H3, Ht. reflexivity.
Defined.

(** ** Loading rows and detaching entities *)

Lemma identity_find_app k ids1 ids2 :
  identity_find k (ids1 ++ ids2) =
  match identity_find k ids1 with
  | Some o => Some o
  | None => identity_find k ids2
  end.
Proof.
  unfold identity_find. induction ids1 as [|e ids1 IH]; [done|]. cbn.
  destruct e as [o [|k'|k']]; cbn; try done; by case_bool_decide.
Qed.

Lemma set_heap_set_heap f g w :
  set_heap f (set_heap g w) = set_heap (λ h, f (g h)) w.
Proof. reflexivity. Qed.

Lemma set_heap_ext f g w : (∀ h, f h = g h) → set_heap f w = set_heap g w.
Proof. intros H. unfold set_heap. by rewrite H. Qed.

Lemma set_heap_id w : set_heap (λ h, h) w = w.
Proof. by destruct w. Qed.

Lemma mapM_load_rows d rows : ∀ ids wr w,
  Forall (λ r, is_Some (r !! model_pk d)) rows →
  NoDup ((λ r, r !! model_pk d) <$> rows) →
  (∀ r k, r ∈ rows → r !! model_pk d = Some k → identity_find k ids = None) →
  ∃ ids', mapM (load_row d) rows (Session wr ids, w) =
          (Ok (seq (length (heap w)) (length rows)),
           (Session wr (ids ++ ids'), set_heap (λ h, h ++ rows) w))
          ∧ ids'.*1 = seq (length (heap w)) (length rows).
Proof.
  induction rows as [|r rows IH]; intros ids wr w Hpk Hnd Hfresh.
  - exists []. cbn. rewrite app_nil_r. split; [|done].
    unfold ret. do 2 f_equal. rewrite <- (set_heap_id w) at 1.
    apply set_heap_ext. intros h. by rewrite app_nil_r.
  - apply Forall_cons in Hpk as [[k Hk] Hpk].
    rewrite fmap_cons in Hnd. apply NoDup_cons in Hnd as [Hnotin Hnd].
    assert (Hload : load_row d r (Session wr ids, w) =
                    (Ok (length (heap w)),
                     (Session wr (ids ++ [(length (heap w), Persistent k)]),
                      set_heap (λ h, h ++ [r]) w))).
    { unfold load_row. rewrite Hk. unfold bind at 1, gets. cbn [fst snd identity].
      rewrite (Hfresh r k); [done|by left|done]. }
    destruct (IH (ids ++ [(length (heap w), Persistent k)]) wr
                 (set_heap (λ h, h ++ [r]) w)) as (ids' & Hrun & Hfst);
      [done|done| |].
    { intros r' k' Hin Hk'. rewrite identity_find_app.
      rewrite (Hfresh r' k'); [|by right|done]. cbn.
      rewrite bool_decide_eq_false_2; [done|].
      intros Heq. apply Hnotin. rewrite Hk. apply list_elem_of_fmap.
      exists r'. split; [by rewrite Hk', Heq|done]. }
    exists ((length (heap w), Persistent k) :: ids').
    cbn [mapM]. mstep ltac:(exact Hload). mstep ltac:(exact Hrun).
    cbn in Hfst |- *. rewrite length_app in Hfst |- *. cbn in Hfst |- *.
    replace (length (heap w) + 1)%nat with (S (length (heap w))) in * by lia.
    split; [|by rewrite Hfst].
    unfold ret. rewrite <- app_assoc, set_heap_set_heap. cbn [app].
    f_equal. f_equal.
    apply set_heap_ext. intros h. by rewrite <- app_assoc.
Qed.

Lemma expunge_all ids : ∀ wr w,
  NoDup ids.*1 →
  forM_ session_expunge ids.*1 (Session wr ids, w) = (Ok tt, (Session wr [], w)).
Proof.
  induction ids as [|[o st] ids IH]; intros wr w Hnd; [done|].
  cbn in Hnd. apply NoDup_cons in Hnd as [Hnotin Hnd].
  cbn [fmap list_fmap forM_ fst].
  assert (Hex : session_expunge o (Session wr ((o, st) :: ids), w) =
                (Ok tt, (Session wr ids, w))).
  { unfold session_expunge, bind, gets, set_identity, modify; cbn.
    rewrite bool_decide_eq_true_2 by set_solver. cbn.
    rewrite bool_decide_eq_true_2 by done. cbn.
    do 3 f_equal.
    clear IH Hnd. induction ids as [|[o' st'] ids IH]; [done|].
    cbn in Hnotin |- *. apply not_elem_of_cons in Hnotin as [Hne Hnotin].
    rewrite bool_decide_eq_false_2 by done. cbn. by rewrite IH. }
  mstep ltac:(exact Hex). by apply IH.
Qed.

Lemma query_all_fresh d q w :
  let rows := select q (table w) in
  Forall (λ r, is_Some (r !! model_pk d)) rows →
  NoDup ((λ r, r !! model_pk d) <$> rows) →
  ∃ ids, query_all d q (new_session, w) =
         (Ok (seq (length (heap w)) (length rows)),
          (Session [] ids, set_heap (λ h, h ++ rows) (issue SELECT w)))
         ∧ ids.*1 = seq (length (heap w)) (length rows).
Proof.
  intros rows Hpk Hnd.
  destruct (mapM_load_rows d rows [] [] (issue SELECT w) Hpk Hnd)
    as (ids & Hrun & Hfst); [done|].
  exists ids. split; [|done].
  unfold query_all.
  mstep ltac:(reflexivity). mstep ltac:(reflexivity).
  exact Hrun.
Qed.

Lemma fetch_detached_fresh d q w :
  let rows := select q (table w) in
  Forall (λ r, is_Some (r !! model_pk d)) rows →
  NoDup ((λ r, r !! model_pk d) <$> rows) →
  fetch_detached d q (new_session, w) =
  (Ok (seq (length (heap w)) (length rows)),
   (new_session, set_heap (λ h, h ++ rows) (issue SELECT w))).
Proof.
  intros rows Hpk Hnd.
  destruct (query_all_fresh d q w Hpk Hnd) as (ids & Hrun & Hfst).
  unfold fetch_detached.
  mstep ltac:(exact Hrun).
  rewrite <- Hfst.
  mstep ltac:(apply expunge_all; rewrite Hfst; apply NoDup_seq).
  by rewrite Hfst.
Qed.

(** ** [list] *)

Lemma table_wf_sublist d t t' :
  t' `sublist_of` t → table_wf d t → table_wf d t'.
Proof.
  intros Hsub [Hpk Hnd]. split.
  - rewrite Forall_forall in Hpk |- *.
    intros r Hin. apply Hpk.
    eapply elem_of_submseteq; [done|by apply sublist_submseteq].
  - eapply sublist_NoDup; [done|by apply fmap_sublist].
Qed.

Lemma entities_loaded h rows w :
  heap w = h ++ rows →
  entities w (seq (length h) (length rows)) = Some <$> rows.
Proof.
  intros Hh. unfold entities. rewrite Hh. apply list_eq. intros i.
  rewrite !list_lookup_fmap.
  destruct (decide (i < length rows)%nat) as [Hlt|Hge].
  - rewrite lookup_seq_lt by done. cbn.
    rewrite lookup_app_r by lia.
    replace (length h + i - length h)%nat with i by lia.
    destruct (lookup_lt_is_Some_2 rows i Hlt) as [r Hr]. by rewrite Hr.
  - rewrite lookup_seq_ge by lia. by rewrite lookup_ge_None_2 by lia.
Qed.

Lemma filter_no_criteria q t :
  q_criteria q = [] → List.filter (row_matches q) t = t.
Proof.
  intros Hq. unfold row_matches. rewrite Hq. cbn.
  induction t as [|r t IH]; [done|]. cbn. by rewrite IH.
Qed.

Lemma select_paginate limit offset t :
  select (paginate limit offset session_query) t =
  (if bool_decide (limit > 0) then take (Z.to_nat limit) else λ l, l)
    ((if bool_decide (offset > 0) then drop (Z.to_nat offset) else λ l, l) t).
Proof.
  unfold select, paginate.
  rewrite filter_no_criteria by (by repeat case_bool_decide).
  by repeat case_bool_decide.
Qed.

Lemma select_paginate_sublist limit offset t :
  select (paginate limit offset session_query) t `sublist_of` t.
Proof.
  rewrite select_paginate.
  repeat case_bool_decide; eauto using sublist_take, sublist_drop.
  etrans; [apply sublist_take|apply sublist_drop].
Qed.

Lemma list_op_unfold d limit offset :
  DAO.list_op d limit offset = fetch_detached d (paginate limit offset session_query).
Proof. reflexivity. Qed.

Lemma list_rows d limit offset w :
  (checked_out w < max_connections d)%nat →
  table_wf d (table w) →
  let rows := select (paginate limit offset session_query) (table w) in
  DAO.list_ d limit offset w =
  (Ok (seq (length (heap w)) (length rows)),
   checkin (set_table (λ _, table w)
              (set_heap (λ h, h ++ rows) (issue SELECT (checkout w))))).
Proof.
  intros Hp Hwf rows. unfold DAO.list_.
  destruct (table_wf_sublist d _ _ (select_paginate_sublist limit offset (table w)) Hwf)
    as [Hpk Hnd].
  eapply Forall_impl in Hpk; [|intros r Hr; exact (proj1 Hr)].
  erewrite run_in_session_Ok; [|done|].
  2:{ rewrite list_op_unfold. apply fetch_detached_fresh; done. }
  reflexivity.
Qed.

(** C7.  [list(limit, offset)] returns, as detached entities, the rows of
    the table in store order: all of them when neither bound is
    positive, without the first [offset] ones when [offset > 0], and no
    more than the first [limit] of what remains when [limit > 0].  The
    table itself is left as it was. *)
Theorem list_pagination (d : dao) (limit offset : Z) (w : world) :
  (checked_out w < max_connections d)%nat →
  table_wf d (table w) →
  ∃ os w' rows,
    DAO.list_ d limit offset w = (Ok os, w')
    ∧ entities w' os = Some <$> rows
    ∧ table w' = table w
    ∧ (limit ≤ 0 → offset ≤ 0 → rows = table w)
    ∧ (limit ≤ 0 → 0 < offset → rows = drop (Z.to_nat offset) (table w))
    ∧ (0 < limit → offset ≤ 0 → rows = take (Z.to_nat limit) (table w))
    ∧ (0 < limit → 0 < offset →
       rows = take (Z.to_nat limit) (drop (Z.to_nat offset) (table w))
       ∧ Z.of_nat (length rows) ≤ limit).
Proof.
  intros Hp Hwf.
  eexists _, _, (select (paginate limit offset session_query) (table w)).
  split; [by apply list_rows|].
  split; [by apply entities_loaded|].
  split; [done|].
  rewrite select_paginate.
  repeat split; intros; repeat case_bool_decide; try lia; try done.
  rewrite length_take. lia.
Qed.

Lemma list_pagination_witness :
  (checked_out users_world < max_connections user_dao)%nat
  ∧ table_wf user_dao (table users_world)
  ∧ (∃ os w', DAO.list_ user_dao 1 1 users_world = (Ok os, w')
              ∧ entities w' os = [Some bob])
  ∧ (∃ os w', DAO.list_ user_dao 0 (-3) users_world = (Ok os, w')
              ∧ entities w' os = [Some alice; Some bob; Some carol]).
Proof.
  split; [exact user_dao_pool_free|]. split; [exact users_world_wf|]. split.
  - destruct (list_pagination user_dao 1 1 users_world
                user_dao_pool_free users_world_wf)
      as (os & w' & rows & Hrun & Hent & _ & _ & _ & _ & Hrows).
    exists os, w'. split; [exact Hrun|].
    destruct Hrows as [-> _]; [lia|lia|]. exact Hent.
  - destruct (list_pagination user_dao 0 (-3) users_world
                user_dao_pool_free users_world_wf)
      as (os & w' & rows & Hrun & Hent & _ & Hrows & _).
    exists os, w'. split; [exact Hrun|].
    rewrite Hrows in Hent by lia. exact Hent.
Defined.

(** ** [get] and [exists] *)

Lemma get_op_miss d k w :
  find_row d k (table w) = None →
  DAO.get_op d k (new_session, w) = (Ok None, (new_session, issue SELECT w)).
Proof.
  intros Hk. unfold DAO.get_op, new_session.
  mstep ltac:(by apply session_get_miss). reflexivity.
Qed.

Lemma get_op_hit d k r w :
  find_row d k (table w) = Some r →
  DAO.get_op d k (new_session, w) =
  (Ok (Some (length (heap w))),
   (new_session, set_heap (λ h, h ++ [r]) (issue SELECT w))).
Proof.
  intros Hk. unfold DAO.get_op, new_session.
  mstep ltac:(by eapply session_get_hit).
  mstep ltac:(apply session_expunge_only). reflexivity.
Qed.

Lemma select_by_key d k t :
  select (query_limit 1 (query_filter (model_pk d, k) session_query)) t =
  match find_row d k t with Some r => [r] | None => [] end.
Proof.
  unfold select, find_row, row_matches; cbn.
  induction t as [|r t IH]; [done|]. cbn.
  fold (has_key d k r). rewrite andb_true_r.
  destruct (has_key d k r); [|done]. by destruct (List.filter _ t).
Qed.

Lemma exists_op_miss d k w :
  well_configured d →
  find_row d k (table w) = None →
  DAO.exists_op d k (new_session, w) = (Ok None, (new_session, issue SELECT w)).
Proof.
  intros [Hname Hcol] Hk. unfold DAO.exists_op, DAO._get_pk_column.
  rewrite Hname, bool_decide_eq_true_2 by done.
  mstep ltac:(reflexivity).
  unfold query_first.
  destruct (query_all_fresh d
              (query_limit 1 (query_filter (model_pk d, k) session_query)) w)
    as (ids & Hrun & Hfst).
  1,2: rewrite select_by_key, Hk; by constructor.
  rewrite select_by_key, Hk in Hrun, Hfst. destruct ids; [|done].
  mstep ltac:(mstep ltac:(exact Hrun); reflexivity).
  unfold ret, new_session. do 2 f_equal.
  rewrite <- (set_heap_id (issue SELECT w)) at 2.
  apply set_heap_ext. intros h. by rewrite app_nil_r.
Qed.


Lemma get_absent d k w :
  (checked_out w < max_connections d)%nat →
  find_row d k (table w) = None →
  DAO.get d k w =
  (Ok None, checkin (set_table (λ _, table w) (issue SELECT (checkout w)))).
Proof.
  intros Hp Hk. unfold DAO.get.
  erewrite run_in_session_Ok; [|done|by apply get_op_miss]. reflexivity.
Qed.

Lemma get_present d k r w :
  (checked_out w < max_connections d)%nat →
  find_row d k (table w) = Some r →
  DAO.get d k w =
  (Ok (Some (length (heap w))),
   checkin (set_table (λ _, table w)
              (set_heap (λ h, h ++ [r]) (issue SELECT (checkout w))))).
Proof.
  intros Hp Hk. unfold DAO.get.
  erewrite run_in_session_Ok; [|done|by eapply get_op_hit]. reflexivity.
Qed.



(** ** Flushing and refreshing a single attached object *)

Lemma set_heap_eq f g w : f (heap w) = g (heap w) → set_heap f w = set_heap g w.
Proof. intros H. unfold set_heap. by rewrite H. Qed.

Lemma session_add_fresh o wr w :
  session_add o (Session wr [], w) = (Ok tt, (Session wr [(o, Pending)], w)).
Proof. reflexivity. Qed.

Lemma session_flush_insert d o a k wr w :
  heap w !! o = Some a →
  a !! model_pk d = Some k →
  find_row d k (view d (Session wr [], w)) = None →
  session_flush d (Session wr [(o, Pending)], w) =
  (Ok tt,
   (Session (wr ++ [WInsert (<[model_pk d := k]> (persisted d a))])
            [(o, Persistent k)],
    set_heap (alter (<[model_pk d := k]>) o) (issue INSERT w))).
Proof.
  intros Ho Hk Hfree. unfold session_flush.
  mstep ltac:(reflexivity). cbn [fst identity flush_all].
  unfold flush_one. cbn [fst snd].
  mstep ltac:(mstep ltac:(
    mstep ltac:(unfold object_attrs; cbn [snd]; rewrite Ho; reflexivity);
    rewrite Hk;
    mstep ltac:(reflexivity); mstep ltac:(reflexivity);
    mstep ltac:(unfold gets; change (view d _) with (view d (Session wr [], w));
                rewrite Hfree; reflexivity);
    mstep ltac:(reflexivity); mstep ltac:(reflexivity); reflexivity);
    mstep ltac:(reflexivity); reflexivity).
  reflexivity.
Qed.

Lemma session_flush_insert_autokey d o a wr w :
  heap w !! o = Some a →
  a !! model_pk d = None →
  find_row d (VInt (sequence w)) (view d (Session wr [], w)) = None →
  session_flush d (Session wr [(o, Pending)], w) =
  (Ok tt,
   (Session (wr ++ [WInsert (<[model_pk d := VInt (sequence w)]> (persisted d a))])
            [(o, Persistent (VInt (sequence w)))],
    set_heap (alter (<[model_pk d := VInt (sequence w)]>) o)
      (issue INSERT (set_sequence (λ n, n + 1) w)))).
Proof.
  intros Ho Hk Hfree. unfold session_flush.
  mstep ltac:(reflexivity). cbn [fst identity flush_all].
  unfold flush_one. cbn [fst snd].
  mstep ltac:(mstep ltac:(
    mstep ltac:(unfold object_attrs; cbn [snd]; rewrite Ho; reflexivity);
    rewrite Hk;
    mstep ltac:(reflexivity); mstep ltac:(reflexivity);
    mstep ltac:(unfold gets; change (view d _) with (view d (Session wr [], w));
                rewrite Hfree; reflexivity);
    mstep ltac:(reflexivity); mstep ltac:(reflexivity); reflexivity);
    mstep ltac:(reflexivity); reflexivity).
  reflexivity.
Qed.

Lemma session_flush_clean d o a k r wr w :
  heap w !! o = Some a →
  find_row d k (view d (Session wr [], w)) = Some r →
  persisted d a ∪ r = r →
  session_flush d (Session wr [(o, Persistent k)], w) =
  (Ok tt, (Session wr [(o, Persistent k)], w)).
Proof.
  intros Ho Hcur Hclean. unfold session_flush.
  mstep ltac:(reflexivity). cbn [fst identity flush_all].
  unfold flush_one. cbn [fst snd].
  mstep ltac:(mstep ltac:(
    mstep ltac:(unfold object_attrs; cbn [snd]; rewrite Ho; reflexivity);
    mstep ltac:(unfold gets; change (view d _) with (view d (Session wr [], w));
                rewrite Hcur; reflexivity);
    rewrite bool_decide_eq_true_2 by done; reflexivity);
    mstep ltac:(reflexivity); reflexivity).
  reflexivity.
Qed.

Lemma session_flush_update d o a k r wr w :
  heap w !! o = Some a →
  find_row d k (view d (Session wr [], w)) = Some r →
  let r' := persisted d a ∪ r in
  let k' := default k (r' !! model_pk d) in
  r' ≠ r →
  (k' ≠ k → find_row d k' (view d (Session wr [], w)) = None) →
  session_flush d (Session wr [(o, Persistent k)], w) =
  (Ok tt, (Session (wr ++ [WUpdate k r']) [(o, Persistent k')], issue UPDATE w)).
Proof.
  intros Ho Hcur r' k' Hdirty Hfree. unfold session_flush.
  assert (Hclash : (if bool_decide (k' = k) then None
                    else find_row d k' (view d (Session wr [], w))) = None)
    by (case_bool_decide; auto).
  mstep ltac:(reflexivity). cbn [fst identity flush_all].
  unfold flush_one. cbn [fst snd].
  mstep ltac:(mstep ltac:(
    mstep ltac:(unfold object_attrs; cbn [snd]; rewrite Ho; reflexivity);
    mstep ltac:(unfold gets; change (view d _) with (view d (Session wr [], w));
                rewrite Hcur; reflexivity);
    fold r'; rewrite bool_decide_eq_false_2 by done;
    mstep ltac:(reflexivity);
    fold k';
    mstep ltac:(unfold gets; change (view d _) with (view d (Session wr [], w));
                rewrite Hclash; reflexivity);
    mstep ltac:(reflexivity); reflexivity);
    mstep ltac:(reflexivity); reflexivity).
  reflexivity.
Qed.

Lemma identity_state_only o st : identity_state o [(o, st)] = Some st.
Proof. unfold identity_state; cbn. by rewrite bool_decide_eq_true_2. Qed.

Lemma session_refresh_only d o k r wr w :
  find_row d k (view d (Session wr [], w)) = Some r →
  session_refresh d o (Session wr [(o, Persistent k)], w) =
  (Ok tt, (Session wr [(o, Persistent k)],
           set_heap (alter (λ a, r ∪ a) o) (issue SELECT w))).
Proof.
  intros Hcur. unfold session_refresh.
  mstep ltac:(reflexivity). cbn [identity]. rewrite identity_state_only.
  mstep ltac:(reflexivity).
  mstep ltac:(unfold gets; change (view d _) with (view d (Session wr [], w));
              rewrite Hcur; reflexivity).
  reflexivity.
Qed.

(** ** Assigning the fields of a mapping *)

Lemma foldl_insert_union (l : list (string * value)) : ∀ a : attrs,
  NoDup l.*1 →
  foldl (λ m kv, <[kv.1 := kv.2]> m) a l = list_to_map l ∪ a.
Proof.
  induction l as [|[c v] l IH]; intros a Hnd; cbn.
  - by rewrite (left_id_L ∅ (∪)).
  - cbn in Hnd. apply NoDup_cons in Hnd as [Hnotin Hnd].
    rewrite IH by done. rewrite <- insert_union_l.
    rewrite <- insert_union_r; [done|].
    by apply not_elem_of_list_to_map_1.
Qed.

Lemma set_fields_run o (f : attrs) s w :
  DAO.set_fields o f (s, w) = (Ok tt, (s, set_heap (alter (λ a, f ∪ a) o) w)).
Proof.
  unfold DAO.set_fields.
  assert (Hgen : ∀ l w,
    forM_ (λ kv : string * value, liftW (setattr o kv.1 kv.2)) l (s, w) =
    (Ok tt, (s, set_heap (alter (λ a, foldl (λ m kv, <[kv.1 := kv.2]> m) a l) o) w))).
  { induction l as [|[c v] l IH]; intros w0.
    - cbn. unfold ret. do 2 f_equal. rewrite <- (set_heap_id w0) at 1.
      apply set_heap_eq. by rewrite list_alter_id.
    - cbn [forM_]. mstep ltac:(reflexivity). rewrite IH. do 2 f_equal.
      cbn [snd fst]. rewrite set_heap_set_heap. apply set_heap_eq.
      by rewrite list_alter_alter_eq. }
  rewrite Hgen. do 2 f_equal. apply set_heap_eq.
  apply list_alter_ext; [|done]. intros a _.
  rewrite foldl_insert_union by apply NoDup_fst_map_to_list.
  by rewrite list_to_map_to_list.
Qed.

(** ** Attribute dictionaries *)

Lemma persisted_lookup d (a : attrs) c :
  persisted d a !! c = if decide (c ∈ columns d) then a !! c else None.
Proof.
  unfold persisted. destruct (a !! c) as [v|] eqn:Ha.
  - case_decide.
    + by apply map_lookup_filter_Some.
    + apply map_lookup_filter_None. right. intros v' Hv'. by cbn.
  - case_decide; apply map_lookup_filter_None; by left.
Qed.

Lemma persisted_id d (a : attrs) : dom a ⊆ columns d → persisted d a = a.
Proof.
  intros Hdom. apply map_eq. intros c. rewrite persisted_lookup.
  case_decide; [done|]. symmetry. apply not_elem_of_dom. set_solver.
Qed.

Lemma persisted_union_absorb d (f r : attrs) :
  persisted d (f ∪ r) ∪ r = persisted d f ∪ r.
Proof.
  apply map_eq. intros c. rewrite !lookup_union, !persisted_lookup, lookup_union.
  case_decide; [|done]. by destruct (f !! c), (r !! c).
Qed.

Lemma refreshed_entity d (f r : attrs) :
  dom r ⊆ columns d → (persisted d f ∪ r) ∪ (f ∪ r) = f ∪ r.
Proof.
  intros Hdom. apply map_eq. intros c.
  rewrite !lookup_union, !persisted_lookup.
  case_decide.
  - by destruct (f !! c), (r !! c).
  - assert (r !! c = None) as -> by (apply not_elem_of_dom; set_solver).
    by destruct (f !! c).
Qed.

Lemma alter_last {A} (g : A → A) (h : list A) (a : A) :
  alter g (length h) (h ++ [a]) = h ++ [g a].
Proof.
  replace (length h) with (length h + 0)%nat by lia. by rewrite alter_app_r.
Qed.

Lemma find_row_app d k t r :
  find_row d k t = None → r !! model_pk d = Some k → find_row d k (t ++ [r]) = Some r.
Proof.
  unfold find_row. intros Hnone Hk. induction t as [|x t IH]; cbn in *.
  - unfold has_key. by rewrite bool_decide_eq_true_2.
  - destruct (has_key d k x); [done|]. by apply IH.
Qed.

Lemma find_row_replace d k k' t r r' :
  find_row d k t = Some r →
  r' !! model_pk d = Some k' →
  (k' ≠ k → find_row d k' t = None) →
  find_row d k' (map (λ x, if has_key d k x then r' else x) t) = Some r'.
Proof.
  unfold find_row. intros Hk Hk' Hfree. induction t as [|x t IH]; [done|].
  cbn in *. destruct (has_key d k x) eqn:Ex.
  - unfold has_key at 1. by rewrite bool_decide_eq_true_2.
  - destruct (has_key d k' x) eqn:Ex'.
    + destruct (decide (k' = k)) as [->|Hne]; [congruence|].
      by specialize (Hfree Hne).
    + apply IH; [done|]. intros Hne. by specialize (Hfree Hne).
Qed.

(** ** [upsert] *)

Lemma upsert_write_insert d k (f : attrs) w :
  well_configured d →
  find_row d k (table w) = None →
  dom f ⊆ columns d →
  (∀ k', f !! model_pk d = Some k' → find_row d k' (table w) = None) →
  let row := f ∪ {[model_pk d := k]} in
  DAO.upsert_write d k f (new_session, w) =
  (Ok (length (heap w)),
   (Session [WInsert row] [],
    set_heap (λ h, h ++ [row]) (issue SELECT (issue INSERT (issue SELECT w))))).
Proof.
  intros [Hname Hcol] Hk Hdom Hfree row.
  assert (Hrowdom : dom row ⊆ columns d).
  { unfold row. rewrite dom_union_L, dom_singleton_L.
    apply union_subseteq. split; [done|]. by apply singleton_subseteq_l. }
  assert (∃ k', row !! model_pk d = Some k' ∧ find_row d k' (table w) = None)
    as (k' & Hk' & Hfree').
  { unfold row. destruct (f !! model_pk d) as [v|] eqn:Hf.
    - exists v. split; [|by apply Hfree]. by apply lookup_union_Some_l.
    - exists k. split; [|done]. rewrite lookup_union_r by done.
      by rewrite lookup_singleton_eq. }
  unfold DAO.upsert_write, new_session. rewrite Hname. fold row.
  mstep ltac:(by apply session_get_miss).
  mstep ltac:(unfold model_new; rewrite bool_decide_eq_true_2 by done; reflexivity).
  mstep ltac:(apply session_add_fresh).
  mstep ltac:(eapply (session_flush_insert d _ row k');
              [by apply list_lookup_middle|done|done]).
  rewrite persisted_id, insert_id by done. cbn [app].
  mstep ltac:(eapply (session_refresh_only d _ k' row);
              rewrite view_single; cbn [apply_write];
              by apply find_row_app).
  mstep ltac:(apply session_expunge_only).
  unfold ret. do 2 f_equal. world_eq.
  rewrite !alter_last. rewrite insert_id by done.
  by rewrite (idemp_L (∪)).
Qed.

(** The common part of [update] and of the update path of [upsert]:
    assign the fields to the loaded object, flush, refresh, expunge. *)
Lemma update_tail {A} d k (f r : attrs) w (x : A) :
  model_pk d ∈ columns d →
  find_row d k (table w) = Some r →
  dom r ⊆ columns d →
  (∀ k', f !! model_pk d = Some k' → k' ≠ k → find_row d k' (table w) = None) →
  let o := length (heap w) in
  let r' := persisted d f ∪ r in
  ∃ wr sts,
    (let* _ := DAO.set_fields o f in
     let* _ := session_flush d in
     let* _ := session_refresh d o in
     let* _ := session_expunge o in
     ret x)
      (Session [] [(o, Persistent k)], set_heap (λ h, h ++ [r]) (issue SELECT w)) =
    (Ok x, (Session wr [],
            set_heap (λ h, h ++ [f ∪ r]) (set_statements (λ l, l ++ sts) w)))
    ∧ (wr = [] ∧ r' = r ∧ sts = [SELECT; SELECT]
       ∨ wr = [WUpdate k r'] ∧ r' ≠ r ∧ sts = [SELECT; UPDATE; SELECT]).
Proof.
  intros Hcol Hk Hdom Hfree o r'.
  destruct (find_row_Some _ _ _ _ Hk) as [Hpk _].
  mstep ltac:(apply set_fields_run).
  set (w1 := set_heap (alter (λ a, f ∪ a) o) (set_heap (λ h, h ++ [r]) (issue SELECT w))).
  assert (Ho : heap w1 !! o = Some (f ∪ r)).
  { unfold w1, o. cbn [heap set_heap issue set_statements].
    rewrite alter_last. by apply list_lookup_middle. }
  assert (Hview : ∀ ids, view d (Session [] ids, w1) = table w) by done.
  destruct (decide (r' = r)) as [Hclean|Hdirty].
  - exists [], [SELECT; SELECT]. split; [|by left].
    mstep ltac:(eapply (session_flush_clean d o (f ∪ r) k r);
                [done|by rewrite Hview|by rewrite persisted_union_absorb]).
    mstep ltac:(eapply (session_refresh_only d o k r); by rewrite Hview).
    mstep ltac:(apply session_expunge_only).
    unfold ret. do 2 f_equal. unfold w1, o. world_eq.
    + by rewrite <- app_assoc.
    + rewrite !alter_last. f_equal. f_equal.
      rewrite <- Hclean at 1. by apply refreshed_entity.
  - exists [WUpdate k r'], [SELECT; UPDATE; SELECT]. split; [|by right].
    assert (∃ k'', r' !! model_pk d = Some k''
                   ∧ (k'' ≠ k → find_row d k'' (table w) = None))
      as (k'' & Hk'' & Hfree'').
    { unfold r'. rewrite lookup_union, persisted_lookup, decide_True by done.
      destruct (f !! model_pk d) as [v|] eqn:Hf.
      - exists v. rewrite Hpk. split; [done|]. by apply Hfree.
      - exists k. rewrite Hpk. by split. }
    mstep ltac:(eapply (session_flush_update d o (f ∪ r) k r);
                [done|by rewrite Hview|
                 by rewrite persisted_union_absorb|
                 rewrite persisted_union_absorb; fold r'; rewrite Hk''; cbn;
                 by rewrite Hview]).
    rewrite persisted_union_absorb. fold r'. rewrite Hk''. cbn [default app].
    mstep ltac:(eapply (session_refresh_only d o k'' r');
                rewrite view_single; cbn [apply_write table issue set_statements];
                change (table w1) with (table w);
                by eapply find_row_replace).
    mstep ltac:(apply session_expunge_only).
    unfold ret. do 2 f_equal. unfold w1, o. world_eq.
    + by rewrite <- !app_assoc.
    + rewrite !alter_last. f_equal. f_equal. by apply refreshed_entity.
Qed.

Lemma table_wf_key_inj d t r1 r2 :
  table_wf d t → r1 ∈ t → r2 ∈ t →
  r1 !! model_pk d = r2 !! model_pk d → r1 = r2.
Proof.
  intros [_ Hnd] [i Hi]%list_elem_of_lookup [j Hj]%list_elem_of_lookup Heq.
  assert (i = j) as ->; [|congruence].
  eapply NoDup_lookup; [exact Hnd| |].
  - rewrite list_lookup_fmap, Hi. reflexivity.
  - rewrite list_lookup_fmap, Hj. cbn. by rewrite Heq.
Qed.

Lemma replace_row_id d k t r :
  table_wf d t → find_row d k t = Some r →
  map (λ x, if has_key d k x then r else x) t = t.
Proof.
  intros Hwf Hk. destruct (find_row_Some _ _ _ _ Hk) as [Hpk Hin].
  rewrite <- (map_id t) at 2. apply map_ext_in. intros x Hx.
  destruct (has_key d k x) eqn:Ex; [|done].
  apply bool_decide_eq_true_1 in Ex.
  eapply table_wf_key_inj; [done|done|by apply list_elem_of_In|congruence].
Qed.

Lemma table_wf_row d t r :
  table_wf d t → r ∈ t → is_Some (r !! model_pk d) ∧ dom r ⊆ columns d.
Proof. intros [Hall _] Hin. rewrite Forall_forall in Hall. by apply Hall. Qed.

Lemma upsert_write_update d k (f r : attrs) w :
  model_pk d ∈ columns d →
  find_row d k (table w) = Some r →
  dom r ⊆ columns d →
  (∀ k', f !! model_pk d = Some k' → k' ≠ k → find_row d k' (table w) = None) →
  let r' := persisted d f ∪ r in
  ∃ wr sts,
    DAO.upsert_write d k f (new_session, w) =
    (Ok (length (heap w)),
     (Session wr [],
      set_heap (λ h, h ++ [f ∪ r]) (set_statements (λ l, l ++ sts) w)))
    ∧ (wr = [] ∧ r' = r ∧ sts = [SELECT; SELECT]
       ∨ wr = [WUpdate k r'] ∧ r' ≠ r ∧ sts = [SELECT; UPDATE; SELECT]).
Proof.
  intros Hcol Hk Hdom Hfree r'.
  destruct (update_tail d k f r w (length (heap w)) Hcol Hk Hdom Hfree)
    as (wr & sts & Hrun & Hcases).
  exists wr, sts. split; [|done].
  unfold DAO.upsert_write, new_session.
  mstep ltac:(by eapply session_get_hit). exact Hrun.
Qed.

Lemma update_write_present d k (f r : attrs) w :
  model_pk d ∈ columns d →
  find_row d k (table w) = Some r →
  dom r ⊆ columns d →
  (∀ k', f !! model_pk d = Some k' → k' ≠ k → find_row d k' (table w) = None) →
  let r' := persisted d f ∪ r in
  ∃ wr sts,
    DAO.update_write d k f (new_session, w) =
    (Ok (Some (length (heap w))),
     (Session wr [],
      set_heap (λ h, h ++ [f ∪ r]) (set_statements (λ l, l ++ sts) w)))
    ∧ (wr = [] ∧ r' = r ∧ sts = [SELECT; SELECT]
       ∨ wr = [WUpdate k r'] ∧ r' ≠ r ∧ sts = [SELECT; UPDATE; SELECT]).
Proof.
  intros Hcol Hk Hdom Hfree r'.
  destruct (update_tail d k f r w (Some (length (heap w))) Hcol Hk Hdom Hfree)
    as (wr & sts & Hrun & Hcases).
  exists wr, sts. split; [|done].
  unfold DAO.update_write, new_session.
  mstep ltac:(by eapply session_get_hit). exact Hrun.
Qed.

Lemma update_write_absent d k (f : attrs) w :
  find_row d k (table w) = None →
  DAO.update_write d k f (new_session, w) =
  (Ok None, (new_session, issue SELECT w)).
Proof.
  intros Hk. unfold DAO.update_write, new_session.
  mstep ltac:(by apply session_get_miss). reflexivity.
Qed.

Lemma not_attached_nil o wr : ¬ attached o (Session wr []).
Proof. unfold attached. cbn. apply not_elem_of_nil. Qed.

Lemma find_row_app_other d k t r :
  find_row d k t = None → r !! model_pk d ≠ Some k → find_row d k (t ++ [r]) = None.
Proof.
  unfold find_row. intros Hnone Hk. induction t as [|x t IH]; cbn in *.
  - unfold has_key. by rewrite bool_decide_eq_false_2.
  - destruct (has_key d k x); [done|]. by apply IH.
Qed.

Lemma upsert_inserts d k (f : attrs) w :
  well_configured d →
  (checked_out w < max_connections d)%nat →
  find_row d k (table w) = None →
  dom f ⊆ columns d →
  (∀ k', f !! model_pk d = Some k' → find_row d k' (table w) = None) →
  let row := f ∪ {[model_pk d := k]} in
  DAO.upsert d k f w =
  (Ok (length (heap w)),
   checkin (set_table (λ _, table w ++ [row])
              (set_heap (λ h, h ++ [row])
                 (issue SELECT (issue INSERT (issue SELECT (checkout w))))))).
Proof.
  intros Hd Hp Hk Hdom Hfree row.
  pose proof (upsert_write_insert d k f (checkout w) Hd Hk Hdom Hfree) as Hrun.
  cbv zeta in Hrun.
  unfold DAO.upsert. rewrite (run_in_session_Ok d _ w _ _ _ Hp Hrun). reflexivity.
Qed.

Lemma upsert_updates d k (f r : attrs) w :
  well_configured d →
  (checked_out w < max_connections d)%nat →
  table_wf d (table w) →
  find_row d k (table w) = Some r →
  (∀ k', f !! model_pk d = Some k' → k' ≠ k → find_row d k' (table w) = None) →
  ∃ w', DAO.upsert d k f w = (Ok (length (heap w)), w')
        ∧ heap w' = heap w ++ [f ∪ r]
        ∧ table w' = map (λ y, if has_key d k y then persisted d f ∪ r else y) (table w)
        ∧ sequence w' = sequence w.
Proof.
  intros [_ Hcol] Hp Hwf Hk Hfree.
  destruct (find_row_Some _ _ _ _ Hk) as [Hpk Hin].
  destruct (table_wf_row _ _ _ Hwf Hin) as [_ Hdom].
  destruct (upsert_write_update d k f r (checkout w) Hcol Hk Hdom Hfree)
    as (wr & sts & Hrun & Hcases).
  eexists. split.
  { unfold DAO.upsert. erewrite run_in_session_Ok; [reflexivity|done|exact Hrun]. }
  split; [done|]. split; [|done].
  cbn [table checkin set_pool_log set_checked_out set_table].
  destruct Hcases as [(-> & Heq & _)|(-> & _ & _)].
  - rewrite view_no_writes, Heq. cbn. symmetry. by apply replace_row_id.
  - by rewrite view_single.
Qed.


(** ** [create]

    Unlike [upsert], [create] without a key takes the key from the
    sequence of the store. *)
Lemma create_autogenerates_key d (f : attrs) w :
  well_configured d →
  (checked_out w < max_connections d)%nat →
  dom f ⊆ columns d →
  f !! model_pk d = None →
  find_row d (VInt (sequence w)) (table w) = None →
  let row := <[model_pk d := VInt (sequence w)]> f in
  DAO.create d f w =
  (Ok (length (heap w)),
   checkin (set_table (λ _, table w ++ [row])
              (set_heap (λ h, h ++ [row])
                 (issue SELECT (issue INSERT
                    (set_sequence (λ n, n + 1) (checkout w))))))).
Proof.
  intros [_ Hcol] Hp Hdom Hnokey Hfree row.
  assert (Hrun : DAO.create_write d f (new_session, checkout w) =
    (Ok (length (heap w)),
     (Session [WInsert row] [],
      set_heap (λ h, h ++ [row])
        (issue SELECT (issue INSERT (set_sequence (λ n, n + 1) (checkout w))))))).
  { unfold DAO.create_write, new_session.
    mstep ltac:(unfold model_new; rewrite bool_decide_eq_true_2 by done; reflexivity).
    mstep ltac:(apply session_add_fresh).
    mstep ltac:(eapply (session_flush_insert_autokey d _ f);
                [by apply list_lookup_middle|done|done]).
    rewrite persisted_id by done. cbn [app sequence checkout set_pool_log set_checked_out].
    fold row.
    mstep ltac:(eapply (session_refresh_only d _ (VInt (sequence w)) row);
                rewrite view_single; cbn [apply_write];
                apply find_row_app; [done|by apply lookup_insert_eq]).
    mstep ltac:(apply session_expunge_only).
    unfold ret. do 2 f_equal. world_eq.
    rewrite !alter_last. by rewrite (idemp_L (∪)). }
  unfold DAO.create. rewrite (run_in_session_Ok d _ w _ _ _ Hp Hrun). reflexivity.
Qed.

(** ** Detachment *)

Lemma bind_inv_Ok {S A B} (m : M S A) (f : A → M S B) st b st' :
  bind m f st = (Ok b, st') →
  ∃ a st1, m st = (Ok a, st1) ∧ f a st1 = (Ok b, st').
Proof.
  unfold bind. destruct (m st) as [[a|e] st1]; [eauto|done].
Qed.

Lemma ret_inv {S A} (a b : A) (st st' : S) :
  ret a st = (Ok b, st') → a = b ∧ st = st'.
Proof. unfold ret. by intros [= -> ->]. Qed.

Lemma session_expunge_inv o x x' :
  session_expunge o x = (Ok tt, x') →
  ¬ attached o x'.1 ∧ (∀ o', attached o' x'.1 → attached o' x.1).
Proof.
  unfold session_expunge, bind, gets, set_identity, modify, attached.
  case_bool_decide; [|done]. intros [= <-]. cbn [fst identity]. split.
  - intros Hin. apply list_elem_of_fmap in Hin as ([o1 st] & -> & Hin).
    apply list_elem_of_In, filter_In in Hin as [_ Hne]. cbn in Hne.
    by rewrite bool_decide_eq_true_2 in Hne.
  - intros o' Hin. apply list_elem_of_fmap in Hin as (e & -> & Hin).
    apply list_elem_of_In, filter_In in Hin as [Hin _].
    apply list_elem_of_fmap. exists e. split; [done|by apply list_elem_of_In].
Qed.

Lemma expunge_then_ret {A} o (a : A) x b x' :
  (let* _ := session_expunge o in ret a) x = (Ok b, x') →
  a = b ∧ ¬ attached o x'.1.
Proof.
  intros ([] & x1 & Hex & Hret)%bind_inv_Ok.
  apply ret_inv in Hret as [-> ->].
  split; [done|]. by apply session_expunge_inv in Hex as [? _].
Qed.

Lemma forM_expunge_inv os : ∀ x x',
  forM_ session_expunge os x = (Ok tt, x') →
  (∀ o, o ∈ os → ¬ attached o x'.1)
  ∧ (∀ o', attached o' x'.1 → attached o' x.1).
Proof.
  induction os as [|o os IH]; intros x x' Hrun.
  - apply ret_inv in Hrun as [_ ->]. split; [|done].
    intros o Hin. by apply elem_of_nil in Hin.
  - cbn [forM_] in Hrun.
    apply bind_inv_Ok in Hrun as ([] & x1 & Hex & Hrest).
    apply session_expunge_inv in Hex as [Hgone Hmono1].
    apply IH in Hrest as [Hall Hmono2]. split.
    + intros o' [->|Hin]%elem_of_cons; [|by apply Hall].
      intros Hat. by apply Hgone, Hmono2.
    + intros o' Hat. by apply Hmono1, Hmono2.
Qed.

Lemma get_op_detached d k x o x' :
  DAO.get_op d k x = (Ok (Some o), x') → ¬ attached o x'.1.
Proof.
  unfold DAO.get_op. intros ([o'|] & x1 & _ & Hrest)%bind_inv_Ok.
  - apply expunge_then_ret in Hrest as [[= ->] Hgone]. done.
  - by apply ret_inv in Hrest as [? _].
Qed.

Lemma fetch_detached_detached d q x os x' :
  fetch_detached d q x = (Ok os, x') → ∀ o, o ∈ os → ¬ attached o x'.1.
Proof.
  unfold fetch_detached.
  intros (rows & x1 & _ & ([] & x2 & Hex & Hret)%bind_inv_Ok)%bind_inv_Ok.
  apply ret_inv in Hret as [-> ->].
  by apply forM_expunge_inv in Hex as [Hall _].
Qed.

Lemma list_op_detached d limit offset x os x' :
  DAO.list_op d limit offset x = (Ok os, x') → ∀ o, o ∈ os → ¬ attached o x'.1.
Proof. rewrite list_op_unfold. apply fetch_detached_detached. Qed.

Lemma create_write_detached d f x o x' :
  DAO.create_write d f x = (Ok o, x') → ¬ attached o x'.1.
Proof.
  unfold DAO.create_write.
  intros (row & x1 & _ & ([] & x2 & _ & ([] & x3 & _ & ([] & x4 & _ & Hrest)
    %bind_inv_Ok)%bind_inv_Ok)%bind_inv_Ok)%bind_inv_Ok.
  by apply expunge_then_ret in Hrest as [-> Hgone].
Qed.

Lemma update_write_detached d k f x o x' :
  DAO.update_write d k f x = (Ok (Some o), x') → ¬ attached o x'.1.
Proof.
  unfold DAO.update_write. intros ([o'|] & x1 & _ & Hrest)%bind_inv_Ok.
  - apply bind_inv_Ok in Hrest as ([] & x2 & _ & ([] & x3 & _ & ([] & x4 & _ & Hrest)
      %bind_inv_Ok)%bind_inv_Ok).
    by apply expunge_then_ret in Hrest as [[= ->] Hgone].
  - by apply ret_inv in Hrest as [? _].
Qed.

Lemma upsert_write_detached d k f x o x' :
  DAO.upsert_write d k f x = (Ok o, x') → ¬ attached o x'.1.
Proof.
  unfold DAO.upsert_write. intros ([o'|] & x1 & _ & Hrest)%bind_inv_Ok.
  - apply bind_inv_Ok in Hrest as ([] & x2 & _ & ([] & x3 & _ & ([] & x4 & _ & Hrest)
      %bind_inv_Ok)%bind_inv_Ok).
    by apply expunge_then_ret in Hrest as [-> Hgone].
  - apply bind_inv_Ok in Hrest as (row & x2 & _ & ([] & x3 & _ & ([] & x4 & _ &
      ([] & x5 & _ & Hrest)%bind_inv_Ok)%bind_inv_Ok)%bind_inv_Ok).
    by apply expunge_then_ret in Hrest as [-> Hgone].
Qed.

Lemma observe_get_mutate d k o key v w :
  observe_get d k (mutate o key v w) = observe_get d k w.
Proof.
  unfold observe_get.
  destruct (decide (checked_out w < max_connections d)%nat) as [Hp|Hp].
  - destruct (find_row d k (table w)) as [r|] eqn:Hk.
    + rewrite (get_present d k r (mutate o key v w)), (get_present d k r w) by done.
      cbn [table heap checkin checkout issue set_table set_heap set_pool_log
           set_checked_out set_statements mutate setattr modify snd].
      rewrite length_alter. f_equal.
      rewrite !list_lookup_middle by (by rewrite ?length_alter). done.
    + by rewrite (get_absent d k (mutate o key v w)), (get_absent d k w).
  - unfold DAO.get. by rewrite !run_in_session_exhausted.
Qed.

Lemma run_in_session_inv_Ok {A} d (fn : SM A) w a w' :
  DAO._run_in_session d fn w = (Ok a, w') →
  ∃ x, fn (new_session, checkout w) = (Ok a, x).
Proof.
  unfold DAO._run_in_session, DAO.session_scope, get_session, bind at 1, acquire.
  case_bool_decide; [|done]. unfold bind at 1.
  destruct (fn (new_session, checkout w)) as [[a'|e] x]; [|done].
  unfold bind at 1. destruct (commit d x) as [[[]|e] x']; [|done].
  intros [= -> _]. by exists x.
Qed.

(** C5.  An entity returned by [get], [list], [create], [update] or
    [upsert] was returned by the callable of that method run in a new
    session, and at that point the session no longer tracks it: it is
    detached before it is returned.  Whatever attribute the caller then
    sets on any entity, a following [get] of any key hands out the same
    attributes and leaves the same table as it would have without the
    assignment. *)
Theorem returned_entities_detached (d : dao) (w : world) :
  (∀ k o w', DAO.get d k w = (Ok (Some o), w') →
     ∃ x, DAO.get_op d k (new_session, checkout w) = (Ok (Some o), x)
          ∧ ¬ attached o x.1)
  ∧ (∀ limit offset os w', DAO.list_ d limit offset w = (Ok os, w') →
     ∃ x, DAO.list_op d limit offset (new_session, checkout w) = (Ok os, x)
          ∧ ∀ o, o ∈ os → ¬ attached o x.1)
  ∧ (∀ f o w', DAO.create d f w = (Ok o, w') →
     ∃ x, DAO.create_write d f (new_session, checkout w) = (Ok o, x)
          ∧ ¬ attached o x.1)
  ∧ (∀ k f o w', DAO.update d k f w = (Ok (Some o), w') →
     ∃ x, DAO.update_write d k f (new_session, checkout w) = (Ok (Some o), x)
          ∧ ¬ attached o x.1)
  ∧ (∀ k f o w', DAO.upsert d k f w = (Ok o, w') →
     ∃ x, DAO.upsert_write d k f (new_session, checkout w) = (Ok o, x)
          ∧ ¬ attached o x.1)
  ∧ (∀ k o key v, observe_get d k (mutate o key v w) = observe_get d k w).
Proof.
  repeat split.
  - intros k o w' [x Hx]%run_in_session_inv_Ok. exists x.
    split; [done|]. by eapply get_op_detached.
  - intros limit offset os w' [x Hx]%run_in_session_inv_Ok. exists x.
    split; [done|]. by eapply list_op_detached.
  - intros f o w' [x Hx]%run_in_session_inv_Ok. exists x.
    split; [done|]. by eapply create_write_detached.
  - intros k f o w' [x Hx]%run_in_session_inv_Ok. exists x.
    split; [done|]. by eapply update_write_detached.
  - intros k f o w' [x Hx]%run_in_session_inv_Ok. exists x.
    split; [done|]. by eapply upsert_write_detached.
  - intros. apply observe_get_mutate.
Qed.

Lemma returned_entities_detached_witness :
  ∃ o w' x,
    DAO.get user_dao (VInt 2) users_world = (Ok (Some o), w')
    ∧ DAO.get_op user_dao (VInt 2) (new_session, checkout users_world)
      = (Ok (Some o), x)
    ∧ ¬ attached o x.1
    ∧ observe_get user_dao (VInt 2) (mutate o "name" (VStr "mallory") w')
      = observe_get user_dao (VInt 2) w'.
Proof.
  pose proof (get_present user_dao (VInt 2) bob users_world
                user_dao_pool_free eq_refl) as Hrun.
  destruct (returned_entities_detached user_dao users_world)
    as (Hget & _).
  destruct (Hget _ _ _ Hrun) as (x & Hx & Hdet).
  do 3 eexists. split; [exact Hrun|]. split; [exact Hx|]. split; [exact Hdet|].
  apply returned_entities_detached.
Defined.

(** ** What a callable running in a session leaves alone *)

Lemma sl_ret {A} (a : A) : session_local (ret a).
Proof. by intros x. Qed.

Lemma sl_raise {A} e : session_local (@raise _ A e).
Proof. by intros x. Qed.

Lemma sl_gets {A} (f : session * world → A) : session_local (gets f).
Proof. by intros x. Qed.

Lemma sl_modify f : (∀ x, env (f x).2 = env x.2) → session_local (modify f).
Proof. intros H x. apply H. Qed.

Lemma sl_bind {A B} (m : SM A) (f : A → SM B) :
  session_local m → (∀ a, session_local (f a)) → session_local (bind m f).
Proof.
  intros Hm Hf x. unfold bind. specialize (Hm x).
  destruct (m x) as [[a|e] x1]; [|done].
  rewrite <- Hm. apply Hf.
Qed.

Lemma sl_mapM {A B} (f : A → SM B) l :
  (∀ a, session_local (f a)) → session_local (mapM f l).
Proof.
  intros Hf. induction l as [|a l IH]; cbn [mapM]; [apply sl_ret|].
  apply sl_bind; [done|]. intros b. apply sl_bind; [done|]. intros bs. apply sl_ret.
Qed.

Lemma sl_forM_ {A} (f : A → SM unit) l :
  (∀ a, session_local (f a)) → session_local (forM_ f l).
Proof.
  intros Hf. induction l as [|a l IH]; cbn [forM_]; [apply sl_ret|].
  apply sl_bind; [done|]. by intros _.
Qed.

Lemma sl_setattr o key v : session_local (liftW (setattr o key v)).
Proof. by intros x. Qed.

Lemma sl_alloc a : session_local (alloc a).
Proof. by intros x. Qed.

Lemma sl_object_attrs o : session_local (object_attrs o).
Proof. intros x. unfold object_attrs. by destruct (heap x.2 !! o). Qed.

Lemma sl_next_key : session_local next_key.
Proof. by intros x. Qed.

Create HintDb sl discriminated.

#[local] Hint Resolve sl_ret sl_raise sl_gets sl_setattr sl_alloc
  sl_object_attrs sl_next_key : sl.

(** Decompose a callable along its binds and case distinctions. *)
Ltac sl_step :=
  match goal with
  | |- session_local (bind _ _) => apply sl_bind; [|intros ?]
  | |- session_local (mapM _ _) => apply sl_mapM; intros ?
  | |- session_local (forM_ _ _) => apply sl_forM_; intros ?
  | |- session_local (modify _) => apply sl_modify; by intros ?
  | |- session_local (match ?t with _ => _ end) => destruct t
  | |- session_local _ => solve [auto with sl | by intros ?]
  end.

Ltac sl := repeat sl_step.

Lemma sl_emit q : session_local (emit q).
Proof. unfold emit. sl. Qed.
Lemma sl_add_write wr : session_local (add_write wr).
Proof. unfold add_write. sl. Qed.
Lemma sl_set_identity ids : session_local (set_identity ids).
Proof. unfold set_identity. sl. Qed.
Lemma sl_attach o st : session_local (attach o st).
Proof. unfold attach. sl. Qed.
#[local] Hint Resolve sl_emit sl_add_write sl_set_identity sl_attach : sl.

Lemma sl_load_row d r : session_local (load_row d r).
Proof. unfold load_row. sl. Qed.
#[local] Hint Resolve sl_load_row : sl.

Lemma sl_session_get d k : session_local (session_get d k).
Proof. unfold session_get. sl. Qed.

Lemma sl_query_filter_by d f q : session_local (query_filter_by d f q).
Proof. unfold query_filter_by. sl. Qed.

Lemma sl_query_all d q : session_local (query_all d q).
Proof. unfold query_all. sl. Qed.
#[local] Hint Resolve sl_session_get sl_query_filter_by sl_query_all : sl.

Lemma sl_query_first d q : session_local (query_first d q).
Proof. unfold query_first. sl. Qed.

Lemma sl_session_expunge o : session_local (session_expunge o).
Proof. unfold session_expunge. sl. Qed.
#[local] Hint Resolve sl_query_first sl_session_expunge : sl.

Lemma sl_session_add o : session_local (session_add o).
Proof. unfold session_add. sl. Qed.

Lemma sl_session_delete o : session_local (session_delete o).
Proof. unfold session_delete. sl. Qed.

Lemma sl_flush_one d e : session_local (flush_one d e).
Proof. unfold flush_one. sl. Qed.
#[local] Hint Resolve sl_session_add sl_session_delete sl_flush_one : sl.

Lemma sl_flush_all d ids : session_local (flush_all d ids).
Proof. induction ids as [|e ids IH]; cbn [flush_all]; sl. Qed.
#[local] Hint Resolve sl_flush_all : sl.

Lemma sl_session_flush d : session_local (session_flush d).
Proof. unfold session_flush. sl. Qed.

Lemma sl_session_refresh d o : session_local (session_refresh d o).
Proof.
  unfold session_refresh. sl.
Qed.

Lemma sl_model_new d f : session_local (model_new d f).
Proof. unfold model_new. sl. Qed.

Lemma sl_get_pk_column d : session_local (DAO._get_pk_column d).
Proof. unfold DAO._get_pk_column. sl. Qed.

Lemma sl_set_fields o f : session_local (DAO.set_fields o f).
Proof. unfold DAO.set_fields. sl. Qed.
#[local] Hint Resolve sl_session_flush sl_session_refresh sl_model_new
  sl_get_pk_column sl_set_fields : sl.

Lemma sl_fetch_detached d q : session_local (fetch_detached d q).
Proof. unfold fetch_detached. sl. Qed.
#[local] Hint Resolve sl_fetch_detached : sl.

Lemma sl_get_op d k : session_local (DAO.get_op d k).
Proof. unfold DAO.get_op. sl. Qed.
Lemma sl_list_op d limit offset : session_local (DAO.list_op d limit offset).
Proof. rewrite list_op_unfold. sl. Qed.
Lemma sl_list_by_op d limit offset f : session_local (DAO.list_by_op d limit offset f).
Proof. unfold DAO.list_by_op. cbv zeta. sl. Qed.
Lemma sl_list_by_order_by_op d ob limit offset f :
  session_local (DAO.list_by_order_by_op d ob limit offset f).
Proof. unfold DAO.list_by_order_by_op. cbv zeta. sl. Qed.
Lemma sl_exists_op d k : session_local (DAO.exists_op d k).
Proof. unfold DAO.exists_op. sl. Qed.
Lemma sl_create_write d f : session_local (DAO.create_write d f).
Proof. unfold DAO.create_write. sl. Qed.
Lemma sl_update_write d k f : session_local (DAO.update_write d k f).
Proof. unfold DAO.update_write. sl. Qed.
Lemma sl_upsert_write d k f : session_local (DAO.upsert_write d k f).
Proof. unfold DAO.upsert_write. sl. Qed.
Lemma sl_delete_write d k : session_local (DAO.delete_write d k).
Proof. unfold DAO.delete_write. sl. Qed.

(** ** One unit of work per call *)

Lemma sl_commit d : session_local (commit d).
Proof. unfold commit. sl. Qed.

Lemma env_inv w w' :
  env w' = env w →
  checked_out w' = checked_out w ∧ pool_log w' = pool_log w
  ∧ stdout w' = stdout w ∧ logger w' = logger w
  ∧ bg_executor w' = bg_executor w ∧ os_cpu_count w' = os_cpu_count w.
Proof. unfold env. by intros [= -> -> -> -> -> ->]. Qed.

Lemma run_in_session_env {A} d (fn : SM A) w :
  session_local fn →
  (checked_out w < max_connections d)%nat →
  env (DAO._run_in_session d fn w).2 =
  env (set_pool_log (λ l, l ++ [Checkout; Checkin]) w).
Proof.
  intros Hfn Hp.
  unfold DAO._run_in_session, DAO.session_scope, get_session, bind at 1, acquire.
  rewrite bool_decide_eq_true_2 by done.
  assert (Hbody : session_local (let* a := fn in let* _ := commit d in ret a)).
  { apply sl_bind; [done|]. intros a. apply sl_bind; [apply sl_commit|].
    intros _. apply sl_ret. }
  specialize (Hbody (new_session, checkout w)).
  destruct ((let* a := fn in let* _ := commit d in ret a) (new_session, checkout w))
    as [[a|e] x]; cbn [fst snd] in Hbody |- *;
    apply env_inv in Hbody as (H1 & H2 & H3 & H4 & H5 & H6);
    unfold env, rollback; cbn; rewrite H1, H2, H3, H4, H5, H6; cbn;
    by rewrite <- app_assoc.
Qed.

Lemma run_in_session_pool_log {A} d (fn : SM A) w :
  session_local fn →
  (checked_out w < max_connections d)%nat →
  pool_log (DAO._run_in_session d fn w).2 = pool_log w ++ [Checkout; Checkin]
  ∧ checked_out (DAO._run_in_session d fn w).2 = checked_out w.
Proof.
  intros Hfn Hp. pose proof (run_in_session_env d fn w Hfn Hp) as H.
  by apply env_inv in H as (H1 & H2 & _).
Qed.

Lemma submit_background_pool_log {A} d (fn : SM A) w :
  pool_log (DAO._submit_background d fn w).2 =
  pool_log (DAO._run_in_session d fn (DAO._get_bg_executor w).2).2.
Proof.
  unfold DAO._submit_background, bind, DAO.submit, DAO._runner, DAO._get_bg_executor.
  destruct (bg_executor w) as [ex|]; cbn [fst snd];
    by destruct (DAO._run_in_session d fn _) as [[a|err] w1].
Qed.

Lemma get_bg_executor_pool w :
  pool_log (DAO._get_bg_executor w).2 = pool_log w
  ∧ checked_out (DAO._get_bg_executor w).2 = checked_out w.
Proof. unfold DAO._get_bg_executor. by destruct (bg_executor w) as [ex|]. Qed.

Lemma submit_background_one_session {A} d (fn : SM A) w :
  session_local fn →
  (checked_out w < max_connections d)%nat →
  pool_log (DAO._submit_background d fn w).2 = pool_log w ++ [Checkout; Checkin].
Proof.
  intros Hfn Hp. rewrite submit_background_pool_log.
  destruct (get_bg_executor_pool w) as [Hl Hc].
  rewrite <- Hl. apply run_in_session_pool_log; [done|by rewrite Hc].
Qed.

(** Every public operation except [update_ff] and [upsert_ff] takes one
    session from the pool and gives it back. *)
Lemma one_session_per_call d c w :
  (checked_out w < max_connections d)%nat →
  delegates_to_sync c = false →
  pool_log (perform d c w) = pool_log w ++ [Checkout; Checkin].
Proof.
  intros Hp Hc. destruct c; try discriminate Hc; cbn [perform];
    first [ apply submit_background_one_session; [|done]
          | apply run_in_session_pool_log; [|done] ];
    auto using sl_get_op, sl_list_op, sl_list_by_op, sl_list_by_order_by_op,
      sl_exists_op, sl_create_write, sl_update_write, sl_upsert_write,
      sl_delete_write.
Qed.

(** The callable handed over by [update_ff] and [upsert_ff] ignores its
    session and calls the synchronous method, which takes a session of
    its own while the first one is still out. *)
Lemma nested_session_pool_log {A} d (fn : SM A) w :
  session_local fn →
  (S (checked_out w) < max_connections d)%nat →
  pool_log (DAO._submit_background d (liftW (DAO._run_in_session d fn)) w).2 =
  pool_log w ++ [Checkout; Checkout; Checkin; Checkin].
Proof.
  intros Hfn Hp. rewrite submit_background_pool_log.
  destruct (get_bg_executor_pool w) as [Hl Hc].
  set (w0 := (DAO._get_bg_executor w).2) in *.
  unfold DAO._run_in_session at 1, DAO.session_scope, get_session, bind at 1, acquire.
  rewrite bool_decide_eq_true_2 by lia.
  destruct (run_in_session_pool_log d fn (checkout w0) Hfn) as [Hlog Hco].
  { cbn. lia. }
  unfold bind at 1, liftW. cbn [fst snd].
  destruct (DAO._run_in_session d fn (checkout w0)) as [[a|e] w1];
    cbn [fst snd] in *; unfold rollback; cbn; rewrite Hlog; cbn;
    rewrite Hl; by rewrite <- !app_assoc.
Qed.

Lemma two_sessions_per_delegating_call d c w :
  (S (checked_out w) < max_connections d)%nat →
  delegates_to_sync c = true →
  pool_log (perform d c w) = pool_log w ++ [Checkout; Checkout; Checkin; Checkin].
Proof.
  intros Hp Hc. destruct c; try discriminate Hc; cbn [perform].
  - apply nested_session_pool_log; [apply sl_update_write|done].
  - apply nested_session_pool_log; [apply sl_upsert_write|done].
Qed.

(** C1.  One session per call does not hold for [update_ff] and
    [upsert_ff].  On the table of three users, with a pool of two
    sessions, [update_ff] and [upsert_ff] each take two sessions from the
    pool, the second while the first is still out, where [update] and
    [upsert] with the same arguments take one.  With a pool of a single
    session [update] succeeds and the Future of [update_ff] holds the
    pool's failure. *)
Theorem update_ff_takes_two_sessions :
  let f : attrs := {[ "name" := VStr "bobby" ]} in
  pool_log (perform user_dao (CUpdateFF (VInt 2) f) users_world)
    = [Checkout; Checkout; Checkin; Checkin]
  ∧ pool_log (perform user_dao (CUpsertFF (VInt 2) f) users_world)
    = [Checkout; Checkout; Checkin; Checkin]
  ∧ pool_log (perform user_dao (CUpdate (VInt 2) f) users_world)
    = [Checkout; Checkin]
  ∧ pool_log (perform user_dao (CUpsert (VInt 2) f) users_world)
    = [Checkout; Checkin]
  ∧ (DAO.update single_session_dao (VInt 2) f users_world).1 = Ok (Some 0%nat)
  ∧ (DAO.update_ff single_session_dao (VInt 2) f users_world).1
    = Ok (Raise PoolExhausted).
Proof. by vm_compute. Qed.

(** ** The background executor in one thread *)












(** ** Failures of background jobs *)

(** C3.  [_submit_background] hands the caller a Future and does not
    raise.  When the job (the callable run in its session) raises [e],
    in particular when the callable itself raises [e], the Future holds
    [e], and the run has printed [str(e)] and logged one error record
    carrying [e] under the name of the DAO's class.  When the job returns
    [a], in particular when the callable returns [a] with nothing left
    attached to its session, the Future holds [a] and nothing is printed
    or logged by the wrapper. *)
Theorem background_failure_logged_and_reraised {A} (d : dao) (fn : SM A) (w : world) :
  let w0 := (DAO._get_bg_executor w).2 in
  ∃ fut w',
    DAO._submit_background d fn w = (Ok fut, w')
    ∧ (∀ e w1, DAO._run_in_session d fn w0 = (Raise e, w1) →
       fut = Raise e
       ∧ logger w' = logger w1 ++ [LogRecord "Background DAO operation failed"
                                             e (class_name d)]
       ∧ stdout w' = stdout w1 ++ [exn_str e])
    ∧ (∀ a w1, DAO._run_in_session d fn w0 = (Ok a, w1) →
       fut = Ok a ∧ w' = w1)
    ∧ (∀ a wr w1, (checked_out w < max_connections d)%nat →
       fn (new_session, checkout w0) = (Ok a, (Session wr [], w1)) →
       fut = Ok a ∧ logger w' = logger w1 ∧ stdout w' = stdout w1)
    ∧ (∀ e x, (checked_out w < max_connections d)%nat →
       fn (new_session, checkout w0) = (Raise e, x) →
       fut = Raise e
       ∧ LogRecord "Background DAO operation failed" e (class_name d) ∈ logger w').
Proof.
  intros w0. unfold DAO._submit_background, bind at 1.
  assert (∃ ex, DAO._get_bg_executor w = (Ok ex, w0)) as (ex & Hex).
  { unfold w0, DAO._get_bg_executor. destruct (bg_executor w); eauto. }
  rewrite Hex. unfold DAO.submit, DAO._runner.
  destruct (DAO._run_in_session d fn w0) as [[a|e] w1] eqn:Hrun.
  - do 2 eexists. split; [reflexivity|]. split; [done|]. split; [|split].
    + by intros ? ? [= -> ->].
    + intros a' wr x Hp Hfn.
      rewrite (run_in_session_Ok d fn w0 a' wr x) in Hrun; [| |done].
      2: unfold w0; by rewrite (proj2 (get_bg_executor_pool w)).
      by injection Hrun as -> <-.
    + intros e x Hp Hfn.
      rewrite (run_in_session_Raise d fn w0 e x) in Hrun; [done| |done].
      unfold w0. by rewrite (proj2 (get_bg_executor_pool w)).
  - do 2 eexists. split; [reflexivity|]. split; [|split; [done|split]].
    + by intros ? ? [= -> ->].
    + intros a' wr x Hp Hfn.
      rewrite (run_in_session_Ok d fn w0 a' wr x) in Hrun; [done| |done].
      unfold w0. by rewrite (proj2 (get_bg_executor_pool w)).
    + intros e' x Hp Hfn.
      rewrite (run_in_session_Raise d fn w0 e' x) in Hrun; [| |done].
      2: unfold w0; by rewrite (proj2 (get_bg_executor_pool w)).
      injection Hrun as -> _. split; [done|]. cbn.
      apply elem_of_app. right. by apply list_elem_of_singleton.
Qed.

Lemma background_failure_logged_and_reraised_witness :
  ∃ w', DAO.create_ff user_dao {[ "id" := VInt 1 ]} users_world
        = (Ok (Raise IntegrityError), w')
        ∧ logger w' = [LogRecord "Background DAO operation failed"
                                 IntegrityError "UserDAO"]
        ∧ stdout w' = ["IntegrityError"].
Proof.
  set (fn := DAO.create_write user_dao {[ "id" := VInt 1 ]}).
  set (w0 := (DAO._get_bg_executor users_world).2).
  assert (Hjob : DAO._run_in_session user_dao fn w0
                 = (Raise IntegrityError, (DAO._run_in_session user_dao fn w0).2))
    by (vm_compute; reflexivity).
  destruct (background_failure_logged_and_reraised user_dao fn users_world)
    as (fut & w' & Hrun & Hraise & _).
  destruct (Hraise _ _ Hjob) as (-> & Hlog & Hout).
  exists w'. split; [exact Hrun|]. split.
  - rewrite Hlog. reflexivity.
  - rewrite Hout. reflexivity.
Defined.
(** ** The first-use race *)

Section race.
Import BgExecutor.

Lemma class_getattr_setattr cls e attr :
  class_getattr cls (class_setattr cls e attr) = Some e.
Proof.
  unfold class_getattr, class_setattr, mro. cbn.
  by rewrite lookup_insert_eq.
Qed.

Lemma class_getattr_empty cls : class_getattr cls ∅ = None.
Proof.
  unfold class_getattr. induction (mro cls) as [|k l IH]; [done|].
  cbn. by rewrite lookup_empty.
Qed.

Local Arguments class_getattr : simpl never.
Local Arguments class_setattr : simpl never.

Lemma race_inv_init n cls : race_inv cls (init n cls).
Proof.
  split; [|split; [|split]];
    cbn [init start mem threads _bg_executor _bg_lock constructed].
  - intros tid k p Hp. rewrite list_lookup_fmap in Hp.
    destruct (replicate n cls !! tid) as [k'|] eqn:Hk; [|done].
    apply lookup_replicate in Hk as [-> _]. cbn in Hp.
    by injection Hp as <- <-.
  - by rewrite class_getattr_empty.
  - by left.
  - done.
Qed.

Lemma pc_ok_other_lock cls m tid tid' p :
  tid' ≠ tid →
  _bg_lock m = Some tid →
  pc_ok cls m tid' p →
  holds_lock p = false.
Proof.
  intros Hne Hlock Hok. destruct p; cbn in *; try done;
    destruct_and?; congruence.
Qed.

Lemma race_inv_step cls c c' : race_inv cls c → step c c' → race_inv cls c'.
Proof.
  intros (Hpc & Hex & Hnone & Hlock) Hstep.
  destruct Hstep as [c tid k p m' p' Htid Hts].
  destruct c as [m ts]. cbn [mem threads] in *.
  destruct (Hpc tid k p Htid) as [-> Hp].
  assert (Hlt : (tid < length ts)%nat) by (by eapply lookup_lt_Some).
  assert (Hself : <[tid := (cls, p')]> ts !! tid = Some (cls, p'))
    by (by apply list_lookup_insert_eq).
  assert (Hother : ∀ tid', tid' ≠ tid →
            <[tid := (cls, p')]> ts !! tid' = ts !! tid')
    by (intros; by apply list_lookup_insert_ne).
  assert (Hexcl : ∀ tid' q, tid' ≠ tid → _bg_lock m = Some tid →
            ts !! tid' = Some (cls, q) → holds_lock q = false).
  { intros tid' q Hne Hl Hq. eapply (pc_ok_other_lock cls m tid tid'); eauto.
    by apply (Hpc tid' cls q). }
  (* the threads other than [tid], when the attributes they rely on stay *)
  assert (Hpcs : ∀ tid' k q,
            (∀ q0, ts !! tid' = Some (cls, q0) → tid' ≠ tid →
                   pc_ok cls m tid' q0 → pc_ok cls m' tid' q0) →
            pc_ok cls m' tid p' →
            <[tid := (cls, p')]> ts !! tid' = Some (k, q) →
            k = cls ∧ pc_ok cls m' tid' q).
  { intros tid' k q Hmono Hown Hq.
    destruct (decide (tid' = tid)) as [->|Hne].
    - rewrite Hself in Hq. by injection Hq as <- <-.
    - rewrite Hother in Hq by done. destruct (Hpc tid' k q Hq) as [-> Hq'].
      split; [done|]. by apply Hmono. }
  (* the executor attribute and the construction count, when unchanged *)
  assert (Hkeep_none : _bg_executor m' = _bg_executor m →
            constructed m' = constructed m →
            holds_lock p = false
            ∨ class_getattr cls (_bg_executor m) ≠ None →
            class_getattr cls (_bg_executor m') = None →
            constructed m' = 0%nat
            ∨ ∃ t, <[tid := (cls, p')]> ts !! t = Some (cls, AtAssign 0)).
  { intros He Hc Hnot Hn. rewrite He in Hn. rewrite Hc.
    destruct (Hnone Hn) as [?|[t Ht]]; [by left|right]. exists t.
    destruct (decide (t = tid)) as [->|Hne]; [|by rewrite Hother].
    rewrite Htid in Ht. injection Ht as ->. by destruct Hnot. }
  assert (Hkeep_lock : _bg_lock m' = _bg_lock m →
            holds_lock p' = holds_lock p →
            ∀ t, _bg_lock m' = Some t →
                 ∃ q, <[tid := (cls, p')]> ts !! t = Some (cls, q)
                      ∧ holds_lock q = true).
  { intros Hl Hh t Ht. rewrite Hl in Ht. destruct (Hlock t Ht) as (q & Hq & Hhq).
    destruct (decide (t = tid)) as [->|Hne].
    - exists p'. split; [done|]. rewrite Hh. congruence.
    - exists q. by rewrite Hother. }
  destruct p; cbn [thread_step] in Hts; cbn [pc_ok] in Hp.
  - (* AtCheck *)
    remember (class_getattr cls (_bg_executor m)) as x eqn:He in Hts;
      symmetry in He; destruct x as [e|]; injection Hts as <- <-.
    + destruct (Hex e He) as [-> Hc].
      split; [|split; [|split]]; cbn [mem threads].
      * intros tid' k q. by apply Hpcs.
      * done.
      * apply Hkeep_none; auto.
      * by apply Hkeep_lock.
    + split; [|split; [|split]]; cbn [mem threads].
      * intros tid' k q. by apply Hpcs.
      * done.
      * apply Hkeep_none; auto.
      * by apply Hkeep_lock.
  - (* AtLock *)
    remember (_bg_lock m) as x eqn:Hl in Hts; symmetry in Hl;
      destruct x as [t|]; [done|]. injection Hts as <- <-.
    split; [|split; [|split]]; cbn [mem threads _bg_executor _bg_lock constructed].
    + intros tid' k q. apply Hpcs; [|done].
      intros q0 Hq0 Hne Hq'.
      destruct q0; cbn in Hq' |- *; try done; destruct_and?; congruence.
    + done.
    + intros He. destruct (Hnone He) as [?|[t Ht]]; [by left|right].
      exists t. destruct (decide (t = tid)) as [->|Hne]; [congruence|].
      by rewrite Hother.
    + intros tid' [= <-]. by exists AtRecheck.
  - (* AtRecheck *)
    remember (class_getattr cls (_bg_executor m)) as x eqn:He in Hts;
      symmetry in He; destruct x as [e|]; injection Hts as <- <-.
    + destruct (Hex e He) as [-> Hc].
      split; [|split; [|split]]; cbn [mem threads].
      * intros tid' k q. by apply Hpcs.
      * done.
      * by rewrite He.
      * by apply Hkeep_lock.
    + assert (Hzero : constructed m = 0%nat).
      { destruct (Hnone He) as [?|[t Ht]]; [done|].
        destruct (decide (t = tid)) as [->|Hne]; [congruence|].
        by specialize (Hexcl t _ Hne Hp Ht). }
      split; [|split; [|split]]; cbn [mem threads].
      * intros tid' k q. by apply Hpcs.
      * done.
      * by left.
      * by apply Hkeep_lock.
  - (* AtConstruct *)
    injection Hts as <- <-. destruct Hp as (Hl & He & Hc).
    split; [|split; [|split]]; cbn [mem threads _bg_executor _bg_lock constructed].
    + intros tid' k q. apply Hpcs; [|cbn; by rewrite Hc].
      intros q0 Hq0 Hne Hq'. pose proof (Hexcl tid' q0 Hne Hl Hq0) as Hh.
      destruct q0; cbn in Hq', Hh |- *; try done; destruct_and?; congruence.
    + intros e He'. congruence.
    + intros _. right. exists tid. by rewrite Hself, Hc.
    + by apply Hkeep_lock.
  - (* AtAssign *)
    injection Hts as <- <-. destruct Hp as (Hl & He & Hc & ->).
    split; [|split; [|split]]; cbn [mem threads _bg_executor _bg_lock constructed].
    + intros tid' k q.
      apply Hpcs; [|cbn; by rewrite class_getattr_setattr].
      intros q0 Hq0 Hne Hq'. pose proof (Hexcl tid' q0 Hne Hl Hq0) as Hh.
      destruct q0; cbn in Hq', Hh |- *; try done; destruct_and?; congruence.
    + rewrite class_getattr_setattr. by intros e [= <-].
    + by rewrite class_getattr_setattr.
    + by apply Hkeep_lock.
  - (* AtUnlock *)
    injection Hts as <- <-. destruct Hp as (Hl & He).
    split; [|split; [|split]]; cbn [mem threads _bg_executor _bg_lock constructed].
    + intros tid' k q. apply Hpcs; [|done].
      intros q0 Hq0 Hne Hq'. pose proof (Hexcl tid' q0 Hne Hl Hq0) as Hh.
      destruct q0; cbn in Hq', Hh |- *; try done; destruct_and?; congruence.
    + done.
    + intros He'. congruence.
    + done.
  - (* AtReturn *)
    injection Hts as <- <-.
    split; [|split; [|split]]; cbn [mem threads].
    + intros tid' k q. by apply Hpcs.
    + done.
    + intros He'. congruence.
    + by apply Hkeep_lock.
  - done.
Qed.

Lemma race_inv_reachable n cls c :
  reachable (replicate n cls) c → race_inv cls c.
Proof.
  unfold reachable. revert c.
  apply (rtc_ind_r (race_inv cls) (start (replicate n cls)));
    [apply race_inv_init|].
  intros c1 c2 _ Hstep Hinv. by eapply race_inv_step.
Qed.

Lemma step_length c c' : step c c' → length (threads c') = length (threads c).
Proof. intros [c0 tid k p m' p' _ _]. cbn. by rewrite length_insert. Qed.

Lemma reachable_length classes c :
  reachable classes c → length (threads c) = length classes.
Proof.
  unfold reachable. revert c.
  apply (rtc_ind_r (λ c, length (threads c) = length classes) (start classes)).
  - cbn. by rewrite length_fmap.
  - intros c1 c2 _ Hstep IH. by rewrite (step_length _ _ Hstep).
Qed.

Lemma sum_list_insert (l : list nat) i x y :
  l !! i = Some x → (sum_list (<[i := y]> l) + x = sum_list l + y)%nat.
Proof.
  revert i. induction l as [|z l IH]; intros [|i] Hi; try done.
  - injection Hi as ->. cbn. lia.
  - specialize (IH i Hi).
    change (sum_list (<[S i := y]> (z :: l))) with (z + sum_list (<[i := y]> l))%nat.
    change (sum_list (z :: l)) with (z + sum_list l)%nat. lia.
Qed.

Lemma thread_step_progress tid cls m p m' p' :
  thread_step tid cls m p = Some (m', p') → (remaining p' < remaining p)%nat.
Proof.
  destruct p; cbn [thread_step]; try done;
    repeat (case_match; try done); intros [= <- <-]; cbn; lia.
Qed.

Lemma step_work_left c c' : step c c' → (work_left c' < work_left c)%nat.
Proof.
  intros [c0 tid k p m' p' Htid Hts]. unfold work_left. cbn [threads].
  apply thread_step_progress in Hts.
  rewrite list_fmap_insert.
  pose proof (sum_list_insert ((λ t, remaining t.2) <$> threads c0) tid
                (remaining p) (remaining p')) as Hsum.
  rewrite list_lookup_fmap, Htid in Hsum. specialize (Hsum eq_refl).
  cbn [snd]. lia.
Qed.

(** A thread that has not returned and does not wait for the lock can
    take a step; one that waits does so for a thread that can. *)
Lemma race_no_deadlock cls c tid k p :
  race_inv cls c → threads c !! tid = Some (k, p) → finished p = false →
  ∃ c', step c c'.
Proof.
  intros (Hpc & Hex & Hnone & Hlock) Htid Hfin.
  destruct (thread_step tid k (mem c) p) as [[m' p']|] eqn:Hts.
  { eexists. exact (Step c tid k p m' p' Htid Hts). }
  destruct p; cbn [thread_step] in Hts; cbn in Hfin; try done;
    repeat (case_match; try done).
  (* the thread waits for the lock: its holder can move *)
  match goal with
  | H : _bg_lock (mem c) = Some ?t |- _ =>
      destruct (Hlock t eq_refl) as (q & Hq & Hh);
      destruct (thread_step t cls (mem c) q) as [[m' q']|] eqn:Hts';
      [ eexists; exact (Step c t cls q m' q' Hq Hts') |]
  end.
  destruct q; cbn [thread_step] in Hts'; cbn in Hh; try done;
    repeat (case_match; try done).
Qed.

(** The schedules of [run_schedule] are runs of the step relation. *)
Lemma run_schedule_reachable sched : ∀ classes c,
  reachable classes c → reachable classes (run_schedule sched c).
Proof.
  induction sched as [|tid sched IH]; intros classes c Hc; [done|].
  cbn. apply IH. unfold sched_step.
  destruct (threads c !! tid) as [[k p]|] eqn:Htid; [|done].
  destruct (thread_step tid k (mem c) p) as [[m' p']|] eqn:Hts; [|done].
  eapply rtc_r; [exact Hc|]. exact (Step c tid k p m' p' Htid Hts).
Qed.
End race.

(** C4.  Two DAO instances of two different DAO classes, [UserDAO] and
    [OrderDAO], make their first fire-and-forget submission at the same
    time.  Both threads find no executor; the first takes the lock,
    constructs an executor and assigns it, which sets the attribute of
    its own class; the second then takes the lock, looks again, finds
    none for its class, and constructs another.  Two executors exist,
    each thread was handed a different one, and
    [DataAccessObject._bg_executor], the shared attribute, is still
    [None]. *)
Theorem executors_differ_across_classes :
  let classes := [BgExecutor.UserDAO; BgExecutor.OrderDAO] in
  let c := BgExecutor.run_schedule
             [0; 1; 0; 1; 0; 0; 0; 0; 0; 1; 1; 1; 1; 1; 1]%nat
             (BgExecutor.start classes) in
  BgExecutor.reachable classes c
  ∧ BgExecutor.threads c
    = [(BgExecutor.UserDAO, BgExecutor.Returned (Some 0%nat));
       (BgExecutor.OrderDAO, BgExecutor.Returned (Some 1%nat))]
  ∧ BgExecutor.constructed (BgExecutor.mem c) = 2%nat
  ∧ BgExecutor.class_getattr BgExecutor.DataAccessObject
      (BgExecutor._bg_executor (BgExecutor.mem c)) = None.
Proof.
  intros classes c. split.
  - apply run_schedule_reachable. apply rtc_refl.
  - split; [|split]; vm_compute; reflexivity.
Qed.

(** X29.  In every state that [n] threads can reach after entering
    [_get_bg_executor] on one and the same class, under any interleaving
    of their statements, at most one executor has been constructed; a
    thread that has returned was handed the first executor, which is the
    one the class attribute names, and exactly one executor has been
    constructed by then.  No reachable state is stuck while a thread has
    not returned, and every step strictly decreases the work that is
    left, so all threads return. *)
Theorem executor_created_once_per_class (n : nat) (cls : BgExecutor.class)
    (c : BgExecutor.config) :
  BgExecutor.reachable (replicate n cls) c →
  (BgExecutor.constructed (BgExecutor.mem c) ≤ 1)%nat
  ∧ (∀ tid r, BgExecutor.threads c !! tid = Some (cls, BgExecutor.Returned r) →
       r = Some 0%nat
       ∧ BgExecutor.class_getattr cls (BgExecutor._bg_executor (BgExecutor.mem c))
         = Some 0%nat
       ∧ BgExecutor.constructed (BgExecutor.mem c) = 1%nat)
  ∧ (∀ tid p, BgExecutor.threads c !! tid = Some (cls, p) →
       BgExecutor.finished p = false → ∃ c', BgExecutor.step c c')
  ∧ (∀ c', BgExecutor.step c c' → (work_left c' < work_left c)%nat).
Proof.
  intros Hreach. pose proof (race_inv_reachable n cls c Hreach) as Hinv.
  pose proof Hinv as (Hpc & Hex & Hnone & Hlock).
  split; [|split; [|split]].
  - destruct (BgExecutor.class_getattr cls
                (BgExecutor._bg_executor (BgExecutor.mem c))) as [e|] eqn:He.
    + destruct (Hex e eq_refl) as [_ ->]. lia.
    + destruct (Hnone eq_refl) as [->|[t Ht]]; [lia|].
      apply Hpc in Ht as [_ Ht]. cbn in Ht. destruct Ht as (_ & _ & -> & _). lia.
  - intros tid r Hr. apply Hpc in Hr as [_ Hr]. cbn in Hr. destruct Hr as [-> He].
    split; [done|]. split; [done|]. by apply Hex in He as [_ ?].
  - intros tid p Htid Hfin. by eapply race_no_deadlock.
  - apply step_work_left.
Qed.

Lemma executor_created_once_per_class_witness :
  let c := BgExecutor.run_schedule [0; 1; 0; 1; 0; 1; 0; 0; 0; 0; 1; 1; 1; 1; 2; 2]%nat
             (BgExecutor.init 3 BgExecutor.UserDAO) in
  BgExecutor.reachable (replicate 3 BgExecutor.UserDAO) c
  ∧ BgExecutor.constructed (BgExecutor.mem c) = 1%nat
  ∧ BgExecutor.threads c !! 1%nat
    = Some (BgExecutor.UserDAO, BgExecutor.Returned (Some 0%nat)).
Proof.
  intros c.
  assert (Hc : BgExecutor.reachable (replicate 3 BgExecutor.UserDAO) c).
  { apply run_schedule_reachable. apply rtc_refl. }
  split; [exact Hc|].
  assert (Hr : BgExecutor.threads c !! 1%nat
               = Some (BgExecutor.UserDAO, BgExecutor.Returned (Some 0%nat)))
    by (vm_compute; reflexivity).
  destruct (executor_created_once_per_class 3 BgExecutor.UserDAO c Hc)
    as (_ & Hret & _).
  destruct (Hret 1%nat (Some 0%nat) Hr) as (_ & _ & Hone).
  split; [exact Hone|exact Hr].
Defined.

(** ** [upsert], the claims *)

(** C2.  [upsert(k, f)] looks the key up first.  When the table has no
    row for [k], and the store accepts the new row (its fields are
    attributes of the model and its key is not taken), the row inserted
    is the dictionary made of the primary-key attribute set to [k] and
    updated with [f]; the key sequence of the store is not used.  When
    the table has a row [r] for [k], and the store accepts the change
    (a key given in [f] is [k] or is not taken), the fields of [f] that
    are columns are written over [r] and the other rows stay as they
    are.  In both cases the callable returns an entity that is no longer
    attached to its session, and the entity carries the resulting
    attributes. *)
Theorem upsert_semantics (d : dao) (k : value) (f : attrs) (w : world) :
  well_configured d →
  (checked_out w < max_connections d)%nat →
  table_wf d (table w) →
  (find_row d k (table w) = None →
   dom f ⊆ columns d →
   (∀ k', f !! model_pk d = Some k' → find_row d k' (table w) = None) →
   let row := f ∪ {[model_pk d := k]} in
   ∃ o w' x,
     DAO.upsert d k f w = (Ok o, w')
     ∧ heap w' !! o = Some row
     ∧ table w' = table w ++ [row]
     ∧ sequence w' = sequence w
     ∧ (f !! model_pk d = None → row !! model_pk d = Some k)
     ∧ DAO.upsert_write d k f (new_session, checkout w) = (Ok o, x)
     ∧ ¬ attached o x.1)
  ∧ (∀ r, find_row d k (table w) = Some r →
     (∀ k', f !! model_pk d = Some k' → k' ≠ k → find_row d k' (table w) = None) →
     ∃ o w' x,
       DAO.upsert d k f w = (Ok o, w')
       ∧ heap w' !! o = Some (f ∪ r)
       ∧ table w' = map (λ y, if has_key d k y then persisted d f ∪ r else y) (table w)
       ∧ sequence w' = sequence w
       ∧ DAO.upsert_write d k f (new_session, checkout w) = (Ok o, x)
       ∧ ¬ attached o x.1).
Proof.
  intros Hd Hp Hwf. split.
  - intros Hk Hdom Hfree row.
    pose proof (upsert_inserts d k f w Hd Hp Hk Hdom Hfree) as Hrun.
    pose proof (upsert_write_insert d k f (checkout w) Hd Hk Hdom Hfree) as Hcl.
    do 3 eexists. split; [exact Hrun|].
    split; [by apply list_lookup_middle|].
    split; [done|]. split; [done|].
    split; [|split; [exact Hcl|apply not_attached_nil]].
    intros Hf. unfold row. rewrite lookup_union_r by done.
    by rewrite lookup_singleton_eq.
  - intros r Hk Hfree.
    destruct (upsert_updates d k f r w Hd Hp Hwf Hk Hfree)
      as (w' & Hrun & Hheap & Htable & Hseq).
    destruct (DAO.upsert_write d k f (new_session, checkout w)) as [res x] eqn:Hcl.
    assert (res = Ok (length (heap w))) as ->.
    { unfold DAO.upsert, DAO._run_in_session, DAO.session_scope, get_session,
        bind at 1, acquire in Hrun.
      rewrite bool_decide_eq_true_2 in Hrun by done.
      unfold bind at 1 in Hrun. rewrite Hcl in Hrun.
      destruct res as [o|e]; [|done].
      unfold bind at 1 in Hrun. destruct (commit d x) as [[[]|e] x']; [|done].
      by injection Hrun as ->. }
    exists (length (heap w)), w', x. split; [exact Hrun|].
    split; [rewrite Hheap; by apply list_lookup_middle|].
    split; [done|]. split; [done|]. split; [done|].
    by eapply upsert_write_detached.
Qed.

Lemma upsert_semantics_witness :
  let f : attrs := {[ "name" := VStr "dave" ]} in
  (∃ o w', DAO.upsert user_dao (VInt 7) f users_world = (Ok o, w')
           ∧ table w' = [alice; bob; carol; f ∪ {[ "id" := VInt 7 ]}])
  ∧ (∃ o w', DAO.upsert user_dao (VInt 2) f users_world = (Ok o, w')
             ∧ heap w' !! o = Some (f ∪ bob)).
Proof.
  intros f.
  destruct (upsert_semantics user_dao (VInt 7) f users_world
              user_dao_configured user_dao_pool_free users_world_wf) as [Hins _].
  destruct (upsert_semantics user_dao (VInt 2) f users_world
              user_dao_configured user_dao_pool_free users_world_wf) as [_ Hupd].
  split.
  - destruct Hins as (o & w' & x & Hrun & _ & Ht & _).
    + reflexivity.
    + apply (bool_decide_unpack _). by vm_compute.
    + intros k' Hk'. by vm_compute in Hk'.
    + exists o, w'. split; [exact Hrun|exact Ht].
  - destruct (Hupd bob) as (o & w' & x & Hrun & Hh & _).
    + reflexivity.
    + intros k' Hk'. by vm_compute in Hk'.
    + exists o, w'. split; [exact Hrun|exact Hh].
Defined.

(** C10.  On the insert path of [upsert], an entry of the fields for
    the primary-key attribute wins over the positional key: the row
    inserted, and the entity returned, have the key [v] given in the
    fields; a later lookup finds the row under [v], and finds nothing
    under the positional key [k] when the two differ. *)
Theorem upsert_fields_override_key
    (d : dao) (k v : value) (f : attrs) (w : world) :
  well_configured d →
  (checked_out w < max_connections d)%nat →
  find_row d k (table w) = None →
  dom f ⊆ columns d →
  f !! primary_key_attribute_name d = Some v →
  find_row d v (table w) = None →
  ∃ o w' row,
    DAO.upsert d k f w = (Ok o, w')
    ∧ table w' = table w ++ [row]
    ∧ heap w' !! o = Some row
    ∧ row !! model_pk d = Some v
    ∧ find_row d v (table w') = Some row
    ∧ (v ≠ k → find_row d k (table w') = None).
Proof.
  intros Hd Hp Hk Hdom Hf Hv. pose proof Hd as [Hname Hcol].
  rewrite Hname in Hf.
  assert (Hfree : ∀ k', f !! model_pk d = Some k' → find_row d k' (table w) = None).
  { intros k' Hk'. rewrite Hf in Hk'. by injection Hk' as <-. }
  pose proof (upsert_inserts d k f w Hd Hp Hk Hdom Hfree) as Hrun. cbv zeta in Hrun.
  assert (Hrow : (f ∪ {[model_pk d := k]}) !! model_pk d = Some v)
    by (by apply lookup_union_Some_l).
  do 3 eexists. split; [exact Hrun|].
  split; [done|]. split; [by apply list_lookup_middle|].
  split; [exact Hrow|]. cbn [table checkin set_pool_log set_checked_out set_table].
  split; [by apply find_row_app|].
  intros Hne. apply find_row_app_other; [done|]. rewrite Hrow. congruence.
Qed.

Lemma upsert_fields_override_key_witness :
  let f : attrs := {[ "id" := VInt 9; "name" := VStr "eve" ]} in
  ∃ o w' row, DAO.upsert user_dao (VInt 5) f users_world = (Ok o, w')
              ∧ row !! "id" = Some (VInt 9)
              ∧ find_row user_dao (VInt 9) (table w') = Some row
              ∧ find_row user_dao (VInt 5) (table w') = None.
Proof.
  intros f.
  destruct (upsert_fields_override_key user_dao (VInt 5) (VInt 9) f users_world)
    as (o & w' & row & Hrun & _ & _ & Hrow & Hfound & Hgone).
  - exact user_dao_configured.
  - exact user_dao_pool_free.
  - reflexivity.
  - apply (bool_decide_unpack _). by vm_compute.
  - reflexivity.
  - reflexivity.
  - exists o, w', row. split; [exact Hrun|]. split; [exact Hrow|].
    split; [exact Hfound|]. apply Hgone. discriminate.
Defined.

(** * Further properties *)

(** ** Properties kept by the statements of a session *)

Lemma preserves_ret {A} P (a : A) : preserves P (ret a).
Proof. by intros x. Qed.

Lemma preserves_raise {A} P e : preserves P (@raise _ A e).
Proof. by intros x. Qed.

Lemma preserves_gets {A} P (f : session * world → A) : preserves P (gets f).
Proof. by intros x. Qed.

Lemma preserves_bind {A B} P (m : SM A) (f : A → SM B) :
  preserves P m → (∀ a, preserves P (f a)) → preserves P (bind m f).
Proof.
  intros Hm Hf x Hx. unfold bind. specialize (Hm x Hx).
  destruct (m x) as [[a|e] x1]; [|done]. by apply Hf.
Qed.

Lemma preserves_mapM {A B} P (f : A → SM B) l :
  (∀ a, preserves P (f a)) → preserves P (mapM f l).
Proof.
  intros Hf. induction l as [|a l IH]; cbn [mapM]; [apply preserves_ret|].
  apply preserves_bind; [done|]. intros b.
  apply preserves_bind; [done|]. intros bs. apply preserves_ret.
Qed.

Lemma preserves_forM_ {A} P (f : A → SM unit) l :
  (∀ a, preserves P (f a)) → preserves P (forM_ f l).
Proof.
  intros Hf. induction l as [|a l IH]; cbn [forM_]; [apply preserves_ret|].
  apply preserves_bind; [done|]. by intros _.
Qed.

Lemma preserves_object_attrs P o : preserves P (object_attrs o).
Proof. intros x Hx. unfold object_attrs. by destruct (heap x.2 !! o). Qed.

Create HintDb pres discriminated.

#[local] Hint Resolve preserves_ret preserves_raise preserves_gets
  preserves_object_attrs : pres.

(** Decompose a computation along its binds and case distinctions; a
    statement that does not touch what the property reads keeps it by
    computation. *)
Ltac pres_step :=
  match goal with
  | |- preserves _ (bind _ _) => apply preserves_bind; [|intros ?]
  | |- preserves _ (mapM _ _) => apply preserves_mapM; intros ?
  | |- preserves _ (forM_ _ _) => apply preserves_forM_; intros ?
  | |- preserves _ (match ?t with _ => _ end) => destruct t
  | |- preserves _ _ =>
      solve [auto with pres | let H := fresh in intros ? H; exact H]
  end.

Ltac pres := repeat pres_step.

(** *** The committed table is only written by the commit *)

Lemma table_is_load_row t d r : preserves (table_is t) (load_row d r).
Proof. unfold load_row. pres. Qed.
#[local] Hint Resolve table_is_load_row : pres.

Lemma table_is_session_get t d k : preserves (table_is t) (session_get d k).
Proof. unfold session_get. pres. Qed.

Lemma table_is_query_filter_by t d f q : preserves (table_is t) (query_filter_by d f q).
Proof. unfold query_filter_by. pres. Qed.

Lemma table_is_query_all t d q : preserves (table_is t) (query_all d q).
Proof. unfold query_all. pres. Qed.
#[local] Hint Resolve table_is_session_get table_is_query_filter_by
  table_is_query_all : pres.

Lemma table_is_query_first t d q : preserves (table_is t) (query_first d q).
Proof. unfold query_first. pres. Qed.

Lemma table_is_session_expunge t o : preserves (table_is t) (session_expunge o).
Proof. unfold session_expunge. pres. Qed.
#[local] Hint Resolve table_is_query_first table_is_session_expunge : pres.

Lemma table_is_session_add t o : preserves (table_is t) (session_add o).
Proof. unfold session_add. pres. Qed.

Lemma table_is_session_delete t o : preserves (table_is t) (session_delete o).
Proof. unfold session_delete. pres. Qed.

Lemma table_is_flush_one t d e : preserves (table_is t) (flush_one d e).
Proof. unfold flush_one. pres. Qed.
#[local] Hint Resolve table_is_session_add table_is_session_delete
  table_is_flush_one : pres.

Lemma table_is_flush_all t d ids : preserves (table_is t) (flush_all d ids).
Proof. induction ids as [|e ids IH]; cbn [flush_all]; pres. Qed.
#[local] Hint Resolve table_is_flush_all : pres.

Lemma table_is_session_flush t d : preserves (table_is t) (session_flush d).
Proof. unfold session_flush. pres. Qed.

Lemma table_is_session_refresh t d o : preserves (table_is t) (session_refresh d o).
Proof. unfold session_refresh. pres. Qed.

Lemma table_is_model_new t d f : preserves (table_is t) (model_new d f).
Proof. unfold model_new. pres. Qed.

Lemma table_is_get_pk_column t d : preserves (table_is t) (DAO._get_pk_column d).
Proof. unfold DAO._get_pk_column. pres. Qed.

Lemma table_is_set_fields t o f : preserves (table_is t) (DAO.set_fields o f).
Proof. unfold DAO.set_fields. pres. Qed.
#[local] Hint Resolve table_is_session_flush table_is_session_refresh
  table_is_model_new table_is_get_pk_column table_is_set_fields : pres.

Lemma table_is_get_op t d k : preserves (table_is t) (DAO.get_op d k).
Proof. unfold DAO.get_op. pres. Qed.
Lemma table_is_list_op t d limit offset :
  preserves (table_is t) (DAO.list_op d limit offset).
Proof. unfold DAO.list_op. cbv zeta. pres. Qed.
Lemma table_is_list_by_op t d limit offset f :
  preserves (table_is t) (DAO.list_by_op d limit offset f).
Proof. unfold DAO.list_by_op. cbv zeta. pres. Qed.
Lemma table_is_list_by_order_by_op t d ob limit offset f :
  preserves (table_is t) (DAO.list_by_order_by_op d ob limit offset f).
Proof. unfold DAO.list_by_order_by_op. cbv zeta. pres. Qed.
Lemma table_is_exists_op t d k : preserves (table_is t) (DAO.exists_op d k).
Proof. unfold DAO.exists_op. pres. Qed.
Lemma table_is_create_write t d f : preserves (table_is t) (DAO.create_write d f).
Proof. unfold DAO.create_write. pres. Qed.
Lemma table_is_update_write t d k f : preserves (table_is t) (DAO.update_write d k f).
Proof. unfold DAO.update_write. pres. Qed.
Lemma table_is_upsert_write t d k f : preserves (table_is t) (DAO.upsert_write d k f).
Proof. unfold DAO.upsert_write. pres. Qed.
Lemma table_is_delete_write t d k : preserves (table_is t) (DAO.delete_write d k).
Proof. unfold DAO.delete_write. pres. Qed.

(** ** Exit paths of the unit of work *)

Lemma commit_cases d x :
  match session_flush d x with
  | (Ok _, x') =>
      commit d x = (Ok tt, (Session [] (identity x'.1),
                            set_table (λ _, view d x') x'.2))
  | (Raise e, x') => commit d x = (Raise e, x')
  end.
Proof.
  unfold commit, bind. by destruct (session_flush d x) as [[[]|e] x'].
Qed.

(** The three ways out of [_run_in_session] once a session is held: the
    callable raises, the flush of the commit raises, or the writes are
    committed. *)
Lemma run_in_session_cases {A} d (fn : SM A) w :
  (checked_out w < max_connections d)%nat →
  match fn (new_session, checkout w) with
  | (Raise e, x) => DAO._run_in_session d fn w = (Raise e, checkin x.2)
  | (Ok a, x) =>
      match session_flush d x with
      | (Raise e, x') => DAO._run_in_session d fn w = (Raise e, checkin x'.2)
      | (Ok _, x') =>
          DAO._run_in_session d fn w =
          (Ok a, checkin (set_table (λ _, view d x') x'.2))
      end
  end.
Proof.
  intros Hp.
  unfold DAO._run_in_session, DAO.session_scope, get_session, bind, acquire.
  rewrite bool_decide_eq_true_2 by done.
  destruct (fn (new_session, checkout w)) as [[a|e] x]; [|reflexivity].
  pose proof (commit_cases d x) as Hc.
  destruct (session_flush d x) as [[[]|e] x']; rewrite Hc; reflexivity.
Qed.

Lemma run_in_session_checked_out {A} d (fn : SM A) w :
  (∀ x, checked_out (fn x).2.2 = checked_out x.2) →
  checked_out (DAO._run_in_session d fn w).2 = checked_out w.
Proof.
  intros Hfn.
  destruct (decide (checked_out w < max_connections d)%nat) as [Hp|Hp];
    [|by rewrite run_in_session_exhausted].
  pose proof (run_in_session_cases d fn w Hp) as Hrun.
  specialize (Hfn (new_session, checkout w)).
  destruct (fn (new_session, checkout w)) as [[a|e] x]; cbn [fst snd] in *.
  - pose proof (sl_session_flush d x) as Hfl. apply env_inv in Hfl as [Hfl _].
    destruct (session_flush d x) as [[[]|e] x']; rewrite Hrun; cbn in *; lia.
  - rewrite Hrun. cbn in *. lia.
Qed.

Lemma session_local_checked_out {A} (fn : SM A) :
  session_local fn → ∀ x, checked_out (fn x).2.2 = checked_out x.2.
Proof. intros Hfn x. specialize (Hfn x). by apply env_inv in Hfn as [? _]. Qed.

Lemma liftW_checked_out {A} (m : DM A) :
  (∀ w, checked_out (m w).2 = checked_out w) →
  ∀ x, checked_out (liftW m x).2.2 = checked_out x.2.
Proof. intros Hm x. unfold liftW. specialize (Hm x.2). by destruct (m x.2). Qed.

Lemma submit_background_checked_out {A} d (fn : SM A) w :
  checked_out (DAO._submit_background d fn w).2 =
  checked_out (DAO._run_in_session d fn (DAO._get_bg_executor w).2).2.
Proof.
  unfold DAO._submit_background, bind, DAO.submit, DAO._runner, DAO._get_bg_executor.
  destruct (bg_executor w) as [ex|]; cbn [fst snd];
    by destruct (DAO._run_in_session d fn _) as [[a|err] w1].
Qed.

Lemma sync_call_checked_out d c w :
  is_ff c = false → checked_out (perform d c w) = checked_out w.
Proof.
  intros Hc. destruct c; try discriminate Hc; cbn [perform];
    apply run_in_session_checked_out, session_local_checked_out;
    auto using sl_get_op, sl_list_op, sl_list_by_op, sl_list_by_order_by_op,
      sl_exists_op, sl_create_write, sl_update_write, sl_upsert_write,
      sl_delete_write.
Qed.

(** X1.  No call leaks a session: after any public operation, whether
    it returned, raised, found the pool exhausted or handed out a failed
    Future, as many sessions are out of the pool as before. *)
Theorem no_session_leak (d : dao) (c : call) (w : world) :
  checked_out (perform d c w) = checked_out w.
Proof.
  destruct (is_ff c) eqn:Hc; [|by apply sync_call_checked_out].
  destruct c; try discriminate Hc; cbn [perform];
    unfold DAO.create_ff, DAO.update_ff, DAO.upsert_ff, DAO.delete_ff;
    rewrite submit_background_checked_out;
    rewrite run_in_session_checked_out;
    try apply get_bg_executor_pool.
  - apply session_local_checked_out, sl_create_write.
  - apply liftW_checked_out. intros w0.
    apply (sync_call_checked_out d (CUpdate k fields) w0 eq_refl).
  - apply liftW_checked_out. intros w0.
    apply (sync_call_checked_out d (CUpsert k fields) w0 eq_refl).
  - apply session_local_checked_out, sl_delete_write.
Qed.

(** ** A call that fails leaves the table alone *)

Lemma run_in_session_failure_table {A} d (fn : SM A) w e :
  (∀ t, preserves (table_is t) fn) →
  (DAO._run_in_session d fn w).1 = Raise e →
  table (DAO._run_in_session d fn w).2 = table w.
Proof.
  intros Hfn.
  destruct (decide (checked_out w < max_connections d)%nat) as [Hp|Hp];
    [|by rewrite run_in_session_exhausted].
  pose proof (run_in_session_cases d fn w Hp) as Hrun.
  pose proof (Hfn (table w) (new_session, checkout w) eq_refl) as Ht.
  destruct (fn (new_session, checkout w)) as [[a|e'] x]; cbn [fst snd] in *.
  - pose proof (table_is_session_flush (table w) d x Ht) as Hfl.
    destruct (session_flush d x) as [[[]|e'] x']; rewrite Hrun; [done|].
    intros _. exact Hfl.
  - rewrite Hrun. intros _. exact Ht.
Qed.

Lemma sync_call_failure_table d c w e :
  is_ff c = false →
  call_failure d c w = Some e → table (perform d c w) = table w.
Proof.
  intros Hc. destruct c; try discriminate Hc; cbn [perform call_failure];
    unfold raised;
    (destruct (fst _) as [a|e'] eqn:Hr; [done|]); intros _;
    (eapply run_in_session_failure_table; [|exact Hr]); intros t;
    auto using table_is_get_op, table_is_list_op, table_is_list_by_op,
      table_is_list_by_order_by_op, table_is_exists_op, table_is_create_write,
      table_is_update_write, table_is_upsert_write, table_is_delete_write.
Qed.

Lemma get_bg_executor_store w :
  store (DAO._get_bg_executor w).2 = store w.
Proof. unfold DAO._get_bg_executor. by destruct (bg_executor w) as [ex|]. Qed.

(** The Future of [_submit_background] holds the outcome of the job, and
    the wrapper touches neither the store nor the heap. *)
Lemma submit_background_outcome {A} d (fn : SM A) w :
  let job := DAO._run_in_session d fn (DAO._get_bg_executor w).2 in
  (DAO._submit_background d fn w).1 = Ok job.1
  ∧ store (DAO._submit_background d fn w).2 = store job.2.
Proof.
  unfold DAO._submit_background, bind, DAO.submit, DAO._runner, DAO._get_bg_executor.
  destruct (bg_executor w) as [ex|]; cbn [fst snd];
    by destruct (DAO._run_in_session d fn _) as [[a|err] w1].
Qed.

(** A callable that ignores its session and runs [m]: the unit of work
    around it has nothing to flush. *)
Lemma run_in_session_liftW {A} d (m : DM A) w :
  (checked_out w < max_connections d)%nat →
  (DAO._run_in_session d (liftW m) w).1 = (m (checkout w)).1
  ∧ store (DAO._run_in_session d (liftW m) w).2 = store (m (checkout w)).2.
Proof.
  intros Hp. pose proof (run_in_session_cases d (liftW m) w Hp) as Hrun.
  destruct (m (checkout w)) as [r w1] eqn:Hm.
  assert (Hl : liftW m (new_session, checkout w) = (r, (new_session, w1))).
  { unfold liftW. cbn [fst snd]. by rewrite Hm. }
  rewrite Hl in Hrun. destruct r as [a|e]; cbn [fst snd] in *; by rewrite Hrun.
Qed.

Lemma table_of_store w w' : store w = store w' → table w = table w'.
Proof. unfold store. by intros [= -> _ _ _]. Qed.

(** X2.  A call that fails leaves the table as it was: when a
    synchronous method raises, or the Future of a fire-and-forget method
    holds an exception, no row has been added, changed or removed. *)
Theorem failed_call_leaves_table (d : dao) (c : call) (w : world) (e : exn) :
  call_failure d c w = Some e → table (perform d c w) = table w.
Proof.
  destruct (is_ff c) eqn:Hc; [|by apply sync_call_failure_table].
  assert (Hw0 : table (DAO._get_bg_executor w).2 = table w)
    by apply table_of_store, get_bg_executor_store.
  set (w0 := (DAO._get_bg_executor w).2) in *.
  assert (Hjob : ∀ A (fn : SM A),
            (∀ t, preserves (table_is t) fn) →
            held (DAO._submit_background d fn w).1 = Some e →
            table (DAO._submit_background d fn w).2 = table w).
  { intros A fn Hfn.
    destruct (submit_background_outcome d fn w) as [Hr Hs]. fold w0 in Hr, Hs.
    rewrite Hr, (table_of_store _ _ Hs). cbn [held]. unfold raised.
    pose proof (run_in_session_failure_table d fn w0) as Hft.
    destruct (DAO._run_in_session d fn w0) as [[a|e'] w1]; cbn [fst snd] in *;
      [discriminate|].
    intros _. rewrite <- Hw0. by eapply Hft. }
  assert (Hdel : ∀ A (m : DM A),
            (∀ w1 e1, (m w1).1 = Raise e1 → table (m w1).2 = table w1) →
            held (DAO._submit_background d (liftW m) w).1 = Some e →
            table (DAO._submit_background d (liftW m) w).2 = table w).
  { intros A m Hm.
    destruct (submit_background_outcome d (liftW m) w) as [Hr Hs]. fold w0 in Hr, Hs.
    rewrite Hr, (table_of_store _ _ Hs). cbn [held]. unfold raised.
    destruct (decide (checked_out w0 < max_connections d)%nat) as [Hp|Hp];
      [|by rewrite run_in_session_exhausted].
    destruct (run_in_session_liftW d m w0 Hp) as [Hr' Hs'].
    rewrite Hr', (table_of_store _ _ Hs').
    specialize (Hm (checkout w0)).
    destruct (m (checkout w0)) as [[a|e'] w1]; cbn [fst snd] in *; [discriminate|].
    intros _. rewrite (Hm e' eq_refl). exact Hw0. }
  destruct c; try discriminate Hc; cbn [perform call_failure].
  - apply Hjob. intros t. apply table_is_create_write.
  - apply Hdel. intros w1 e1 Hr.
    apply (sync_call_failure_table d (CUpdate k fields) w1 e1 eq_refl).
    cbn [call_failure]. by rewrite Hr.
  - apply Hdel. intros w1 e1 Hr.
    apply (sync_call_failure_table d (CUpsert k fields) w1 e1 eq_refl).
    cbn [call_failure]. by rewrite Hr.
  - apply Hjob. intros t. apply table_is_delete_write.
Qed.

Lemma failed_call_leaves_table_witness :
  let c := CCreate {[ "id" := VInt 1; "name" := VStr "impostor" ]} in
  call_failure user_dao c users_world = Some IntegrityError
  ∧ table (perform user_dao c users_world) = [alice; bob; carol].
Proof.
  intros c.
  assert (Hf : call_failure user_dao c users_world = Some IntegrityError)
    by (vm_compute; reflexivity).
  split; [exact Hf|].
  exact (failed_call_leaves_table user_dao c users_world IntegrityError Hf).
Defined.

(** ** [list_by] and [list_by_order_by] *)

Lemma bind_ret_l {S A B} (a : A) (f : A → M S B) st :
  bind (ret a) f st = f a st.
Proof. reflexivity. Qed.

Lemma query_filter_by_empty d q : query_filter_by d ∅ q = ret q.
Proof.
  unfold query_filter_by. rewrite bool_decide_eq_true_2 by set_solver.
  rewrite map_to_list_empty, app_nil_r. by destruct q.
Qed.

Lemma list_by_op_unfold d limit offset f :
  DAO.list_by_op d limit offset f =
  (let* q := query_filter_by d f session_query in
   fetch_detached d (paginate limit offset q)).
Proof. reflexivity. Qed.

Lemma list_by_order_by_op_unfold d ob limit offset f :
  DAO.list_by_order_by_op d ob limit offset f =
  (let* q := query_filter_by d f session_query in
   fetch_detached d (paginate limit offset (query_order_by ob q))).
Proof. reflexivity. Qed.

(** X3.  With no filter, [list_by] is [list]: the two methods return the
    same entities and leave the same state, for every limit and offset
    and in every state, also when they fail. *)
Theorem list_by_no_filter_is_list (d : dao) (limit offset : Z) (w : world) :
  DAO.list_by d limit offset ∅ w = DAO.list_ d limit offset w.
Proof.
  unfold DAO.list_by, DAO.list_.
  rewrite list_by_op_unfold, list_op_unfold, query_filter_by_empty.
  reflexivity.
Qed.


Lemma row_matches_filters (f r : attrs) q :
  q_criteria q = map_to_list f →
  row_matches q r = agrees f r.
Proof.
  intros Hq. unfold row_matches, agrees. rewrite Hq.
  apply Bool.eq_iff_eq_true. rewrite forallb_forall, bool_decide_eq_true.
  split.
  - intros H i x Hix.
    specialize (H (i, x)). cbn in H.
    eapply bool_decide_eq_true_1, H, list_elem_of_In.
    by apply elem_of_map_to_list.
  - intros H [i x] Hin. cbn. apply bool_decide_eq_true_2. apply H.
    by apply elem_of_map_to_list, list_elem_of_In.
Qed.

Lemma page_sublist limit offset rows : page limit offset rows `sublist_of` rows.
Proof.
  unfold page. repeat case_bool_decide; eauto using sublist_take, sublist_drop.
  etrans; [apply sublist_take|apply sublist_drop].
Qed.


Lemma select_filtered_sorted ob limit offset (f : attrs) t :
  select (paginate limit offset (Query (map_to_list f) (Some ob) None None)) t =
  page limit offset (sort_rows ob (List.filter (agrees f) t)).
Proof.
  unfold select, paginate, page.
  assert (Hf : ∀ q, q_criteria q = map_to_list f →
            List.filter (row_matches q) t = List.filter (agrees f) t).
  { intros q Hq. apply filter_ext. intros r. by apply row_matches_filters. }
  by repeat case_bool_decide; cbn; rewrite Hf.
Qed.

Lemma list_filter_sublist {A} (p : A → bool) (l : list A) :
  List.filter p l `sublist_of` l.
Proof.
  induction l as [|x l IH]; cbn; [done|].
  destruct (p x); by constructor.
Qed.

Lemma table_wf_perm d t t' : t' ≡ₚ t → table_wf d t → table_wf d t'.
Proof.
  intros Hp [Hall Hnd]. split.
  - by rewrite Hp.
  - by rewrite Hp.
Qed.

Lemma insert_sorted_perm le r l : insert_sorted le r l ≡ₚ r :: l.
Proof.
  induction l as [|x l IH]; cbn; [done|].
  destruct (le r x); [done|]. rewrite IH. apply Permutation_swap.
Qed.

Lemma sort_rows_perm le l : sort_rows le l ≡ₚ l.
Proof.
  unfold sort_rows. induction l as [|x l IH]; cbn; [done|].
  by rewrite insert_sorted_perm, IH.
Qed.

Lemma insert_sorted_ordered le r l :
  (∀ a b, le a b = true ∨ le b a = true) →
  (∀ a b c, le a b = true → le b c = true → le a c = true) →
  ordered le l → ordered le (insert_sorted le r l).
Proof.
  intros Htot Htrans. induction l as [|x l IH]; cbn; [done|].
  intros [Hx Hl]. destruct (le r x) eqn:Hrx; cbn.
  - split; [|done]. constructor; [done|].
    eapply Forall_impl; [exact Hx|]. intros y Hy. by eapply Htrans.
  - split; [|by apply IH].
    rewrite insert_sorted_perm. constructor; [|done].
    destruct (Htot r x) as [H|H]; [congruence|done].
Qed.

Lemma sort_rows_ordered le l :
  (∀ a b, le a b = true ∨ le b a = true) →
  (∀ a b c, le a b = true → le b c = true → le a c = true) →
  ordered le (sort_rows le l).
Proof.
  intros Htot Htrans. unfold sort_rows.
  induction l as [|x l IH]; cbn; [done|]. by apply insert_sorted_ordered.
Qed.

Lemma run_fetch_detached d (q : query) rows w :
  (checked_out w < max_connections d)%nat →
  select q (table w) = rows →
  table_wf d rows →
  DAO._run_in_session d (fetch_detached d q) w =
  (Ok (seq (length (heap w)) (length rows)),
   checkin (set_table (λ _, table w)
              (set_heap (λ h, h ++ rows) (issue SELECT (checkout w))))).
Proof.
  intros Hp Hsel [Hpk Hnd].
  eapply Forall_impl in Hpk; [|intros r Hr; exact (proj1 Hr)].
  erewrite run_in_session_Ok; [|done|].
  2:{ apply fetch_detached_fresh; cbn [table checkout set_pool_log set_checked_out];
        by rewrite Hsel. }
  by rewrite <- Hsel.
Qed.

Lemma query_filter_by_known d (f : attrs) :
  dom f ⊆ columns d →
  query_filter_by d f session_query = ret (Query (map_to_list f) None None None).
Proof.
  intros Hf. unfold query_filter_by. by rewrite bool_decide_eq_true_2.
Qed.



(** X5.  [list_by_order_by] sorts before it paginates: it returns the
    page of the matching rows put in the order asked for.  For an order
    that is total and transitive, what is paged is a rearrangement of the
    rows that agree with the filters in which every row is below all the
    rows after it. *)
Theorem list_by_order_by_sorted (d : dao) (le : attrs → attrs → bool)
    (limit offset : Z) (f : attrs) (w : world) :
  (checked_out w < max_connections d)%nat →
  table_wf d (table w) →
  dom f ⊆ columns d →
  (∀ a b, le a b = true ∨ le b a = true) →
  (∀ a b c, le a b = true → le b c = true → le a c = true) →
  ∃ os w' sorted,
    DAO.list_by_order_by d le limit offset f w = (Ok os, w')
    ∧ sorted ≡ₚ List.filter (agrees f) (table w)
    ∧ ordered le sorted
    ∧ entities w' os = Some <$> page limit offset sorted
    ∧ table w' = table w.
Proof.
  intros Hp Hwf Hf Htot Htrans.
  set (sorted := sort_rows le (List.filter (agrees f) (table w))).
  assert (Hwfs : table_wf d (page limit offset sorted)).
  { eapply table_wf_sublist; [apply page_sublist|].
    eapply table_wf_perm; [apply sort_rows_perm|].
    eapply table_wf_sublist; [apply list_filter_sublist|done]. }
  eexists _, _, sorted.
  split.
  { unfold DAO.list_by_order_by.
    rewrite list_by_order_by_op_unfold, query_filter_by_known by done.
    apply run_fetch_detached; [done|apply select_filtered_sorted|done]. }
  split; [apply sort_rows_perm|].
  split; [by apply sort_rows_ordered|].
  split; [by apply entities_loaded|done].
Qed.

Lemma list_by_order_by_sorted_witness :
  ∃ os w',
    DAO.list_by_order_by user_dao by_id_desc 2 0 ∅ users_world = (Ok os, w')
    ∧ entities w' os = [Some carol; Some bob].
Proof.
  destruct (list_by_order_by_sorted user_dao by_id_desc 2 0 ∅ users_world)
    as (os & w' & sorted & Hrun & _ & _ & Hent & _).
  - exact user_dao_pool_free.
  - exact users_world_wf.
  - apply (bool_decide_unpack _). by vm_compute.
  - intros a b. unfold by_id_desc. rewrite !Z.leb_le. lia.
  - intros a b c. unfold by_id_desc. rewrite !Z.leb_le. lia.
  - exists os, w'. split; [exact Hrun|].
    rewrite Hent.
    assert (Hos : (DAO.list_by_order_by user_dao by_id_desc 2 0 ∅ users_world).1
                  = Ok [0; 1]%nat) by (vm_compute; reflexivity).
    assert (Hh : heap (DAO.list_by_order_by user_dao by_id_desc 2 0 ∅ users_world).2
                 = [carol; bob]) by (vm_compute; reflexivity).
    rewrite Hrun in Hos, Hh. cbn [fst snd] in Hos, Hh.
    injection Hos as ->.
    pose proof Hent as Hent'. unfold entities in Hent'. rewrite Hh in Hent'.
    cbn in Hent'. symmetry. exact Hent'.
Defined.

(** ** [update] *)

Lemma update_absent d k (f : attrs) w :
  (checked_out w < max_connections d)%nat →
  find_row d k (table w) = None →
  DAO.update d k f w =
  (Ok None, checkin (set_table (λ _, table w) (issue SELECT (checkout w)))).
Proof.
  intros Hp Hk. unfold DAO.update.
  erewrite run_in_session_Ok; [|done|].
  2:{ apply update_write_absent. exact Hk. }
  reflexivity.
Qed.

Lemma update_updates d k (f r : attrs) w :
  well_configured d →
  (checked_out w < max_connections d)%nat →
  table_wf d (table w) →
  find_row d k (table w) = Some r →
  (∀ k', f !! model_pk d = Some k' → k' ≠ k → find_row d k' (table w) = None) →
  ∃ w', DAO.update d k f w = (Ok (Some (length (heap w))), w')
        ∧ heap w' = heap w ++ [f ∪ r]
        ∧ table w' = map (λ y, if has_key d k y then persisted d f ∪ r else y) (table w)
        ∧ sequence w' = sequence w
        ∧ checked_out w' = checked_out w.
Proof.
  intros [_ Hcol] Hp Hwf Hk Hfree.
  destruct (find_row_Some _ _ _ _ Hk) as [Hpk Hin].
  destruct (table_wf_row _ _ _ Hwf Hin) as [_ Hdom].
  destruct (update_write_present d k f r (checkout w) Hcol Hk Hdom Hfree)
    as (wr & sts & Hrun & Hcases).
  eexists. split.
  { unfold DAO.update. erewrite run_in_session_Ok; [reflexivity|done|exact Hrun]. }
  split; [done|]. split; [|done].
  cbn [table checkin set_pool_log set_checked_out set_table].
  destruct Hcases as [(-> & Heq & _)|(-> & _ & _)].
  - rewrite view_no_writes, Heq. cbn. symmetry. by apply replace_row_id.
  - by rewrite view_single.
Qed.

(** X6.  [update] of a key that has no row returns [None]; it reads
    once and writes nothing: the table, the key sequence and the heap
    are as before and the one statement issued is a SELECT. *)
Theorem update_absent_key (d : dao) (k : value) (f : attrs) (w : world) :
  (checked_out w < max_connections d)%nat →
  find_row d k (table w) = None →
  ∃ w', DAO.update d k f w = (Ok None, w')
        ∧ table w' = table w
        ∧ sequence w' = sequence w
        ∧ heap w' = heap w
        ∧ statements w' = statements w ++ [SELECT].
Proof.
  intros Hp Hk. eexists. split; [by apply update_absent|done].
Qed.

Lemma update_absent_key_witness :
  ∃ w', DAO.update user_dao (VInt 9) {[ "name" := VStr "zed" ]} users_world
        = (Ok None, w')
        ∧ table w' = [alice; bob; carol]
        ∧ statements w' = [SELECT].
Proof.
  destruct (update_absent_key user_dao (VInt 9) {[ "name" := VStr "zed" ]} users_world)
    as (w' & Hrun & Ht & _ & _ & Hs);
    [exact user_dao_pool_free|reflexivity|].
  exists w'. split; [exact Hrun|]. split; [exact Ht|exact Hs].
Defined.

(** X7.  [update] of a key that has a row is a partial update: when the
    store accepts the change (a key given in the fields is the row's own
    or is not taken), the row keeps its place in the table and its
    value in every column that is not among the fields, takes the given
    value in every column that is, and the other rows stay as they are.
    The entity returned is detached and carries all the fields given,
    also those that are not columns, over the attributes of the row. *)
Theorem update_partial (d : dao) (k : value) (f r : attrs) (w : world) :
  well_configured d →
  (checked_out w < max_connections d)%nat →
  table_wf d (table w) →
  find_row d k (table w) = Some r →
  (∀ k', f !! model_pk d = Some k' → k' ≠ k → find_row d k' (table w) = None) →
  ∃ o w' r',
    DAO.update d k f w = (Ok (Some o), w')
    ∧ heap w' !! o = Some (f ∪ r)
    ∧ table w' = map (λ y, if has_key d k y then r' else y) (table w)
    ∧ (∀ c, f !! c = None → r' !! c = r !! c)
    ∧ (∀ c v, c ∈ columns d → f !! c = Some v → r' !! c = Some v)
    ∧ dom r' ⊆ columns d
    ∧ sequence w' = sequence w.
Proof.
  intros Hd Hp Hwf Hk Hfree.
  destruct (update_updates d k f r w Hd Hp Hwf Hk Hfree)
    as (w' & Hrun & Hheap & Htable & Hseq & _).
  destruct (find_row_Some _ _ _ _ Hk) as [Hpk Hin].
  destruct (table_wf_row _ _ _ Hwf Hin) as [_ Hdom].
  exists (length (heap w)), w', (persisted d f ∪ r).
  split; [exact Hrun|].
  split; [rewrite Hheap; by apply list_lookup_middle|].
  split; [exact Htable|].
  split; [|split; [|split; [|exact Hseq]]].
  - intros c Hc. rewrite lookup_union_r; [done|].
    rewrite persisted_lookup. by destruct (decide _).
  - intros c v Hc Hv. apply lookup_union_Some_l.
    rewrite persisted_lookup. by rewrite decide_True.
  - rewrite dom_union. apply union_least; [|done].
    intros c Hc. apply elem_of_dom in Hc as [v Hv].
    rewrite persisted_lookup in Hv. by destruct (decide _).
Qed.

Lemma update_partial_witness :
  ∃ o w',
    DAO.update user_dao (VInt 2) {[ "name" := VStr "robert"; "nick" := VStr "rob" ]}
      users_world = (Ok (Some o), w')
    ∧ heap w' !! o = Some {[ "id" := VInt 2; "name" := VStr "robert";
                            "email" := VStr "b@x"; "nick" := VStr "rob" ]}
    ∧ table w' = [alice;
                  {[ "id" := VInt 2; "name" := VStr "robert"; "email" := VStr "b@x" ]};
                  carol].
Proof.
  destruct (update_partial user_dao (VInt 2)
              {[ "name" := VStr "robert"; "nick" := VStr "rob" ]} bob users_world)
    as (o & w' & r' & Hrun & Hheap & Htable & _).
  - exact user_dao_configured.
  - exact user_dao_pool_free.
  - exact users_world_wf.
  - reflexivity.
  - intros k' Hk'. by vm_compute in Hk'.
  - exists o, w'. split; [exact Hrun|].
    assert (Ht : table (DAO.update user_dao (VInt 2)
                   {[ "name" := VStr "robert"; "nick" := VStr "rob" ]} users_world).2
                 = [alice;
                    {[ "id" := VInt 2; "name" := VStr "robert"; "email" := VStr "b@x" ]};
                    carol]) by (vm_compute; reflexivity).
    rewrite Hrun in Ht. cbn [snd] in Ht.
    split; [|exact Ht].
    rewrite Hheap. reflexivity.
Defined.

(** ** [create] *)

Lemma session_flush_insert_taken d o a k r wr w :
  heap w !! o = Some a →
  a !! model_pk d = Some k →
  find_row d k (view d (Session wr [], w)) = Some r →
  session_flush d (Session wr [(o, Pending)], w) =
  (Raise IntegrityError, (Session wr [(o, Pending)], issue INSERT w)).
Proof.
  intros Ho Hk Htaken. unfold session_flush.
  mstep ltac:(reflexivity). cbn [fst identity flush_all].
  unfold flush_one. cbn [fst snd].
  erewrite bind_Raise; [reflexivity|].
  erewrite bind_Raise; [reflexivity|].
  mstep ltac:(unfold object_attrs; cbn [snd]; rewrite Ho; reflexivity).
  rewrite Hk.
  mstep ltac:(reflexivity). mstep ltac:(reflexivity).
  mstep ltac:(unfold gets; change (view d _) with (view d (Session wr [], w));
              rewrite Htaken; reflexivity).
  reflexivity.
Qed.

Lemma create_with_key d k (f : attrs) w :
  well_configured d →
  (checked_out w < max_connections d)%nat →
  dom f ⊆ columns d →
  f !! model_pk d = Some k →
  find_row d k (table w) = None →
  DAO.create d f w =
  (Ok (length (heap w)),
   checkin (set_table (λ _, table w ++ [f])
              (set_heap (λ h, h ++ [f])
                 (issue SELECT (issue INSERT (checkout w)))))).
Proof.
  intros [_ Hcol] Hp Hdom Hkey Hfree.
  assert (Hrun : DAO.create_write d f (new_session, checkout w) =
    (Ok (length (heap w)),
     (Session [WInsert f] [],
      set_heap (λ h, h ++ [f]) (issue SELECT (issue INSERT (checkout w)))))).
  { unfold DAO.create_write, new_session.
    mstep ltac:(unfold model_new; rewrite bool_decide_eq_true_2 by done; reflexivity).
    mstep ltac:(apply session_add_fresh).
    mstep ltac:(eapply (session_flush_insert d _ f k);
                [by apply list_lookup_middle|done|done]).
    rewrite persisted_id by done. rewrite (insert_id f _ _ Hkey).
    cbn [app sequence checkout set_pool_log set_checked_out].
    mstep ltac:(eapply (session_refresh_only d _ k f);
                rewrite view_single; cbn [apply_write];
                apply find_row_app; [done|done]).
    mstep ltac:(apply session_expunge_only).
    unfold ret. do 2 f_equal. world_eq.
    rewrite !alter_last. rewrite (insert_id f _ _ Hkey). by rewrite (idemp_L (∪)). }
  unfold DAO.create. rewrite (run_in_session_Ok d _ w _ _ _ Hp Hrun). reflexivity.
Qed.

Lemma create_key_taken d k (f r : attrs) w :
  (checked_out w < max_connections d)%nat →
  dom f ⊆ columns d →
  f !! model_pk d = Some k →
  find_row d k (table w) = Some r →
  DAO.create d f w =
  (Raise IntegrityError,
   checkin (issue INSERT (set_heap (λ h, h ++ [f]) (checkout w)))).
Proof.
  intros Hp Hdom Hkey Htaken.
  assert (Hrun : DAO.create_write d f (new_session, checkout w) =
    (Raise IntegrityError,
     (Session [] [(length (heap w), Pending)],
      issue INSERT (set_heap (λ h, h ++ [f]) (checkout w))))).
  { unfold DAO.create_write, new_session.
    mstep ltac:(unfold model_new; rewrite bool_decide_eq_true_2 by done; reflexivity).
    mstep ltac:(apply session_add_fresh).
    erewrite bind_Raise; [reflexivity|].
    eapply (session_flush_insert_taken d _ f k r);
      [by apply list_lookup_middle|done|done]. }
  unfold DAO.create. rewrite (run_in_session_Raise d _ w _ _ Hp Hrun). reflexivity.
Qed.

(** X8.  [create] inserts one row made of the given fields and returns
    it as an entity.  The key comes from the sequence of the store
    exactly when the fields give none; a key given in the fields is
    used as it is and the sequence is left alone.  When the key given
    is taken, the call raises the integrity error of the store, and the
    table and the sequence are as before. *)
Theorem create_inserts (d : dao) (f : attrs) (w : world) :
  well_configured d →
  (checked_out w < max_connections d)%nat →
  dom f ⊆ columns d →
  (f !! model_pk d = None →
   find_row d (VInt (sequence w)) (table w) = None →
   let row := <[model_pk d := VInt (sequence w)]> f in
   ∃ o w', DAO.create d f w = (Ok o, w')
           ∧ heap w' !! o = Some row
           ∧ table w' = table w ++ [row]
           ∧ sequence w' = sequence w + 1)
  ∧ (∀ k, f !! model_pk d = Some k →
     find_row d k (table w) = None →
     ∃ o w', DAO.create d f w = (Ok o, w')
             ∧ heap w' !! o = Some f
             ∧ table w' = table w ++ [f]
             ∧ sequence w' = sequence w)
  ∧ (∀ k r, f !! model_pk d = Some k →
     find_row d k (table w) = Some r →
     ∃ w', DAO.create d f w = (Raise IntegrityError, w')
           ∧ table w' = table w
           ∧ sequence w' = sequence w
           ∧ checked_out w' = checked_out w).
Proof.
  intros Hd Hp Hdom. split; [|split].
  - intros Hnokey Hfree row.
    eexists _, _. split; [by apply create_autogenerates_key|].
    split; [by apply list_lookup_middle|]. split; reflexivity.
  - intros k Hkey Hfree.
    eexists _, _. split; [by eapply create_with_key|].
    split; [by apply list_lookup_middle|]. split; reflexivity.
  - intros k r Hkey Htaken.
    eexists. split; [by eapply create_key_taken|].
    split; [reflexivity|]. split; reflexivity.
Qed.

Lemma create_inserts_witness :
  (∃ o w', DAO.create user_dao {[ "name" := VStr "dave" ]} users_world = (Ok o, w')
           ∧ table w' = [alice; bob; carol; {[ "id" := VInt 4; "name" := VStr "dave" ]}]
           ∧ sequence w' = 5)
  ∧ (∃ w', DAO.create user_dao {[ "id" := VInt 2; "name" := VStr "dave" ]} users_world
           = (Raise IntegrityError, w')
           ∧ table w' = [alice; bob; carol]).
Proof.
  split.
  - destruct (create_inserts user_dao {[ "name" := VStr "dave" ]} users_world)
      as [Hauto _].
    + exact user_dao_configured.
    + exact user_dao_pool_free.
    + apply (bool_decide_unpack _). by vm_compute.
    + destruct Hauto as (o & w' & Hrun & _ & Ht & Hs); [reflexivity|reflexivity|].
      exists o, w'. split; [exact Hrun|]. split; [exact Ht|exact Hs].
  - destruct (create_inserts user_dao {[ "id" := VInt 2; "name" := VStr "dave" ]}
                users_world) as (_ & _ & Htaken).
    + exact user_dao_configured.
    + exact user_dao_pool_free.
    + apply (bool_decide_unpack _). by vm_compute.
    + destruct (Htaken (VInt 2) bob) as (w' & Hrun & Ht & _);
        [reflexivity|reflexivity|].
      exists w'. split; [exact Hrun|exact Ht].
Defined.

(** ** Reading back what was written *)

Lemma create_row d (f : attrs) w :
  well_configured d →
  (checked_out w < max_connections d)%nat →
  dom f ⊆ columns d →
  let key := default (VInt (sequence w)) (f !! model_pk d) in
  find_row d key (table w) = None →
  let row := <[model_pk d := key]> f in
  ∃ w', DAO.create d f w = (Ok (length (heap w)), w')
        ∧ heap w' = heap w ++ [row]
        ∧ table w' = table w ++ [row]
        ∧ checked_out w' = checked_out w.
Proof.
  intros Hd Hp Hdom key Hfree row. subst key row.
  destruct (f !! model_pk d) as [k|] eqn:Hk; cbn [default] in *.
  - rewrite (insert_id f _ _ Hk).
    eexists. split; [by eapply create_with_key|done].
  - eexists. split; [by apply create_autogenerates_key|done].
Qed.

(** X9.  What [create] stored is what [get] returns: [get] of the key of
    the new row succeeds, and the entity it returns is a new object, not
    the one [create] returned, that carries the same attributes. *)
Theorem create_then_get (d : dao) (f : attrs) (w : world) :
  well_configured d →
  (checked_out w < max_connections d)%nat →
  dom f ⊆ columns d →
  let key := default (VInt (sequence w)) (f !! model_pk d) in
  find_row d key (table w) = None →
  ∃ o w1 o' w2,
    DAO.create d f w = (Ok o, w1)
    ∧ DAO.get d key w1 = (Ok (Some o'), w2)
    ∧ o' ≠ o
    ∧ heap w1 !! o = Some (<[model_pk d := key]> f)
    ∧ heap w2 !! o' = heap w1 !! o
    ∧ heap w2 !! o = heap w1 !! o
    ∧ table w2 = table w1.
Proof.
  intros Hd Hp Hdom key Hfree.
  destruct (create_row d f w Hd Hp Hdom Hfree) as (w1 & Hrun & Hheap & Htable & Hco).
  assert (Hfind : find_row d key (table w1) = Some (<[model_pk d := key]> f)).
  { rewrite Htable. apply find_row_app; [done|]. apply lookup_insert_eq. }
  assert (Hp1 : (checked_out w1 < max_connections d)%nat) by (by rewrite Hco).
  eexists _, w1, _, _. split; [exact Hrun|].
  split; [exact (get_present d key _ w1 Hp1 Hfind)|].
  cbn [heap checkin set_pool_log set_checked_out set_table set_heap issue
       set_statements checkout].
  rewrite Hheap, length_app. cbn [length].
  split; [lia|].
  split; [by apply list_lookup_middle|].
  split.
  - rewrite (list_lookup_middle (heap w ++ [_]) [] _ (length (heap w) + 1));
      [|by rewrite length_app].
    symmetry. by apply list_lookup_middle.
  - split; [|done].
    rewrite lookup_app_l; [done|]. rewrite length_app. cbn. lia.
Qed.

Lemma create_then_get_witness :
  ∃ o w1 o' w2,
    DAO.create user_dao {[ "name" := VStr "dave" ]} users_world = (Ok o, w1)
    ∧ DAO.get user_dao (VInt 4) w1 = (Ok (Some o'), w2)
    ∧ o' ≠ o
    ∧ heap w2 !! o' = Some {[ "id" := VInt 4; "name" := VStr "dave" ]}.
Proof.
  destruct (create_then_get user_dao {[ "name" := VStr "dave" ]} users_world)
    as (o & w1 & o' & w2 & Hc & Hg & Hne & Ho & Ho' & _).
  - exact user_dao_configured.
  - exact user_dao_pool_free.
  - apply (bool_decide_unpack _). by vm_compute.
  - reflexivity.
  - exists o, w1, o', w2. split; [exact Hc|]. split; [exact Hg|].
    split; [exact Hne|]. rewrite Ho', Ho. reflexivity.
Defined.

Lemma updated_row_key d k (f r : attrs) :
  model_pk d ∈ columns d →
  r !! model_pk d = Some k →
  (persisted d f ∪ r) !! model_pk d = Some (default k (f !! model_pk d)).
Proof.
  intros Hcol Hr.
  destruct (f !! model_pk d) as [k'|] eqn:Hf; cbn [default].
  - apply lookup_union_Some_l. rewrite persisted_lookup. by rewrite decide_True.
  - rewrite lookup_union_r; [done|]. rewrite persisted_lookup. by rewrite decide_True.
Qed.

Lemma persisted_union d (f r : attrs) :
  dom r ⊆ columns d → persisted d (f ∪ r) = persisted d f ∪ r.
Proof.
  intros Hdom. apply map_eq. intros c.
  rewrite persisted_lookup, !lookup_union, persisted_lookup.
  destruct (decide (c ∈ columns d)) as [Hc|Hc]; [done|].
  assert (r !! c = None) as ->; [|done].
  apply not_elem_of_dom. set_solver.
Qed.

(** X10.  What [update] stored is what [get] returns, column for
    column: after [update] of a row, [get] of the key the row now has
    returns a new entity whose attributes are the columns of the
    entity [update] returned.  An attribute set by [update] that is not
    a column is on the entity [update] returned only. *)
Theorem update_then_get (d : dao) (k : value) (f r : attrs) (w : world) :
  well_configured d →
  (checked_out w < max_connections d)%nat →
  table_wf d (table w) →
  find_row d k (table w) = Some r →
  (∀ k', f !! model_pk d = Some k' → k' ≠ k → find_row d k' (table w) = None) →
  let key := default k (f !! model_pk d) in
  ∃ o w1 o' w2 a,
    DAO.update d k f w = (Ok (Some o), w1)
    ∧ DAO.get d key w1 = (Ok (Some o'), w2)
    ∧ o' ≠ o
    ∧ heap w1 !! o = Some a
    ∧ heap w2 !! o' = Some (persisted d a)
    ∧ (∀ c v, c ∉ columns d → f !! c = Some v →
         a !! c = Some v ∧ persisted d a !! c = None).
Proof.
  intros Hd Hp Hwf Hk Hfree key.
  destruct (update_updates d k f r w Hd Hp Hwf Hk Hfree)
    as (w1 & Hrun & Hheap & Htable & _ & Hco).
  destruct (find_row_Some _ _ _ _ Hk) as [Hpk Hin].
  destruct (table_wf_row _ _ _ Hwf Hin) as [_ Hdom].
  destruct Hd as [Hname Hcol].
  assert (Hfind : find_row d key (table w1) = Some (persisted d f ∪ r)).
  { rewrite Htable. apply find_row_replace with (r := r); [done| |].
    - by apply updated_row_key.
    - subst key. destruct (f !! model_pk d) as [k'|] eqn:Hf; cbn [default].
      + intros Hne. by apply Hfree.
      + done. }
  assert (Hp1 : (checked_out w1 < max_connections d)%nat) by (by rewrite Hco).
  eexists _, w1, _, _, (f ∪ r). split; [exact Hrun|].
  split; [exact (get_present d key _ w1 Hp1 Hfind)|].
  cbn [heap checkin set_pool_log set_checked_out set_table set_heap issue
       set_statements checkout].
  rewrite Hheap, length_app. cbn [length].
  split; [lia|].
  split; [by apply list_lookup_middle|].
  split.
  - rewrite (list_lookup_middle (heap w ++ [_]) [] _ (length (heap w) + 1));
      [|by rewrite length_app].
    by rewrite persisted_union.
  - intros c v Hc Hv. split.
    + by apply lookup_union_Some_l.
    + rewrite persisted_lookup. by rewrite decide_False.
Qed.

Lemma update_then_get_witness :
  ∃ o w1 o' w2,
    DAO.update user_dao (VInt 2) {[ "name" := VStr "robert"; "nick" := VStr "rob" ]}
      users_world = (Ok (Some o), w1)
    ∧ DAO.get user_dao (VInt 2) w1 = (Ok (Some o'), w2)
    ∧ heap w1 !! o = Some {[ "id" := VInt 2; "name" := VStr "robert";
                            "email" := VStr "b@x"; "nick" := VStr "rob" ]}
    ∧ heap w2 !! o' = Some {[ "id" := VInt 2; "name" := VStr "robert";
                             "email" := VStr "b@x" ]}.
Proof.
  destruct (update_then_get user_dao (VInt 2)
              {[ "name" := VStr "robert"; "nick" := VStr "rob" ]} bob users_world)
    as (o & w1 & o' & w2 & a & Hu & Hg & _ & Ho & Ho' & _).
  - exact user_dao_configured.
  - exact user_dao_pool_free.
  - exact users_world_wf.
  - reflexivity.
  - intros k' Hk'. by vm_compute in Hk'.
  - exists o, w1, o', w2. split; [exact Hu|]. split; [exact Hg|].
    assert (Hv : (let r := DAO.update user_dao (VInt 2)
                     {[ "name" := VStr "robert"; "nick" := VStr "rob" ]} users_world in
                  match r.1 with
                  | Ok (Some o) => heap r.2 !! o
                  | _ => None
                  end) = Some {[ "id" := VInt 2; "name" := VStr "robert";
                                 "email" := VStr "b@x"; "nick" := VStr "rob" ]})
      by (vm_compute; reflexivity).
    cbv zeta in Hv. rewrite Hu in Hv. cbn [fst snd] in Hv.
    rewrite Ho in Hv. injection Hv as ->.
    split; [exact Ho|]. rewrite Ho'. reflexivity.
Defined.

(** X11.  A deleted row is gone for every read: after [delete] of a key
    that had a row, [get] and [exists] of that key return [None] and
    [update] of that key returns [None], while the rows of the other
    keys are found as before. *)
Theorem delete_then_read (d : dao) (k : value) (r : attrs) (w : world) :
  well_configured d →
  (checked_out w < max_connections d)%nat →
  find_row d k (table w) = Some r →
  ∃ w1,
    DAO.delete d k w = (Ok true, w1)
    ∧ (DAO.get d k w1).1 = Ok None
    ∧ (DAO.exists_ d k w1).1 = Ok None
    ∧ (∀ f, (DAO.update d k f w1).1 = Ok None)
    ∧ (∀ k', k' ≠ k → find_row d k' (table w1) = find_row d k' (table w)).
Proof.
  intros Hd Hp Hk.
  eexists. split; [by eapply delete_present|].
  set (w1 := checkin _).
  assert (Hp1 : (checked_out w1 < max_connections d)%nat) by exact Hp.
  assert (Hgone : find_row d k (table w1) = None) by apply find_row_filter_out.
  split; [by rewrite get_absent|].
  split.
  { unfold DAO.exists_.
    erewrite run_in_session_Ok; [reflexivity|done|].
    by apply exists_op_miss. }
  split; [intros f; by rewrite update_absent|].
  intros k' Hne. by apply find_row_filter_other.
Qed.

Lemma delete_then_read_witness :
  ∃ w1,
    DAO.delete user_dao (VInt 2) users_world = (Ok true, w1)
    ∧ (DAO.get user_dao (VInt 2) w1).1 = Ok None
    ∧ table w1 = [alice; carol].
Proof.
  destruct (delete_then_read user_dao (VInt 2) bob users_world)
    as (w1 & Hd & Hg & _);
    [exact user_dao_configured|exact user_dao_pool_free|reflexivity|].
  exists w1. split; [exact Hd|]. split; [exact Hg|].
  assert (Ht : table (DAO.delete user_dao (VInt 2) users_world).2 = [alice; carol])
    by (vm_compute; reflexivity).
  rewrite Hd in Ht. exact Ht.
Defined.

(** ** What a callable running in a session does not depend on *)

Lemma with_env_self w : with_env w w = w.
Proof. by destruct w. Qed.

Lemma with_env_store w0 w : store w0 = store w → with_env w0 w = w0.
Proof. destruct w0, w. unfold store; cbn. by intros [= -> -> -> ->]. Qed.

Lemma eb_ret {A} (a : A) : env_blind (ret a).
Proof. by intros s w w0. Qed.

Lemma eb_raise {A} e : env_blind (@raise _ A e).
Proof. by intros s w w0. Qed.

Lemma eb_gets {A} (f : session * world → A) :
  (∀ s w w0, f (s, with_env w0 w) = f (s, w)) → env_blind (gets f).
Proof. intros H s w w0. unfold gets. cbn. by rewrite H. Qed.

Lemma eb_modify f :
  (∀ s w w0, f (s, with_env w0 w) = ((f (s, w)).1, with_env w0 (f (s, w)).2)) →
  env_blind (modify f).
Proof. intros H s w w0. unfold modify. cbn. by rewrite H. Qed.

Lemma eb_bind {A B} (m : SM A) (f : A → SM B) :
  env_blind m → (∀ a, env_blind (f a)) → env_blind (bind m f).
Proof.
  intros Hm Hf s w w0. unfold bind. rewrite (Hm s w w0).
  destruct (m (s, w)) as [[a|e] [s1 w1]]; cbn [fst snd]; [|done].
  apply Hf.
Qed.

Lemma eb_mapM {A B} (f : A → SM B) l :
  (∀ a, env_blind (f a)) → env_blind (mapM f l).
Proof.
  intros Hf. induction l as [|a l IH]; cbn [mapM]; [apply eb_ret|].
  apply eb_bind; [done|]. intros b. apply eb_bind; [done|]. intros bs. apply eb_ret.
Qed.

Lemma eb_forM_ {A} (f : A → SM unit) l :
  (∀ a, env_blind (f a)) → env_blind (forM_ f l).
Proof.
  intros Hf. induction l as [|a l IH]; cbn [forM_]; [apply eb_ret|].
  apply eb_bind; [done|]. by intros _.
Qed.

Lemma eb_setattr o key v : env_blind (liftW (setattr o key v)).
Proof. by intros s w w0. Qed.

Lemma eb_set_heap g : env_blind (liftW (modify (set_heap g))).
Proof. by intros s w w0. Qed.

Lemma eb_alloc a : env_blind (alloc a).
Proof. by intros s w w0. Qed.

Lemma eb_object_attrs o : env_blind (object_attrs o).
Proof.
  intros s w w0. unfold object_attrs. cbn [snd heap with_env].
  by destruct (heap w !! o).
Qed.

Lemma eb_next_key : env_blind next_key.
Proof. by intros s w w0. Qed.

Create HintDb eb discriminated.

#[local] Hint Resolve eb_ret eb_raise eb_setattr eb_set_heap eb_alloc
  eb_object_attrs eb_next_key : eb.

Ltac eb_step :=
  match goal with
  | |- env_blind (bind _ _) => apply eb_bind; [|intros ?]
  | |- env_blind (mapM _ _) => apply eb_mapM; intros ?
  | |- env_blind (forM_ _ _) => apply eb_forM_; intros ?
  | |- env_blind (modify _) => apply eb_modify; by intros ? ? ?
  | |- env_blind (gets _) => apply eb_gets; by intros ? ? ?
  | |- env_blind (match ?t with _ => _ end) => destruct t
  | |- env_blind _ => solve [auto with eb | by intros ? ? ?]
  end.

Ltac eb := repeat eb_step.

Lemma eb_emit q : env_blind (emit q).
Proof. unfold emit. eb. Qed.
Lemma eb_add_write wr : env_blind (add_write wr).
Proof. unfold add_write. eb. Qed.
Lemma eb_set_identity ids : env_blind (set_identity ids).
Proof. unfold set_identity. eb. Qed.
Lemma eb_attach o st : env_blind (attach o st).
Proof. unfold attach. eb. Qed.
#[local] Hint Resolve eb_emit eb_add_write eb_set_identity eb_attach : eb.

Lemma eb_load_row d r : env_blind (load_row d r).
Proof. unfold load_row. eb. Qed.
#[local] Hint Resolve eb_load_row : eb.

Lemma eb_session_get d k : env_blind (session_get d k).
Proof. unfold session_get. eb. Qed.

Lemma eb_query_filter_by d f q : env_blind (query_filter_by d f q).
Proof. unfold query_filter_by. eb. Qed.

Lemma eb_query_all d q : env_blind (query_all d q).
Proof. unfold query_all. eb. Qed.
#[local] Hint Resolve eb_session_get eb_query_filter_by eb_query_all : eb.

Lemma eb_query_first d q : env_blind (query_first d q).
Proof. unfold query_first. eb. Qed.

Lemma eb_session_expunge o : env_blind (session_expunge o).
Proof. unfold session_expunge. eb. Qed.
#[local] Hint Resolve eb_query_first eb_session_expunge : eb.

Lemma eb_session_add o : env_blind (session_add o).
Proof. unfold session_add. eb. Qed.

Lemma eb_session_delete o : env_blind (session_delete o).
Proof. unfold session_delete. eb. Qed.

Lemma eb_flush_one d e : env_blind (flush_one d e).
Proof. unfold flush_one. eb. Qed.
#[local] Hint Resolve eb_session_add eb_session_delete eb_flush_one : eb.

Lemma eb_flush_all d ids : env_blind (flush_all d ids).
Proof. induction ids as [|e ids IH]; cbn [flush_all]; eb. Qed.
#[local] Hint Resolve eb_flush_all : eb.

Lemma eb_session_flush d : env_blind (session_flush d).
Proof. unfold session_flush. eb. Qed.

Lemma eb_session_refresh d o : env_blind (session_refresh d o).
Proof. unfold session_refresh. eb. Qed.

Lemma eb_model_new d f : env_blind (model_new d f).
Proof. unfold model_new. eb. Qed.

Lemma eb_get_pk_column d : env_blind (DAO._get_pk_column d).
Proof. unfold DAO._get_pk_column. eb. Qed.

Lemma eb_set_fields o f : env_blind (DAO.set_fields o f).
Proof. unfold DAO.set_fields. eb. Qed.
#[local] Hint Resolve eb_session_flush eb_session_refresh eb_model_new
  eb_get_pk_column eb_set_fields : eb.

Lemma eb_fetch_detached d q : env_blind (fetch_detached d q).
Proof. unfold fetch_detached. eb. Qed.
#[local] Hint Resolve eb_fetch_detached : eb.

Lemma eb_get_op d k : env_blind (DAO.get_op d k).
Proof. unfold DAO.get_op. eb. Qed.
Lemma eb_list_op d limit offset : env_blind (DAO.list_op d limit offset).
Proof. rewrite list_op_unfold. eb. Qed.
Lemma eb_list_by_op d limit offset f : env_blind (DAO.list_by_op d limit offset f).
Proof. unfold DAO.list_by_op. cbv zeta. eb. Qed.
Lemma eb_list_by_order_by_op d ob limit offset f :
  env_blind (DAO.list_by_order_by_op d ob limit offset f).
Proof. unfold DAO.list_by_order_by_op. cbv zeta. eb. Qed.
Lemma eb_exists_op d k : env_blind (DAO.exists_op d k).
Proof. unfold DAO.exists_op. eb. Qed.
Lemma eb_create_write d f : env_blind (DAO.create_write d f).
Proof. unfold DAO.create_write. eb. Qed.
Lemma eb_update_write d k f : env_blind (DAO.update_write d k f).
Proof. unfold DAO.update_write. eb. Qed.
Lemma eb_upsert_write d k f : env_blind (DAO.upsert_write d k f).
Proof. unfold DAO.upsert_write. eb. Qed.
Lemma eb_delete_write d k : env_blind (DAO.delete_write d k).
Proof. unfold DAO.delete_write. eb. Qed.

(** ** Fire-and-forget methods and their synchronous counterparts *)

Lemma run_in_session_with_env {A} d (fn : SM A) w w0 :
  env_blind fn →
  (checked_out w0 < max_connections d)%nat →
  (checked_out w < max_connections d)%nat →
  (DAO._run_in_session d fn (with_env w0 w)).1 = (DAO._run_in_session d fn w).1
  ∧ store (DAO._run_in_session d fn (with_env w0 w)).2
    = store (DAO._run_in_session d fn w).2.
Proof.
  intros Hfn Hp0 Hp.
  pose proof (run_in_session_cases d fn (with_env w0 w) Hp0) as H0.
  pose proof (run_in_session_cases d fn w Hp) as H1.
  change (checkout (with_env w0 w)) with (with_env (checkout w0) w) in H0.
  replace (checkout w) with (with_env (checkout w) w) in H1 by (by destruct w).
  rewrite (Hfn new_session w (checkout w0)) in H0.
  rewrite (Hfn new_session w (checkout w)) in H1.
  destruct (fn (new_session, w)) as [[a|e] [s1 w1]]; cbn [fst snd] in *.
  - rewrite (eb_session_flush d s1 w1 (checkout w0)) in H0.
    rewrite (eb_session_flush d s1 w1 (checkout w)) in H1.
    destruct (session_flush d (s1, w1)) as [[[]|e] [s2 w2]]; cbn [fst snd] in *;
      by rewrite H0, H1.
  - by rewrite H0, H1.
Qed.

Lemma get_bg_executor_with_env w :
  (DAO._get_bg_executor w).2 = with_env (DAO._get_bg_executor w).2 w.
Proof. symmetry. apply with_env_store, get_bg_executor_store. Qed.

(** A callable given to [_submit_background] that uses the session it
    is handed: the Future holds what [_run_in_session] returns for it. *)
Lemma submit_background_as_run {A} d (fn : SM A) w :
  env_blind fn →
  (DAO._submit_background d fn w).1 = Ok (DAO._run_in_session d fn w).1
  ∧ store (DAO._submit_background d fn w).2 = store (DAO._run_in_session d fn w).2.
Proof.
  intros Hfn.
  destruct (submit_background_outcome d fn w) as [Hres Hst]. cbv zeta in Hres, Hst.
  rewrite Hres, Hst. clear Hres Hst.
  pose proof (proj2 (get_bg_executor_pool w)) as Hco.
  destruct (decide (checked_out w < max_connections d)%nat) as [Hp|Hp].
  - rewrite get_bg_executor_with_env.
    destruct (run_in_session_with_env d fn w (DAO._get_bg_executor w).2 Hfn)
      as [-> ->]; [by rewrite Hco|done|done].
  - rewrite !run_in_session_exhausted; [|done|by rewrite Hco].
    split; [done|]. apply get_bg_executor_store.
Qed.

(** X12.  [create_ff] and [delete_ff] do in the background what
    [create] and [delete] do: in every state, the Future holds the value
    the synchronous method returns, or the exception it raises, and the
    table, the key sequence, the statements issued and the heap are left
    as the synchronous method leaves them. *)
Theorem ff_as_sync (d : dao) (w : world) :
  (∀ f, (DAO.create_ff d f w).1 = Ok (DAO.create d f w).1
        ∧ store (DAO.create_ff d f w).2 = store (DAO.create d f w).2)
  ∧ (∀ k, (DAO.delete_ff d k w).1 = Ok (DAO.delete d k w).1
          ∧ store (DAO.delete_ff d k w).2 = store (DAO.delete d k w).2).
Proof.
  split.
  - intros f. apply submit_background_as_run, eb_create_write.
  - intros k. apply submit_background_as_run, eb_delete_write.
Qed.

Lemma checkout_with_env w1 w :
  store w1 = store w → checkout w1 = with_env (checkout w1) w.
Proof. intros H. symmetry. by apply with_env_store. Qed.

(** A callable that ignores its session and calls a synchronous method:
    the method runs while the session of the job is checked out. *)
Lemma submit_background_nested {A} d (fn : SM A) w :
  env_blind fn →
  (checked_out w < max_connections d)%nat →
  let inner := DAO._run_in_session d fn (checkout (DAO._get_bg_executor w).2) in
  (DAO._submit_background d (liftW (DAO._run_in_session d fn)) w).1 = Ok inner.1
  ∧ store (DAO._submit_background d (liftW (DAO._run_in_session d fn)) w).2
    = store inner.2.
Proof.
  intros Hfn Hp inner.
  destruct (submit_background_outcome d (liftW (DAO._run_in_session d fn)) w)
    as [Hres Hst]. cbv zeta in Hres, Hst.
  rewrite Hres, Hst. clear Hres Hst.
  pose proof (proj2 (get_bg_executor_pool w)) as Hco.
  destruct (run_in_session_liftW d (DAO._run_in_session d fn)
              (DAO._get_bg_executor w).2) as [-> ->]; [by rewrite Hco|done].
Qed.

Lemma nested_as_run {A} d (fn : SM A) w :
  env_blind fn →
  (S (checked_out w) < max_connections d)%nat →
  (DAO._submit_background d (liftW (DAO._run_in_session d fn)) w).1
    = Ok (DAO._run_in_session d fn w).1
  ∧ store (DAO._submit_background d (liftW (DAO._run_in_session d fn)) w).2
    = store (DAO._run_in_session d fn w).2.
Proof.
  intros Hfn Hp.
  destruct (submit_background_nested d fn w Hfn) as [-> ->]; [lia|].
  pose proof (proj2 (get_bg_executor_pool w)) as Hco.
  rewrite (checkout_with_env (DAO._get_bg_executor w).2 w)
    by apply get_bg_executor_store.
  destruct (run_in_session_with_env d fn w (checkout (DAO._get_bg_executor w).2) Hfn)
    as [-> ->]; [cbn; rewrite Hco; lia|lia|done].
Qed.

Lemma nested_exhausted {A} d (fn : SM A) w :
  env_blind fn →
  S (checked_out w) = max_connections d →
  (DAO._submit_background d (liftW (DAO._run_in_session d fn)) w).1
    = Ok (Raise PoolExhausted)
  ∧ store (DAO._submit_background d (liftW (DAO._run_in_session d fn)) w).2
    = store w.
Proof.
  intros Hfn Hp.
  destruct (submit_background_nested d fn w Hfn) as [-> ->]; [lia|].
  pose proof (proj2 (get_bg_executor_pool w)) as Hco.
  rewrite run_in_session_exhausted by (cbn; rewrite Hco; lia).
  split; [done|]. apply get_bg_executor_store.
Qed.

(** X13.  [update_ff] and [upsert_ff] give the result of [update] and
    [upsert] provided the pool can hand out two sessions: then the
    Future holds what the synchronous method returns or raises, and the
    store and the heap are left as the synchronous method leaves
    them. *)
Theorem delegating_ff_as_sync (d : dao) (k : value) (f : attrs) (w : world) :
  (S (checked_out w) < max_connections d)%nat →
  ((DAO.update_ff d k f w).1 = Ok (DAO.update d k f w).1
   ∧ store (DAO.update_ff d k f w).2 = store (DAO.update d k f w).2)
  ∧ ((DAO.upsert_ff d k f w).1 = Ok (DAO.upsert d k f w).1
     ∧ store (DAO.upsert_ff d k f w).2 = store (DAO.upsert d k f w).2).
Proof.
  intros Hp. split.
  - apply (nested_as_run d (DAO.update_write d k f) w); [apply eb_update_write|done].
  - apply (nested_as_run d (DAO.upsert_write d k f) w); [apply eb_upsert_write|done].
Qed.

Lemma delegating_ff_as_sync_witness :
  (DAO.update_ff user_dao (VInt 2) {[ "name" := VStr "robert" ]} users_world).1
  = Ok (DAO.update user_dao (VInt 2) {[ "name" := VStr "robert" ]} users_world).1
  ∧ table (DAO.update_ff user_dao (VInt 2) {[ "name" := VStr "robert" ]} users_world).2
    = [alice; {[ "id" := VInt 2; "name" := VStr "robert"; "email" := VStr "b@x" ]}; carol].
Proof.
  destruct (delegating_ff_as_sync user_dao (VInt 2) {[ "name" := VStr "robert" ]}
              users_world) as [[Hres Hst] _]; [cbn; lia|].
  split; [exact Hres|].
  apply table_of_store in Hst. rewrite Hst. vm_compute. reflexivity.
Defined.


(** ** The pool error *)

Lemma ro_ret {A} (a : A) : raises_only store_error (ret a).
Proof. by intros x e. Qed.

Lemma ro_raise {A} e : store_error e → raises_only store_error (@raise _ A e).
Proof. intros He x e' [= <-]. exact He. Qed.

Lemma ro_gets {A} (f : session * world → A) : raises_only store_error (gets f).
Proof. by intros x e. Qed.

Lemma ro_modify f : raises_only store_error (modify f).
Proof. by intros x e. Qed.

Lemma ro_bind {A B} (m : SM A) (f : A → SM B) :
  raises_only store_error m → (∀ a, raises_only store_error (f a)) →
  raises_only store_error (bind m f).
Proof.
  intros Hm Hf x e. unfold bind. specialize (Hm x).
  destruct (m x) as [[a|e'] x1]; cbn [fst] in *.
  - apply Hf.
  - intros [= <-]. by apply Hm.
Qed.

Lemma ro_mapM {A B} (f : A → SM B) l :
  (∀ a, raises_only store_error (f a)) → raises_only store_error (mapM f l).
Proof.
  intros Hf. induction l as [|a l IH]; cbn [mapM]; [apply ro_ret|].
  apply ro_bind; [done|]. intros b. apply ro_bind; [done|]. intros bs. apply ro_ret.
Qed.

Lemma ro_forM_ {A} (f : A → SM unit) l :
  (∀ a, raises_only store_error (f a)) → raises_only store_error (forM_ f l).
Proof.
  intros Hf. induction l as [|a l IH]; cbn [forM_]; [apply ro_ret|].
  apply ro_bind; [done|]. by intros _.
Qed.

Lemma ro_setattr o key v : raises_only store_error (liftW (setattr o key v)).
Proof. by intros x e. Qed.

Lemma ro_set_heap g : raises_only store_error (liftW (modify (set_heap g))).
Proof. by intros x e. Qed.

Lemma ro_alloc a : raises_only store_error (alloc a).
Proof. by intros x e. Qed.

Lemma ro_object_attrs o : raises_only store_error (object_attrs o).
Proof.
  intros x e. unfold object_attrs. destruct (heap x.2 !! o); [done|].
  by intros [= <-].
Qed.

Lemma ro_next_key : raises_only store_error next_key.
Proof. by intros x e. Qed.

Create HintDb ro discriminated.

#[local] Hint Resolve ro_ret ro_gets ro_modify ro_setattr ro_set_heap ro_alloc
  ro_object_attrs ro_next_key : ro.

Ltac ro_step :=
  match goal with
  | |- raises_only _ (bind _ _) => apply ro_bind; [|intros ?]
  | |- raises_only _ (mapM _ _) => apply ro_mapM; intros ?
  | |- raises_only _ (forM_ _ _) => apply ro_forM_; intros ?
  | |- raises_only _ (raise _) => apply ro_raise; discriminate
  | |- raises_only _ (match ?t with _ => _ end) => destruct t
  | |- raises_only _ _ => solve [auto with ro]
  end.

Ltac ro := repeat ro_step.

Lemma ro_emit q : raises_only store_error (emit q).
Proof. unfold emit. ro. Qed.
Lemma ro_add_write wr : raises_only store_error (add_write wr).
Proof. unfold add_write. ro. Qed.
Lemma ro_set_identity ids : raises_only store_error (set_identity ids).
Proof. unfold set_identity. ro. Qed.
Lemma ro_attach o st : raises_only store_error (attach o st).
Proof. unfold attach. ro. Qed.
#[local] Hint Resolve ro_emit ro_add_write ro_set_identity ro_attach : ro.

Lemma ro_load_row d r : raises_only store_error (load_row d r).
Proof. unfold load_row. ro. Qed.
#[local] Hint Resolve ro_load_row : ro.

Lemma ro_session_get d k : raises_only store_error (session_get d k).
Proof. unfold session_get. ro. Qed.

Lemma ro_query_filter_by d f q : raises_only store_error (query_filter_by d f q).
Proof. unfold query_filter_by. ro. Qed.

Lemma ro_query_all d q : raises_only store_error (query_all d q).
Proof. unfold query_all. ro. Qed.
#[local] Hint Resolve ro_session_get ro_query_filter_by ro_query_all : ro.

Lemma ro_query_first d q : raises_only store_error (query_first d q).
Proof. unfold query_first. ro. Qed.

Lemma ro_session_expunge o : raises_only store_error (session_expunge o).
Proof. unfold session_expunge. ro. Qed.
#[local] Hint Resolve ro_query_first ro_session_expunge : ro.

Lemma ro_session_add o : raises_only store_error (session_add o).
Proof. unfold session_add. ro. Qed.

Lemma ro_session_delete o : raises_only store_error (session_delete o).
Proof. unfold session_delete. ro. Qed.

Lemma ro_flush_one d e : raises_only store_error (flush_one d e).
Proof. unfold flush_one. ro. Qed.
#[local] Hint Resolve ro_session_add ro_session_delete ro_flush_one : ro.

Lemma ro_flush_all d ids : raises_only store_error (flush_all d ids).
Proof. induction ids as [|e ids IH]; cbn [flush_all]; ro. Qed.
#[local] Hint Resolve ro_flush_all : ro.

Lemma ro_session_flush d : raises_only store_error (session_flush d).
Proof. unfold session_flush. ro. Qed.

Lemma ro_session_refresh d o : raises_only store_error (session_refresh d o).
Proof. unfold session_refresh. ro. Qed.

Lemma ro_model_new d f : raises_only store_error (model_new d f).
Proof. unfold model_new. ro. Qed.

Lemma ro_get_pk_column d : raises_only store_error (DAO._get_pk_column d).
Proof. unfold DAO._get_pk_column. ro. Qed.

Lemma ro_set_fields o f : raises_only store_error (DAO.set_fields o f).
Proof. unfold DAO.set_fields. ro. Qed.
#[local] Hint Resolve ro_session_flush ro_session_refresh ro_model_new
  ro_get_pk_column ro_set_fields : ro.

Lemma ro_fetch_detached d q : raises_only store_error (fetch_detached d q).
Proof. unfold fetch_detached. ro. Qed.
#[local] Hint Resolve ro_fetch_detached : ro.

Lemma ro_get_op d k : raises_only store_error (DAO.get_op d k).
Proof. unfold DAO.get_op. ro. Qed.
Lemma ro_list_op d limit offset : raises_only store_error (DAO.list_op d limit offset).
Proof. rewrite list_op_unfold. ro. Qed.
Lemma ro_list_by_op d limit offset f :
  raises_only store_error (DAO.list_by_op d limit offset f).
Proof. unfold DAO.list_by_op. cbv zeta. ro. Qed.
Lemma ro_list_by_order_by_op d ob limit offset f :
  raises_only store_error (DAO.list_by_order_by_op d ob limit offset f).
Proof. unfold DAO.list_by_order_by_op. cbv zeta. ro. Qed.
Lemma ro_exists_op d k : raises_only store_error (DAO.exists_op d k).
Proof. unfold DAO.exists_op. ro. Qed.
Lemma ro_create_write d f : raises_only store_error (DAO.create_write d f).
Proof. unfold DAO.create_write. ro. Qed.
Lemma ro_update_write d k f : raises_only store_error (DAO.update_write d k f).
Proof. unfold DAO.update_write. ro. Qed.
Lemma ro_upsert_write d k f : raises_only store_error (DAO.upsert_write d k f).
Proof. unfold DAO.upsert_write. ro. Qed.
Lemma ro_delete_write d k : raises_only store_error (DAO.delete_write d k).
Proof. unfold DAO.delete_write. ro. Qed.

(** A unit of work raises the pool error exactly when the pool has no
    session left for it. *)
Lemma run_in_session_pool_error {A} d (fn : SM A) w :
  raises_only store_error fn →
  (DAO._run_in_session d fn w).1 = Raise PoolExhausted
  ↔ ¬ (checked_out w < max_connections d)%nat.
Proof.
  intros Hfn. split.
  - intros Hr Hp. pose proof (run_in_session_cases d fn w Hp) as Hrun.
    pose proof (Hfn (new_session, checkout w)) as Hfn'.
    destruct (fn (new_session, checkout w)) as [[a|e] x]; cbn [fst] in *.
    + pose proof (ro_session_flush d x) as Hfl.
      destruct (session_flush d x) as [[[]|e] x']; rewrite Hrun in Hr;
        cbn [fst] in *; [done|].
      injection Hr as ->. exact (Hfl PoolExhausted eq_refl eq_refl).
    + rewrite Hrun in Hr. cbn [fst] in Hr. exact (Hfn' PoolExhausted Hr eq_refl).
  - intros Hp. by rewrite run_in_session_exhausted.
Qed.

Lemma sync_call_pool_error d c w :
  is_ff c = false →
  call_failure d c w = Some PoolExhausted
  ↔ ¬ (checked_out w < max_connections d)%nat.
Proof.
  assert (Hraised : ∀ A (r : result A), raised r = Some PoolExhausted
                                        ↔ r = Raise PoolExhausted).
  { intros A [a|e]; cbn; split; congruence. }
  intros Hc. destruct c; try discriminate Hc; cbn [call_failure];
    rewrite Hraised; apply run_in_session_pool_error;
    auto using ro_get_op, ro_list_op, ro_list_by_op, ro_list_by_order_by_op,
      ro_exists_op, ro_create_write, ro_update_write, ro_upsert_write,
      ro_delete_write.
Qed.

Lemma nested_pool_error {A} d (fn : SM A) w :
  env_blind fn → raises_only store_error fn →
  held (DAO._submit_background d (liftW (DAO._run_in_session d fn)) w).1
    = Some PoolExhausted
  ↔ ¬ (S (checked_out w) < max_connections d)%nat.
Proof.
  intros Heb Hro.
  destruct (decide (S (checked_out w) < max_connections d)%nat) as [Hp|Hp].
  - destruct (nested_as_run d fn w Heb Hp) as [-> _]. cbn [held].
    split; [|done]. intros Hr. exfalso.
    assert (Hpool : (checked_out w < max_connections d)%nat) by lia.
    apply (proj1 (run_in_session_pool_error d fn w Hro)); [|done].
    by destruct (fst _) as [a|e]; cbn in Hr; [|injection Hr as ->].
  - split; [done|intros _].
    destruct (decide (S (checked_out w) = max_connections d)) as [Heq|Hne].
    + by destruct (nested_exhausted d fn w Heb Heq) as [-> _].
    + destruct (submit_background_outcome d (liftW (DAO._run_in_session d fn)) w)
        as [-> _].
      rewrite run_in_session_exhausted; [done|].
      rewrite (proj2 (get_bg_executor_pool w)). lia.
Qed.

(** X14.  A call ends with the pool error exactly when the pool cannot
    hand out the sessions it needs, and that is one session for every
    method but [update_ff] and [upsert_ff], which need two: with a
    single session left those two fail where [update] and [upsert]
    called directly go through. *)
Theorem pool_error_iff (d : dao) (c : call) (w : world) :
  call_failure d c w = Some PoolExhausted
  ↔ (max_connections d < checked_out w + sessions_needed c)%nat.
Proof.
  assert (Hsimple : ∀ A (fn : SM A), env_blind fn → raises_only store_error fn →
            held (DAO._submit_background d fn w).1 = Some PoolExhausted
            ↔ (max_connections d < checked_out w + 1)%nat).
  { intros A fn Heb Hro.
    destruct (submit_background_as_run d fn w Heb) as [-> _]. cbn [held].
    pose proof (run_in_session_pool_error d fn w Hro) as Hiff.
    set (r := (DAO._run_in_session d fn w).1) in *.
    assert (Hr : raised r = Some PoolExhausted ↔ r = Raise PoolExhausted)
      by (destruct r; cbn; split; congruence).
    rewrite Hr, Hiff. lia. }
  destruct c; cbn [sessions_needed delegates_to_sync].
  1-9: rewrite sync_call_pool_error by done; lia.
  - apply Hsimple; [apply eb_create_write|apply ro_create_write].
  - cbn [call_failure]. unfold DAO.update_ff, DAO.update.
    rewrite nested_pool_error; [lia|apply eb_update_write|apply ro_update_write].
  - cbn [call_failure]. unfold DAO.upsert_ff, DAO.upsert.
    rewrite nested_pool_error; [lia|apply eb_upsert_write|apply ro_upsert_write].
  - apply Hsimple; [apply eb_delete_write|apply ro_delete_write].
Qed.

(** ** Well-formed tables stay well formed *)

Lemma find_row_None_key d k t :
  find_row d k t = None → Some k ∉ (λ r : attrs, r !! model_pk d) <$> t.
Proof.
  unfold find_row. intros Hnone Hin.
  apply list_elem_of_fmap in Hin as (r & Hk & Hin).
  apply list_elem_of_In in Hin.
  eapply find_none in Hnone; [|exact Hin].
  unfold has_key in Hnone. by rewrite bool_decide_eq_true_2 in Hnone.
Qed.

Lemma table_wf_insert d t k (r : attrs) :
  table_wf d t → find_row d k t = None →
  r !! model_pk d = Some k → dom r ⊆ columns d →
  table_wf d (t ++ [r]).
Proof.
  intros [Hall Hnd] Hfree Hk Hdom. split.
  - apply Forall_app. split; [done|]. apply Forall_singleton. by rewrite Hk.
  - rewrite fmap_app. apply NoDup_app. split; [done|]. split.
    + intros x Hx Hx'. cbn in Hx'. apply list_elem_of_singleton in Hx' as ->.
      rewrite Hk in Hx. by eapply find_row_None_key.
    + apply NoDup_singleton.
Qed.

Lemma table_wf_delete d t k :
  table_wf d t → table_wf d (List.filter (λ x, negb (has_key d k x)) t).
Proof. apply table_wf_sublist, list_filter_sublist. Qed.

(** The keys of a table in which the row of [k] is replaced. *)
Lemma replace_keys d k k' (r' : attrs) t :
  r' !! model_pk d = Some k' →
  (λ r : attrs, r !! model_pk d) <$> map (λ y, if has_key d k y then r' else y) t
  = (λ o, if bool_decide (o = Some k) then Some k' else o)
      <$> ((λ r : attrs, r !! model_pk d) <$> t).
Proof.
  intros Hk'. induction t as [|y t IH]; [done|]. cbn. f_equal; [|exact IH].
  unfold has_key. case_bool_decide as Hy.
  - by rewrite Hk'.
  - done.
Qed.

Lemma NoDup_rename {A} `{EqDecision A} (a b : A) (l : list A) :
  NoDup l → (b ≠ a → b ∉ l) →
  NoDup ((λ o, if bool_decide (o = a) then b else o) <$> l).
Proof.
  intros Hnd Hb. destruct (decide (b = a)) as [->|Hne].
  - rewrite (list_fmap_ext _ id l); [by rewrite list_fmap_id|].
    intros i x _. cbn. by case_bool_decide.
  - specialize (Hb Hne). apply NoDup_fmap_2_strong; [|done].
    intros x y Hx Hy. repeat case_bool_decide; subst; try done.
    + intros <-. done.
    + intros ->. done.
Qed.

Lemma table_wf_replace d t k k' (r r' : attrs) :
  table_wf d t → find_row d k t = Some r →
  r' !! model_pk d = Some k' → dom r' ⊆ columns d →
  (k' ≠ k → find_row d k' t = None) →
  table_wf d (map (λ x, if has_key d k x then r' else x) t).
Proof.
  intros [Hall Hnd] Hk Hk' Hdom Hfree. split.
  - rewrite Forall_forall in Hall |- *. intros y' Hy'.
    apply list_elem_of_In, in_map_iff in Hy' as (y & <- & Hy).
    destruct (has_key d k y); [by rewrite Hk'|].
    by apply Hall, list_elem_of_In.
  - rewrite (replace_keys d k k' r' t Hk').
    apply NoDup_rename; [done|].
    intros Hne. apply find_row_None_key, Hfree. congruence.
Qed.

Lemma view_add_write d wr wrt ids ids' w w' :
  table w' = table w →
  view d (Session (wr ++ [wrt]) ids', w') =
  apply_write d wrt (view d (Session wr ids, w)).
Proof. intros Ht. unfold view; cbn. by rewrite foldl_snoc, Ht. Qed.

Lemma persisted_dom d (a : attrs) : dom (persisted d a) ⊆ columns d.
Proof.
  intros c Hc. apply elem_of_dom in Hc as [v Hv].
  rewrite persisted_lookup in Hv. by destruct (decide _).
Qed.

Lemma view_wf_flush_one d e :
  model_pk d ∈ columns d → preserves (view_wf d) (flush_one d e).
Proof.
  intros Hcol [[wr ids] w] Hx. destruct e as [o [|k|k]]; unfold flush_one;
    cbn [fst snd].
  - (* INSERT *)
    unfold bind at 1, object_attrs. cbn [snd].
    destruct (heap w !! o) as [a|]; [|exact Hx].
    assert (Hins : ∀ k w1,
      table w1 = table w →
      view_wf d
        ((let* _ := emit INSERT in
          let* dup := gets (λ x, find_row d k (view d x)) in
          match dup with
          | Some _ => raise IntegrityError
          | None =>
              let* _ := add_write (WInsert (<[model_pk d := k]> (persisted d a))) in
              let* _ := liftW (setattr o (model_pk d) k) in
              ret [(o, Persistent k)]
          end) (Session wr ids, w1)).2).
    { intros k w1 Ht. unfold bind, emit, gets, modify. cbn [fst snd].
      change (view d (Session wr ids, issue INSERT w1))
        with (view d (Session wr ids, w1)).
      assert (Hv : view d (Session wr ids, w1) = view d (Session wr ids, w))
        by (unfold view; cbn; by rewrite Ht).
      destruct (find_row d k (view d (Session wr ids, w1))) as [r|] eqn:Hdup.
      - unfold raise, view_wf. cbn [snd].
        change (view d (Session wr ids, issue INSERT w1))
          with (view d (Session wr ids, w1)). by rewrite Hv.
      - unfold add_write, liftW, setattr, modify, ret, view_wf. cbn [fst snd tx_writes identity].
        erewrite (view_add_write d wr _ ids ids w1) by reflexivity.
        cbn [apply_write]. rewrite Hv in Hdup |- *.
        eapply table_wf_insert; [exact Hx|exact Hdup|apply lookup_insert_eq|].
        rewrite dom_insert. apply union_least; [set_solver|apply persisted_dom]. }
    unfold bind at 1.
    destruct (a !! model_pk d) as [k|].
    + unfold ret at 1. by apply Hins.
    + unfold next_key. cbn [fst snd]. by apply Hins.
  - (* UPDATE *)
    unfold bind at 1, object_attrs. cbn [snd].
    destruct (heap w !! o) as [a|]; [|exact Hx].
    unfold bind at 1, gets at 1. cbn [fst snd].
    destruct (find_row d k (view d (Session wr ids, w))) as [r|] eqn:Hcur;
      [|exact Hx].
    cbv zeta. case_bool_decide as Hsame; [exact Hx|].
    unfold bind, emit, gets, modify. cbn [fst snd].
    change (view d (Session wr ids, issue UPDATE w))
      with (view d (Session wr ids, w)).
    destruct (find_row_Some _ _ _ _ Hcur) as [Hrk Hrin].
    destruct (table_wf_row _ _ _ Hx Hrin) as [_ Hrdom].
    pose proof (updated_row_key d k a r Hcol Hrk) as Hkey.
    set (k' := default k ((persisted d a ∪ r) !! model_pk d)).
    assert (Hk' : (persisted d a ∪ r) !! model_pk d = Some k').
    { unfold k'. rewrite Hkey. reflexivity. }
    case_bool_decide as Hkk.
    + unfold add_write, modify, ret, view_wf. cbn [fst snd tx_writes identity].
      erewrite (view_add_write d wr _ ids ids w) by reflexivity.
      cbn [apply_write].
      eapply table_wf_replace; [exact Hx|exact Hcur|exact Hk'| |done].
      rewrite dom_union. apply union_least; [apply persisted_dom|done].
    + destruct (find_row d k' (view d (Session wr ids, w))) as [r2|] eqn:Hclash.
      * exact Hx.
      * unfold add_write, modify, ret, view_wf. cbn [fst snd tx_writes identity].
        erewrite (view_add_write d wr _ ids ids w) by reflexivity.
        cbn [apply_write].
        eapply table_wf_replace; [exact Hx|exact Hcur|exact Hk'| |done].
        rewrite dom_union. apply union_least; [apply persisted_dom|done].
  - (* DELETE *)
    unfold bind, emit, add_write, modify, ret, view_wf. cbn [fst snd tx_writes identity].
    erewrite (view_add_write d wr _ ids ids w) by reflexivity.
    cbn [apply_write]. by apply table_wf_delete.
Qed.

Section view_wf.
Variable d : dao.
Hypothesis Hcol : model_pk d ∈ columns d.

Lemma view_wf_load_row r : preserves (view_wf d) (load_row d r).
Proof using Type. unfold load_row. pres. Qed.

Lemma view_wf_session_get k : preserves (view_wf d) (session_get d k).
Proof using Type.
  unfold session_get. pres; apply view_wf_load_row.
Qed.

Lemma view_wf_query_filter_by f q : preserves (view_wf d) (query_filter_by d f q).
Proof using Type. unfold query_filter_by. pres. Qed.

Lemma view_wf_query_all q : preserves (view_wf d) (query_all d q).
Proof using Type. unfold query_all. pres. apply view_wf_load_row. Qed.

Lemma view_wf_query_first q : preserves (view_wf d) (query_first d q).
Proof using Type. unfold query_first. pres. apply view_wf_query_all. Qed.

Lemma view_wf_session_expunge o : preserves (view_wf d) (session_expunge o).
Proof using Type. unfold session_expunge. pres. Qed.

Lemma view_wf_session_add o : preserves (view_wf d) (session_add o).
Proof using Type. unfold session_add. pres. Qed.

Lemma view_wf_session_delete o : preserves (view_wf d) (session_delete o).
Proof using Type. unfold session_delete. pres. apply view_wf_session_expunge. Qed.

Lemma view_wf_flush_all ids : preserves (view_wf d) (flush_all d ids).
Proof using Hcol.
  induction ids as [|e ids IH]; cbn [flush_all]; pres.
  by apply view_wf_flush_one.
Qed.

Lemma view_wf_session_flush : preserves (view_wf d) (session_flush d).
Proof using Hcol. unfold session_flush. pres. apply view_wf_flush_all. Qed.

Lemma view_wf_session_refresh o : preserves (view_wf d) (session_refresh d o).
Proof using Type. unfold session_refresh. pres. Qed.

Lemma view_wf_model_new f : preserves (view_wf d) (model_new d f).
Proof using Type. unfold model_new. pres. Qed.

Lemma view_wf_get_pk_column : preserves (view_wf d) (DAO._get_pk_column d).
Proof using Type. unfold DAO._get_pk_column. pres. Qed.

Lemma view_wf_set_fields o f : preserves (view_wf d) (DAO.set_fields o f).
Proof using Type. unfold DAO.set_fields. pres. Qed.

Lemma view_wf_fetch_detached q : preserves (view_wf d) (fetch_detached d q).
Proof using Type.
  unfold fetch_detached. pres;
    [apply view_wf_query_all|apply view_wf_session_expunge].
Qed.

Lemma view_wf_get_op k : preserves (view_wf d) (DAO.get_op d k).
Proof using Type.
  unfold DAO.get_op. pres;
    [apply view_wf_session_get|apply view_wf_session_expunge].
Qed.

Lemma view_wf_list_op limit offset :
  preserves (view_wf d) (DAO.list_op d limit offset).
Proof using Type. rewrite list_op_unfold. apply view_wf_fetch_detached. Qed.

Lemma view_wf_list_by_op limit offset f :
  preserves (view_wf d) (DAO.list_by_op d limit offset f).
Proof using Type.
  rewrite list_by_op_unfold. pres;
    [apply view_wf_query_filter_by|apply view_wf_fetch_detached].
Qed.

Lemma view_wf_list_by_order_by_op ob limit offset f :
  preserves (view_wf d) (DAO.list_by_order_by_op d ob limit offset f).
Proof using Type.
  rewrite list_by_order_by_op_unfold. pres;
    [apply view_wf_query_filter_by|apply view_wf_fetch_detached].
Qed.

Lemma view_wf_exists_op k : preserves (view_wf d) (DAO.exists_op d k).
Proof using Type.
  unfold DAO.exists_op. pres;
    [apply view_wf_get_pk_column|apply view_wf_query_first
    |apply view_wf_session_expunge].
Qed.

Lemma view_wf_write_tail {A} o (a : A) :
  preserves (view_wf d)
    (let* _ := session_flush d in
     let* _ := session_refresh d o in
     let* _ := session_expunge o in
     ret a).
Proof using Hcol.
  pres; [apply view_wf_session_flush|apply view_wf_session_refresh
        |apply view_wf_session_expunge].
Qed.

Lemma view_wf_create_write f : preserves (view_wf d) (DAO.create_write d f).
Proof using Hcol.
  unfold DAO.create_write.
  apply preserves_bind; [apply view_wf_model_new|intros row].
  apply preserves_bind; [apply view_wf_session_add|intros _].
  apply view_wf_write_tail.
Qed.

Lemma view_wf_update_write k f : preserves (view_wf d) (DAO.update_write d k f).
Proof using Hcol.
  unfold DAO.update_write.
  apply preserves_bind; [apply view_wf_session_get|intros [o|]];
    [|apply preserves_ret].
  apply preserves_bind; [apply view_wf_set_fields|intros _].
  apply view_wf_write_tail.
Qed.

Lemma view_wf_upsert_write k f : preserves (view_wf d) (DAO.upsert_write d k f).
Proof using Hcol.
  unfold DAO.upsert_write.
  apply preserves_bind; [apply view_wf_session_get|intros [o|]].
  - apply preserves_bind; [apply view_wf_set_fields|intros _].
    apply view_wf_write_tail.
  - cbv zeta.
    apply preserves_bind; [apply view_wf_model_new|intros row].
    apply preserves_bind; [apply view_wf_session_add|intros _].
    apply view_wf_write_tail.
Qed.

Lemma view_wf_delete_write k : preserves (view_wf d) (DAO.delete_write d k).
Proof using Hcol.
  unfold DAO.delete_write.
  apply preserves_bind; [apply view_wf_session_get|intros [o|]];
    [|apply preserves_ret].
  apply preserves_bind; [apply view_wf_session_delete|intros _].
  apply preserves_bind; [apply view_wf_session_flush|intros _].
  apply preserves_ret.
Qed.

(** A unit of work commits a well-formed table or leaves the table
    as it was. *)
Lemma run_in_session_table_wf {A} (fn : SM A) w :
  preserves (view_wf d) fn →
  (∀ t, preserves (table_is t) fn) →
  table_wf d (table w) →
  table_wf d (table (DAO._run_in_session d fn w).2).
Proof using Hcol.
  intros Hwf Htab Hw.
  destruct (decide (checked_out w < max_connections d)%nat) as [Hp|Hp];
    [|by rewrite run_in_session_exhausted].
  pose proof (run_in_session_cases d fn w Hp) as Hrun.
  pose proof (Hwf (new_session, checkout w) Hw) as Hv.
  pose proof (Htab (table w) (new_session, checkout w) eq_refl) as Ht.
  destruct (fn (new_session, checkout w)) as [[a|e] x]; cbn [fst snd] in *.
  - pose proof (view_wf_session_flush x Hv) as Hv'.
    pose proof (table_is_session_flush (table w) d x Ht) as Ht'.
    destruct (session_flush d x) as [[[]|e] x']; rewrite Hrun; cbn [fst snd] in *.
    + exact Hv'.
    + unfold table_is in Ht'. cbn. by rewrite Ht'.
  - rewrite Hrun. unfold table_is in Ht. cbn. by rewrite Ht.
Qed.

Lemma sync_call_table_wf c w :
  is_ff c = false →
  table_wf d (table w) → table_wf d (table (perform d c w)).
Proof using Hcol.
  intros Hc. destruct c; try discriminate Hc; cbn [perform];
    apply run_in_session_table_wf;
    auto using view_wf_get_op, view_wf_list_op, view_wf_list_by_op,
      view_wf_list_by_order_by_op, view_wf_exists_op, view_wf_create_write,
      view_wf_update_write, view_wf_upsert_write, view_wf_delete_write,
      table_is_get_op, table_is_list_op, table_is_list_by_op,
      table_is_list_by_order_by_op, table_is_exists_op, table_is_create_write,
      table_is_update_write, table_is_upsert_write, table_is_delete_write.
Qed.

Lemma submit_background_table_wf {A} (fn : SM A) w :
  (∀ w1, table_wf d (table w1) →
         table_wf d (table (DAO._run_in_session d fn w1).2)) →
  table_wf d (table w) →
  table_wf d (table (DAO._submit_background d fn w).2).
Proof using Type.
  intros Hjob Hw.
  destruct (submit_background_outcome d fn w) as [_ Hst]. cbv zeta in Hst.
  rewrite (table_of_store _ _ Hst). apply Hjob.
  by rewrite (table_of_store _ _ (get_bg_executor_store w)).
Qed.

Lemma nested_table_wf {A} (m : DM A) w :
  (∀ w1, table_wf d (table w1) → table_wf d (table (m w1).2)) →
  table_wf d (table w) →
  table_wf d (table (DAO._run_in_session d (liftW m) w).2).
Proof using Type.
  intros Hm Hw.
  destruct (decide (checked_out w < max_connections d)%nat) as [Hp|Hp];
    [|by rewrite run_in_session_exhausted].
  destruct (run_in_session_liftW d m w Hp) as [_ Hst].
  rewrite (table_of_store _ _ Hst). by apply Hm.
Qed.

Lemma call_table_wf c w :
  table_wf d (table w) → table_wf d (table (perform d c w)).
Proof using Hcol.
  destruct (is_ff c) eqn:Hc; [|by apply sync_call_table_wf].
  destruct c; try discriminate Hc; cbn [perform].
  - apply submit_background_table_wf. intros w1.
    exact (sync_call_table_wf (CCreate fields) w1 eq_refl).
  - apply submit_background_table_wf. intros w1. apply nested_table_wf.
    intros w2. exact (sync_call_table_wf (CUpdate k fields) w2 eq_refl).
  - apply submit_background_table_wf. intros w1. apply nested_table_wf.
    intros w2. exact (sync_call_table_wf (CUpsert k fields) w2 eq_refl).
  - apply submit_background_table_wf. intros w1.
    exact (sync_call_table_wf (CDelete k) w1 eq_refl).
Qed.
End view_wf.

(** X15.  Every call keeps the table well formed: whatever method is
    called with whatever arguments, and whether it succeeds or fails,
    afterwards every row still has a primary key and columns of the
    model only, and no two rows share a key.  The same holds after any
    sequence of calls. *)
Theorem calls_keep_table_wf (d : dao) (cs : list call) (w : world) :
  model_pk d ∈ columns d →
  table_wf d (table w) →
  table_wf d (table (foldl (λ w c, perform d c w) w cs)).
Proof.
  intros Hcol. revert w. induction cs as [|c cs IH]; intros w Hw; [done|].
  cbn [foldl]. apply IH. by apply call_table_wf.
Qed.

Lemma calls_keep_table_wf_witness :
  table_wf user_dao
    (table (foldl (λ w c, perform user_dao c w) users_world
              [CCreate {[ "name" := VStr "dave" ]};
               CUpsertFF (VInt 2) {[ "id" := VInt 1 ]};
               CUpdate (VInt 3) {[ "id" := VInt 7 ]};
               CDeleteFF (VInt 1)])).
Proof.
  apply calls_keep_table_wf.
  - apply (bool_decide_unpack _). by vm_compute.
  - exact users_world_wf.
Defined.

(** ** [run_custom] *)

(** X16.  [run_custom] is all or nothing: when the callable, or the
    commit after it, raises, none of the writes the callable made in its
    session reaches the table, and the session is back in the pool. *)
Theorem run_custom_all_or_nothing {A} (d : dao) (fn : SM A) (w : world) (e : exn) :
  (∀ t, preserves (table_is t) fn) →
  session_local fn →
  (DAO.run_custom d fn w).1 = Raise e →
  table (DAO.run_custom d fn w).2 = table w
  ∧ checked_out (DAO.run_custom d fn w).2 = checked_out w.
Proof.
  intros Htab Hsl Hr. unfold DAO.run_custom in *. split.
  - by eapply run_in_session_failure_table.
  - by apply run_in_session_checked_out, session_local_checked_out.
Qed.

Lemma run_custom_all_or_nothing_witness :
  let fn := create_two user_dao {[ "name" := VStr "dave" ]} {[ "id" := VInt 1 ]} in
  tx_writes (fn (new_session, checkout users_world)).2.1
    = [WInsert {[ "id" := VInt 4; "name" := VStr "dave" ]}]
  ∧ (DAO.run_custom user_dao fn users_world).1 = Raise IntegrityError
  ∧ table (DAO.run_custom user_dao fn users_world).2 = [alice; bob; carol].
Proof.
  intros fn.
  assert (Hr : (DAO.run_custom user_dao fn users_world).1 = Raise IntegrityError)
    by (vm_compute; reflexivity).
  split; [|split; [exact Hr|]].
  - vm_compute. reflexivity.
  - refine (proj1 (run_custom_all_or_nothing user_dao fn users_world
                     IntegrityError _ _ Hr)).
    + intros t. unfold fn, create_two.
      apply preserves_bind; [apply table_is_create_write|intros a].
      apply preserves_bind; [apply table_is_create_write|intros b].
      apply preserves_ret.
    + unfold fn, create_two.
      apply sl_bind; [apply sl_create_write|intros a].
      apply sl_bind; [apply sl_create_write|intros b]. apply sl_ret.
Defined.

(** ** [exists] and the name of the key *)





(** ** [upsert] of a key that has a row, and [upsert] done twice *)

Lemma run_in_session_map {A B} d (fn : SM A) (gn : SM B) (g : A → B) w :
  gn (new_session, checkout w) = map_result g (fn (new_session, checkout w)) →
  DAO._run_in_session d gn w = map_result g (DAO._run_in_session d fn w).
Proof.
  intros Hg.
  destruct (decide (checked_out w < max_connections d)%nat) as [Hp|Hp];
    [|by rewrite !run_in_session_exhausted].
  pose proof (run_in_session_cases d fn w Hp) as Hf.
  pose proof (run_in_session_cases d gn w Hp) as Hgn.
  rewrite Hg in Hgn.
  destruct (fn (new_session, checkout w)) as [[a|e] x]; cbn [map_result] in *.
  - destruct (session_flush d x) as [[[]|e] x']; by rewrite Hf, Hgn.
  - by rewrite Hf, Hgn.
Qed.

Lemma write_tail_map {A B} d o (f : attrs) (a : A) (g : A → B) x :
  (let* _ := DAO.set_fields o f in
   let* _ := session_flush d in
   let* _ := session_refresh d o in
   let* _ := session_expunge o in
   ret (g a)) x
  = map_result g
      ((let* _ := DAO.set_fields o f in
        let* _ := session_flush d in
        let* _ := session_refresh d o in
        let* _ := session_expunge o in
        ret a) x).
Proof.
  unfold bind.
  destruct (DAO.set_fields o f x) as [[[]|e] x1]; [|done].
  destruct (session_flush d x1) as [[[]|e] x2]; [|done].
  destruct (session_refresh d o x2) as [[[]|e] x3]; [|done].
  by destruct (session_expunge o x3) as [[[]|e] x4].
Qed.

(** X18.  On a key that has a row, [upsert] is [update]: the two calls
    leave the same state, and [update] returns [Some] of the entity
    that [upsert] returns, or raises what [upsert] raises. *)
Theorem upsert_existing_is_update (d : dao) (k : value) (f r : attrs) (w : world) :
  find_row d k (table w) = Some r →
  DAO.update d k f w = map_result Some (DAO.upsert d k f w).
Proof.
  intros Hk. unfold DAO.update, DAO.upsert. apply run_in_session_map.
  unfold DAO.update_write, DAO.upsert_write, new_session.
  assert (Hget : session_get d k (Session [] [], checkout w) =
                 (Ok (Some (length (heap w))),
                  (Session [] [(length (heap w), Persistent k)],
                   set_heap (λ h, h ++ [r]) (issue SELECT (checkout w)))))
    by exact (session_get_hit d k r [] (checkout w) Hk).
  rewrite !(bind_Ok _ _ _ _ _ Hget).
  apply write_tail_map.
Qed.

Lemma upsert_existing_is_update_witness :
  ∃ o w',
    DAO.upsert user_dao (VInt 2) {[ "name" := VStr "robert" ]} users_world = (Ok o, w')
    ∧ DAO.update user_dao (VInt 2) {[ "name" := VStr "robert" ]} users_world
      = (Ok (Some o), w').
Proof.
  pose proof (upsert_existing_is_update user_dao (VInt 2)
                {[ "name" := VStr "robert" ]} bob users_world eq_refl) as H.
  assert (Hok : ∃ o, (DAO.upsert user_dao (VInt 2) {[ "name" := VStr "robert" ]}
                        users_world).1 = Ok o)
    by (eexists; vm_compute; reflexivity).
  destruct Hok as [o Ho].
  destruct (DAO.upsert user_dao (VInt 2) {[ "name" := VStr "robert" ]} users_world)
    as [res w'].
  cbn [fst] in Ho. subst res. exists o, w'. split; [reflexivity|exact H].
Defined.

Lemma upsert_unchanged d k (f r : attrs) w :
  well_configured d →
  (checked_out w < max_connections d)%nat →
  table_wf d (table w) →
  find_row d k (table w) = Some r →
  persisted d f ∪ r = r →
  DAO.upsert d k f w =
  (Ok (length (heap w)),
   checkin (set_table (λ _, table w)
              (set_heap (λ h, h ++ [f ∪ r])
                 (set_statements (λ l, l ++ [SELECT; SELECT]) (checkout w))))).
Proof.
  intros [_ Hcol] Hp Hwf Hk Hsame.
  destruct (find_row_Some _ _ _ _ Hk) as [Hpk Hin].
  destruct (table_wf_row _ _ _ Hwf Hin) as [_ Hdom].
  destruct (upsert_write_update d k f r (checkout w) Hcol Hk Hdom)
    as (wr & sts & Hrun & Hcases).
  { intros k' Hk' Hne. exfalso. apply Hne.
    assert (Hr' : (persisted d f ∪ r) !! model_pk d = Some k').
    { apply lookup_union_Some_l. rewrite persisted_lookup. by rewrite decide_True. }
    rewrite Hsame, Hpk in Hr'. congruence. }
  destruct Hcases as [(-> & _ & ->)|(_ & Hne & _)]; [|done].
  unfold DAO.upsert. rewrite (run_in_session_Ok d _ w _ _ _ Hp Hrun). reflexivity.
Qed.

Lemma union_absorb (f r : attrs) : f ∪ (f ∪ r) = f ∪ r.
Proof. by rewrite (assoc_L (∪)), (idemp_L (∪)). Qed.

(** X19.  [upsert] is idempotent: when the fields are columns of the
    model and give no other key than the one asked for, a second
    [upsert] with the same arguments finds the row of the first, issues
    no write (its two statements are SELECTs), leaves the table and the
    key sequence as the first call left them, and returns an entity with
    the attributes of the entity the first call returned. *)
Theorem upsert_idempotent (d : dao) (k : value) (f : attrs) (w : world) :
  well_configured d →
  (checked_out w < max_connections d)%nat →
  table_wf d (table w) →
  dom f ⊆ columns d →
  (∀ k', f !! model_pk d = Some k' → k' = k) →
  ∃ o1 w1 o2 w2,
    DAO.upsert d k f w = (Ok o1, w1)
    ∧ DAO.upsert d k f w1 = (Ok o2, w2)
    ∧ table w2 = table w1
    ∧ sequence w2 = sequence w1
    ∧ statements w2 = statements w1 ++ [SELECT; SELECT]
    ∧ is_Some (heap w1 !! o1)
    ∧ heap w2 !! o2 = heap w1 !! o1.
Proof.
  intros Hd Hp Hwf Hdom Hkey.
  assert (Hsecond : ∀ o1 w1 r1,
    DAO.upsert d k f w = (Ok o1, w1) →
    heap w1 !! o1 = Some r1 →
    find_row d k (table w1) = Some r1 →
    f ∪ r1 = r1 →
    ∃ o2 w2, DAO.upsert d k f w1 = (Ok o2, w2)
             ∧ table w2 = table w1 ∧ sequence w2 = sequence w1
             ∧ statements w2 = statements w1 ++ [SELECT; SELECT]
             ∧ is_Some (heap w1 !! o1)
             ∧ heap w2 !! o2 = heap w1 !! o1).
  { intros o1 w1 r1 Hrun Ho1 Hfind Hsame.
    assert (Hw1 : w1 = perform d (CUpsert k f) w) by (cbn; by rewrite Hrun).
    assert (Hp1 : (checked_out w1 < max_connections d)%nat).
    { rewrite Hw1, (sync_call_checked_out d (CUpsert k f) w eq_refl). exact Hp. }
    assert (Hwf1 : table_wf d (table w1)).
    { rewrite Hw1. apply call_table_wf; [apply Hd|done]. }
    eexists _, _. split.
    { apply (upsert_unchanged d k f r1 w1 Hd Hp1 Hwf1 Hfind).
      by rewrite persisted_id. }
    split; [reflexivity|]. split; [reflexivity|]. split; [reflexivity|].
    split; [by rewrite Ho1|].
    cbn [heap checkin set_pool_log set_checked_out set_table set_heap
         set_statements checkout].
    rewrite Ho1, Hsame. by apply list_lookup_middle. }
  destruct (find_row d k (table w)) as [r|] eqn:Hk.
  - destruct (upsert_updates d k f r w Hd Hp Hwf Hk)
      as (w1 & Hrun & Hheap & Htable & _).
    { intros k' Hk' Hne. by apply Hkey in Hk'. }
    destruct (find_row_Some _ _ _ _ Hk) as [Hpk Hin].
    destruct (table_wf_row _ _ _ Hwf Hin) as [_ Hrdom].
    rewrite persisted_id in Htable by done.
    destruct (Hsecond _ _ (f ∪ r) Hrun) as (o2 & w2 & Hrest).
    + rewrite Hheap. by apply list_lookup_middle.
    + rewrite Htable. apply find_row_replace with (r := r); [done| |done].
      destruct (f !! model_pk d) as [k'|] eqn:Hf.
      * apply lookup_union_Some_l. by rewrite (Hkey k' eq_refl) in Hf.
      * by rewrite lookup_union_r.
    + apply union_absorb.
    + exists (length (heap w)), w1, o2, w2. split; [exact Hrun|exact Hrest].
  - assert (Hfree : ∀ k', f !! model_pk d = Some k' → find_row d k' (table w) = None).
    { intros k' Hk'. by rewrite (Hkey k' Hk'). }
    pose proof (upsert_inserts d k f w Hd Hp Hk Hdom Hfree) as Hrun.
    cbv zeta in Hrun.
    destruct (Hsecond _ _ (f ∪ {[model_pk d := k]}) Hrun) as (o2 & w2 & Hrest).
    + by apply list_lookup_middle.
    + cbn [table checkin set_pool_log set_checked_out set_table].
      apply find_row_app; [done|].
      destruct (f !! model_pk d) as [k'|] eqn:Hf.
      * apply lookup_union_Some_l. by rewrite (Hkey k' eq_refl) in Hf.
      * rewrite lookup_union_r by done. apply lookup_singleton_eq.
    + apply union_absorb.
    + eexists _, _, o2, w2. split; [exact Hrun|exact Hrest].
Qed.

Lemma upsert_idempotent_witness :
  ∃ o1 w1 o2 w2,
    DAO.upsert user_dao (VInt 9) {[ "name" := VStr "ivy" ]} users_world = (Ok o1, w1)
    ∧ DAO.upsert user_dao (VInt 9) {[ "name" := VStr "ivy" ]} w1 = (Ok o2, w2)
    ∧ table w2 = table w1
    ∧ statements w2 = statements w1 ++ [SELECT; SELECT].
Proof.
  destruct (upsert_idempotent user_dao (VInt 9) {[ "name" := VStr "ivy" ]} users_world)
    as (o1 & w1 & o2 & w2 & H1 & H2 & Ht & _ & Hs & _).
  - exact user_dao_configured.
  - exact user_dao_pool_free.
  - exact users_world_wf.
  - apply (bool_decide_unpack _). by vm_compute.
  - intros k' Hk'. by vm_compute in Hk'.
  - exists o1, w1, o2, w2. repeat split; assumption.
Defined.

(** * The observable dictionary *)

(** ** The built-in [dict] *)

Section dict_facts.
Context {K V : Type} `{EqDecision K}.
Implicit Types (dt : @ObservableDict.dict K V) (key : K).

Lemma dict_getitem_None key dt :
  ObservableDict.dict_getitem key dt = None ↔ key ∉ dt.*1.
Proof.
  induction dt as [|[k v] dt IH]; cbn.
  - split; [intros _; apply not_elem_of_nil|done].
  - destruct (decide (k = key)) as [->|Hne].
    + split; [done|]. intros Hin. exfalso. apply Hin. by left.
    + rewrite IH, not_elem_of_cons.
      split; [intros ?; split; [congruence|done]|by intros [_ ?]].
Qed.

Lemma dict_getitem_Some key dt v :
  ObservableDict.dict_getitem key dt = Some v → (key, v) ∈ dt.
Proof.
  induction dt as [|[k v'] dt IH]; cbn; [done|].
  destruct (decide (k = key)) as [->|Hne].
  - intros [= ->]. by left.
  - intros Hv. right. by apply IH.
Qed.

Lemma dict_setitem_absent key (value : option V) dt :
  key ∉ dt.*1 → ObservableDict.dict_setitem key value dt = dt ++ [(key, value)].
Proof.
  induction dt as [|[k v] dt IH]; cbn; [done|].
  intros [Hne Hnotin]%not_elem_of_cons.
  rewrite decide_False by done. by rewrite IH.
Qed.

Lemma dict_setitem_keys key (value : option V) dt :
  (ObservableDict.dict_setitem key value dt).*1 =
  if decide (key ∈ dt.*1) then dt.*1 else dt.*1 ++ [key].
Proof.
  induction dt as [|[k v] dt IH]; cbn.
  - by rewrite decide_False by apply not_elem_of_nil.
  - destruct (decide (k = key)) as [->|Hne]; cbn.
    + by rewrite decide_True by left.
    + rewrite IH. destruct (decide (key ∈ dt.*1)) as [Hin|Hnotin].
      * by rewrite decide_True by (by right).
      * rewrite decide_False; [done|].
        apply not_elem_of_cons. by split.
Qed.

Lemma dict_setitem_wf key (value : option V) dt :
  ObservableDict.dict_wf dt →
  ObservableDict.dict_wf (ObservableDict.dict_setitem key value dt).
Proof.
  unfold ObservableDict.dict_wf. rewrite dict_setitem_keys.
  destruct (decide _) as [Hin|Hnotin]; [done|]. intros Hnd.
  apply NoDup_app. split; [done|]. split; [|apply NoDup_singleton].
  intros x Hx ->%list_elem_of_singleton. done.
Qed.

Lemma dict_assign_wf (pairs : list (K * option V)) dt :
  ObservableDict.dict_wf dt →
  ObservableDict.dict_wf (ObservableDict.dict_assign pairs dt).
Proof.
  unfold ObservableDict.dict_assign. revert dt.
  induction pairs as [|[k v] pairs IH]; intros dt Hwf; [done|].
  cbn. by apply IH, dict_setitem_wf.
Qed.

Lemma dict_wf_sublist dt dt' :
  dt' `sublist_of` dt → ObservableDict.dict_wf dt → ObservableDict.dict_wf dt'.
Proof.
  unfold ObservableDict.dict_wf. intros Hsub Hnd.
  eapply sublist_NoDup; [done|by apply fmap_sublist].
Qed.

Lemma dict_delitem_sublist key dt :
  ObservableDict.dict_delitem key dt `sublist_of` dt.
Proof. apply list_filter_sublist. Qed.

Lemma removelast_sublist {A} (l : list A) : removelast l `sublist_of` l.
Proof.
  induction l as [|x [|y l] IH]; cbn; [done|by constructor|].
  by constructor.
Qed.

Lemma dict_delitem_absent key dt :
  key ∉ dt.*1 → ObservableDict.dict_delitem key dt = dt.
Proof.
  unfold ObservableDict.dict_delitem.
  induction dt as [|[k v] dt IH]; cbn; [done|].
  intros [Hne Hnotin]%not_elem_of_cons.
  rewrite bool_decide_eq_false_2 by done. cbn. by rewrite IH.
Qed.

Lemma dict_delitem_app key dt1 dt2 :
  ObservableDict.dict_delitem key (dt1 ++ dt2) =
  ObservableDict.dict_delitem key dt1 ++ ObservableDict.dict_delitem key dt2.
Proof. unfold ObservableDict.dict_delitem. apply List.filter_app. Qed.

(** Setting a key that is not there and deleting it again. *)
Lemma dict_set_del key (value : option V) dt :
  key ∉ dt.*1 →
  ObservableDict.dict_delitem key (ObservableDict.dict_setitem key value dt) = dt.
Proof.
  intros Hk. rewrite dict_setitem_absent, dict_delitem_app by done.
  rewrite dict_delitem_absent by done.
  unfold ObservableDict.dict_delitem. cbn.
  rewrite bool_decide_eq_true_2 by done. cbn. apply app_nil_r.
Qed.

Lemma last_removelast dt (it : K * option V) :
  ObservableDict.dict_wf dt → last dt = Some it →
  ObservableDict.dict_delitem it.1 dt = removelast dt.
Proof.
  intros Hwf Hlast.
  destruct (last_Some dt it) as [[l ->] _]; [done|].
  rewrite removelast_last, dict_delitem_app.
  unfold ObservableDict.dict_wf in Hwf. rewrite fmap_app in Hwf.
  apply NoDup_app in Hwf as (_ & Hdisj & _).
  rewrite dict_delitem_absent.
  - unfold ObservableDict.dict_delitem. cbn.
    rewrite bool_decide_eq_true_2 by done. cbn. apply app_nil_r.
  - intros Hin. apply (Hdisj _ Hin). cbn. by left.
Qed.

Lemma dict_assign_app (p1 p2 : list (K * option V)) dt :
  ObservableDict.dict_assign (p1 ++ p2) dt =
  ObservableDict.dict_assign p2 (ObservableDict.dict_assign p1 dt).
Proof. unfold ObservableDict.dict_assign. apply foldl_app. Qed.

(** Building a dictionary from its own items gives it back. *)
Lemma dict_assign_items dt0 dt :
  ObservableDict.dict_wf (dt0 ++ dt) →
  ObservableDict.dict_assign dt dt0 = dt0 ++ dt.
Proof.
  revert dt0. induction dt as [|[k v] dt IH]; intros dt0 Hwf.
  - by rewrite app_nil_r.
  - unfold ObservableDict.dict_assign in *. cbn.
    rewrite dict_setitem_absent.
    + rewrite IH; rewrite <- app_assoc; [done|exact Hwf].
    + unfold ObservableDict.dict_wf in Hwf. rewrite fmap_app in Hwf.
      apply NoDup_app in Hwf as (_ & Hdisj & _).
      intros Hin. apply (Hdisj _ Hin). cbn. by left.
Qed.

(** Deleting the keys of all items leaves nothing. *)
Lemma delete_all (rm dt : list (K * option V)) :
  dt.*1 ⊆ rm.*1 →
  foldl (λ dt kv, ObservableDict.dict_delitem kv.1 dt) dt rm = [].
Proof.
  revert dt. induction rm as [|[k v] rm IH]; intros dt Hsub; cbn.
  - destruct dt as [|kv dt]; [done|].
    exfalso. eapply not_elem_of_nil, Hsub. by left.
  - apply IH. intros x Hx.
    apply list_elem_of_fmap in Hx as ([k' v'] & -> & Hin).
    unfold ObservableDict.dict_delitem in Hin.
    apply list_elem_of_In, filter_In in Hin as [Hin Hne]. cbn in *.
    apply negb_true_iff, bool_decide_eq_false in Hne.
    assert (Hk' : k' ∈ ((k, v) :: rm).*1).
    { apply Hsub, list_elem_of_fmap. exists (k', v'). split; [done|].
      by apply list_elem_of_In. }
    cbn in Hk'. apply elem_of_cons in Hk' as [->|Hk']; [done|exact Hk'].
Qed.

End dict_facts.

(** ** The methods *)

Section od_facts.
Context {K V : Type} `{EqDecision K}.
Implicit Types (key : K) (value default : option V).

(** *** [_notify] *)

Lemma notify_record operation (its : list (@ObservableDict.item K V))
    (st : @ObservableDict.od K V _ * list (@ObservableDict.event K V)) :
  ObservableDict._on_change st.1 = Some ObservableDict.record →
  ObservableDict._notify operation its st
  = (ObservableDict.Returns tt, (st.1, st.2 ++ [(operation, its)])).
Proof.
  destruct st as [[dt cb] l]. cbn. intros ->. reflexivity.
Qed.

Lemma notify_silent {L} operation (its : list (@ObservableDict.item K V))
    (st : @ObservableDict.od K V L * L) :
  ObservableDict._on_change st.1 = None →
  ObservableDict._notify operation its st = (ObservableDict.Returns tt, st).
Proof. unfold ObservableDict._notify. by intros ->. Qed.

(** A callback that keeps to itself cannot make [_notify] raise, nor
    change the dictionary. *)
Lemma notify_passive {L} operation (its : list (@ObservableDict.item K V))
    (st : @ObservableDict.od K V L * L) :
  ObservableDict.unobtrusive st.1 →
  (ObservableDict._notify operation its st).1 = ObservableDict.Returns tt
  ∧ (ObservableDict._notify operation its st).2.1 = st.1.
Proof.
  destruct st as [[dt [[call]|]] l]; cbn; [|done].
  intros Hp. destruct (Hp operation its dt l) as (Hdt & Hinst & Hexn).
  destruct (call operation its (dt, l)) as [[r [dt' l']] inst]. cbn in *.
  subst dt' inst. destruct r as [[]|e]; [done|].
  by rewrite (Hexn e eq_refl).
Qed.

(** What [_notify] lets through is no [Exception]. *)
Lemma notify_raises {L} operation (its : list (@ObservableDict.item K V))
    (st : @ObservableDict.od K V L * L) e :
  (ObservableDict._notify operation its st).1 = ObservableDict.Raises e →
  ObservableDict.is_Exception e = false.
Proof.
  unfold ObservableDict._notify.
  destruct (ObservableDict._on_change st.1) as [[call]|]; [|done].
  destruct (call operation its _) as [[r [dt' l']] inst].
  destruct r as [[]|e']; [done|].
  destruct (ObservableDict.is_Exception e') eqn:He'; cbn; [done|].
  by intros [= <-].
Qed.

Lemma omit_and_return {L A} (r : ObservableDict.outcome unit * (@ObservableDict.od K V L * L))
    (a : A) :
  (ObservableDict.omit (ObservableDict.and_return r a).1,
   (ObservableDict.and_return r a).2) = r.
Proof. by destruct r as [[[]|e] st]. Qed.

(** *** [_assign_pairs] *)

Lemma set_data_set_data {L} f g (st : @ObservableDict.od K V L * L) :
  ObservableDict.set_data g (ObservableDict.set_data f st) =
  ObservableDict.set_data (λ dt, g (f dt)) st.
Proof. reflexivity. Qed.

Lemma assign_loop_good {L} (good acc : list (@ObservableDict.item K V))
    (st : @ObservableDict.od K V L * L) :
  ObservableDict.assign_loop (Some <$> good) acc st =
  (ObservableDict.Returns (acc ++ good),
   ObservableDict.set_data (ObservableDict.dict_assign good) st).
Proof.
  revert acc st. induction good as [|[k v] good IH]; intros acc st.
  - cbn. rewrite app_nil_r. by destruct st as [[dt cb] l].
  - cbn. rewrite IH, <- app_assoc. reflexivity.
Qed.

Lemma assign_loop_bad {L} (good : list (@ObservableDict.item K V)) rest acc
    (st : @ObservableDict.od K V L * L) :
  ObservableDict.assign_loop ((Some <$> good) ++ None :: rest) acc st =
  (ObservableDict.Raises ObservableDict.ValueError,
   ObservableDict.set_data (ObservableDict.dict_assign good) st).
Proof.
  revert acc st. induction good as [|[k v] good IH]; intros acc st.
  - cbn. by destruct st as [[dt cb] l].
  - cbn. rewrite IH. reflexivity.
Qed.

Lemma split_pairs (l : list (option (@ObservableDict.item K V))) :
  (∃ good, l = Some <$> good ∧ ObservableDict.good_prefix l = (good, true))
  ∨ (∃ good rest, l = (Some <$> good) ++ None :: rest
                  ∧ ObservableDict.good_prefix l = (good, false)).
Proof.
  induction l as [|[kv|] l IH].
  - left. by exists [].
  - destruct IH as [(good & -> & Hg)|(good & rest & -> & Hg)].
    + left. exists (kv :: good). split; [done|]. cbn. by rewrite Hg.
    + right. exists (kv :: good), rest. split; [done|].
      cbn. by rewrite Hg.
  - right. by exists [], l.
Qed.

(** *** What a call amounts to *)

Lemma update_after_assign {L} (m kwargs : list (@ObservableDict.item K V))
    (st : @ObservableDict.od K V L * L) :
  match m ++ kwargs with
  | [] => (ObservableDict.Returns tt,
           ObservableDict.set_data (ObservableDict.dict_assign kwargs)
             (ObservableDict.set_data (ObservableDict.dict_assign m) st))
  | changed =>
      ObservableDict._notify "update" changed
        (ObservableDict.set_data (ObservableDict.dict_assign kwargs)
           (ObservableDict.set_data (ObservableDict.dict_assign m) st))
  end
  = match m ++ kwargs with
    | [] => (ObservableDict.Returns tt,
             (ObservableDict.OD (ObservableDict.data st.1)
                (ObservableDict._on_change st.1), st.2))
    | changed =>
        ObservableDict._notify "update" changed
          (ObservableDict.OD (ObservableDict.dict_assign changed (ObservableDict.data st.1))
             (ObservableDict._on_change st.1), st.2)
    end.
Proof.
  rewrite set_data_set_data.
  destruct (m ++ kwargs) as [|kv pairs] eqn:Hpairs.
  - by apply app_eq_nil in Hpairs as [-> ->].
  - f_equal. unfold ObservableDict.set_data. do 2 f_equal.
    rewrite <- Hpairs. symmetry. apply dict_assign_app.
Qed.

(** Every call is what [effect_of] says of it on the items it finds:
    the methods look at the items only, and notify last. *)
Lemma run_effect {L} (c : @ObservableDict.call K V)
    (st : @ObservableDict.od K V L * L) :
  ObservableDict.run c st
  = match ObservableDict.effect_of c (ObservableDict.data st.1) with
    | ObservableDict.Silent r after =>
        (r, (ObservableDict.OD after (ObservableDict._on_change st.1), st.2))
    | ObservableDict.Notifies after operation its =>
        ObservableDict._notify operation its
          (ObservableDict.OD after (ObservableDict._on_change st.1), st.2)
    end.
Proof.
  destruct c as [key value|other kwargs|key default|key default| | |key];
    cbn [ObservableDict.run ObservableDict.effect_of].
  - reflexivity.
  - unfold ObservableDict.update, ObservableDict._assign_pairs.
    destruct other as [[m|l]|].
    + rewrite assign_loop_good. cbn [app fst snd]. cbv zeta.
      rewrite update_after_assign. by destruct (m ++ kwargs).
    + destruct (split_pairs l) as [(good & -> & Hg)|(good & rest & -> & Hg)];
        rewrite Hg; cbn [fst snd].
      * rewrite assign_loop_good. cbn [app]. cbv zeta.
        rewrite update_after_assign. by destruct (good ++ kwargs).
      * by rewrite assign_loop_bad.
    + cbv zeta. cbn [fst snd app].
      pose proof (update_after_assign [] kwargs st) as Hu.
      cbn [app] in Hu. destruct kwargs as [|kv kwargs].
      * by destruct st as [[dt cb] l].
      * exact Hu.
  - unfold ObservableDict.setdefault.
    destruct (ObservableDict.dict_getitem key _).
    + by destruct st as [[dt cb] l].
    + apply omit_and_return.
  - unfold ObservableDict.pop.
    destruct (ObservableDict.dict_getitem key _).
    + apply omit_and_return.
    + destruct default; by destruct st as [[dt cb] l].
  - unfold ObservableDict.popitem.
    destruct (last _).
    + apply omit_and_return.
    + by destruct st as [[dt cb] l].
  - unfold ObservableDict.clear.
    destruct st as [[[|kv dt] cb] l]; reflexivity.
  - unfold ObservableDict.__delitem__.
    destruct (ObservableDict.dict_getitem key _); [reflexivity|].
    by destruct st as [[dt cb] l].
Qed.

(** The items a call leaves when the callback does not touch them. *)
Lemma effect_wf (c : @ObservableDict.call K V) (dt : @ObservableDict.dict K V) :
  ObservableDict.dict_wf dt →
  match ObservableDict.effect_of c dt with
  | ObservableDict.Silent _ after => ObservableDict.dict_wf after
  | ObservableDict.Notifies after _ _ => ObservableDict.dict_wf after
  end.
Proof.
  intros Hwf.
  destruct c as [key value|other kwargs|key default|key default| | |key];
    cbn [ObservableDict.effect_of].
  - by apply dict_setitem_wf.
  - cbv zeta. destruct (match other with None => _ | Some _ => _ end) as [g ok].
    cbn [fst snd]. destruct ok; [|by apply dict_assign_wf].
    destruct (g ++ kwargs) eqn:Hch; [done|]. by apply dict_assign_wf.
  - destruct (ObservableDict.dict_getitem key dt); [done|].
    by apply dict_setitem_wf.
  - destruct (ObservableDict.dict_getitem key dt).
    + eapply dict_wf_sublist; [apply dict_delitem_sublist|done].
    + by destruct default.
  - destruct (last dt); [|done].
    eapply dict_wf_sublist; [apply removelast_sublist|done].
  - destruct dt; [done|]. apply NoDup_nil_2.
  - destruct (ObservableDict.dict_getitem key dt); [|done].
    eapply dict_wf_sublist; [apply dict_delitem_sublist|done].
Qed.

(** A call that does not notify leaves the items as they are, unless it
    is an [update] that raises half-way; what it raises is an
    [Exception]. *)
Lemma effect_silent (c : @ObservableDict.call K V) (dt : @ObservableDict.dict K V)
    r after :
  ObservableDict.effect_of c dt = ObservableDict.Silent r after →
  (∀ e, r = ObservableDict.Raises e → ObservableDict.is_Exception e = true)
  ∧ (after = dt ∨ (r = ObservableDict.Raises ObservableDict.ValueError
                   ∧ ∃ other kwargs, c = ObservableDict.Update other kwargs)).
Proof.
  destruct c as [key value|other kwargs|key default|key default| | |key];
    cbn [ObservableDict.effect_of].
  - done.
  - cbv zeta. destruct (match other with None => _ | Some _ => _ end) as [g ok].
    cbn [fst snd]. destruct ok.
    + destruct (g ++ kwargs); [|done]. intros [= <- <-].
      split; [done|by left].
    + intros [= <- <-]. split; [by intros e [= <-]|].
      right. split; [done|]. by exists other, kwargs.
  - destruct (ObservableDict.dict_getitem key dt); [|done].
    intros [= <- <-]. split; [done|by left].
  - destruct (ObservableDict.dict_getitem key dt); [done|].
    destruct default; intros [= <- <-]; (split; [|by left]); [done|].
    by intros e [= <-].
  - destruct (last dt); [done|]. intros [= <- <-].
    split; [by intros e [= <-]|by left].
  - destruct dt; [|done]. intros [= <- <-]. split; [done|by left].
  - destruct (ObservableDict.dict_getitem key dt); [done|].
    intros [= <- <-]. split; [by intros e [= <-]|by left].
Qed.

(** Applying the notification of a call to the items the call found
    gives the items the call left. *)
Lemma effect_replay (c : @ObservableDict.call K V) (dt : @ObservableDict.dict K V)
    after operation its :
  ObservableDict.dict_wf dt →
  ObservableDict.effect_of c dt = ObservableDict.Notifies after operation its →
  ObservableDict.replay dt (operation, its) = after.
Proof.
  intros Hwf.
  destruct c as [key value|other kwargs|key default|key default| | |key];
    cbn [ObservableDict.effect_of].
  - by intros [= <- <- <-].
  - cbv zeta. destruct (match other with None => _ | Some _ => _ end) as [g ok].
    cbn [fst snd]. destruct ok; [|done].
    destruct (g ++ kwargs); [done|]. by intros [= <- <- <-].
  - destruct (ObservableDict.dict_getitem key dt); [done|].
    by intros [= <- <- <-].
  - destruct (ObservableDict.dict_getitem key dt); [|by destruct default].
    by intros [= <- <- <-].
  - destruct (last dt) as [it|] eqn:Hlast; [|done].
    intros [= <- <- <-]. cbn. by apply last_removelast.
  - destruct dt as [|kv dt]; [done|]. intros [= <- <- <-].
    change (ObservableDict.replay (kv :: dt) ("clear", kv :: dt))
      with (foldl (λ dt0 kv0, ObservableDict.dict_delitem kv0.1 dt0)
              (kv :: dt) (kv :: dt)).
    by apply delete_all.
  - destruct (ObservableDict.dict_getitem key dt); [|done].
    by intros [= <- <- <-].
Qed.

End od_facts.

Section od_calls.
Context {K V : Type} `{EqDecision K}.
Implicit Types (key : K) (value default : option V).

(** *** Callbacks that keep to themselves *)

(** With such a callback a call returns or raises what its effect says,
    leaves the items its effect says, and keeps the callback. *)
Lemma run_unobtrusive {L} (c : @ObservableDict.call K V)
    (st : @ObservableDict.od K V L * L) :
  ObservableDict.unobtrusive st.1 →
  (ObservableDict.run c st).1
  = match ObservableDict.effect_of c (ObservableDict.data st.1) with
    | ObservableDict.Silent r _ => r
    | ObservableDict.Notifies _ _ _ => ObservableDict.Returns tt
    end
  ∧ (ObservableDict.run c st).2.1
    = ObservableDict.OD
        match ObservableDict.effect_of c (ObservableDict.data st.1) with
        | ObservableDict.Silent _ after => after
        | ObservableDict.Notifies after _ _ => after
        end
        (ObservableDict._on_change st.1).
Proof.
  intros Hun. rewrite run_effect.
  destruct (ObservableDict.effect_of c _) as [r after|after operation its];
    [done|].
  by apply notify_passive.
Qed.

Lemma perform_unobtrusive {L} (c : @ObservableDict.call K V)
    (st : @ObservableDict.od K V L * L) :
  ObservableDict.unobtrusive st.1 →
  ObservableDict.unobtrusive (ObservableDict.perform st c).1.
Proof.
  intros Hun. unfold ObservableDict.perform.
  destruct (run_unobtrusive c st Hun) as [_ ->]. exact Hun.
Qed.

Lemma run_result_items {L1 L2} (c : @ObservableDict.call K V)
    (st1 : @ObservableDict.od K V L1 * L1) (st2 : @ObservableDict.od K V L2 * L2) :
  ObservableDict.unobtrusive st1.1 → ObservableDict.unobtrusive st2.1 →
  ObservableDict.data st1.1 = ObservableDict.data st2.1 →
  (ObservableDict.run c st1).1 = (ObservableDict.run c st2).1
  ∧ ObservableDict.data (ObservableDict.perform st1 c).1
    = ObservableDict.data (ObservableDict.perform st2 c).1.
Proof.
  intros Hun1 Hun2 Hdata. unfold ObservableDict.perform.
  destruct (run_unobtrusive c st1 Hun1) as [-> ->].
  destruct (run_unobtrusive c st2 Hun2) as [-> ->].
  by rewrite Hdata.
Qed.

Lemma performs_items {L1 L2} (cs : list (@ObservableDict.call K V))
    (st1 : @ObservableDict.od K V L1 * L1) (st2 : @ObservableDict.od K V L2 * L2) :
  ObservableDict.unobtrusive st1.1 → ObservableDict.unobtrusive st2.1 →
  ObservableDict.data st1.1 = ObservableDict.data st2.1 →
  ObservableDict.unobtrusive (foldl ObservableDict.perform st1 cs).1
  ∧ ObservableDict.unobtrusive (foldl ObservableDict.perform st2 cs).1
  ∧ ObservableDict.data (foldl ObservableDict.perform st1 cs).1
    = ObservableDict.data (foldl ObservableDict.perform st2 cs).1.
Proof.
  revert st1 st2. induction cs as [|c cs IH]; intros st1 st2 Hun1 Hun2 Hdata;
    [done|].
  cbn [foldl]. apply IH; [by apply perform_unobtrusive..|].
  by apply run_result_items.
Qed.

(** *** Calls that raise *)

Lemma failed_call_listener {L} (c : @ObservableDict.call K V)
    (st : @ObservableDict.od K V L * L) e :
  (ObservableDict.run c st).1 = ObservableDict.Raises e →
  ObservableDict.is_Exception e = true →
  (ObservableDict.perform st c).2 = st.2
  ∧ ((∀ other kwargs, c ≠ ObservableDict.Update other kwargs) →
     ObservableDict.perform st c = st).
Proof.
  unfold ObservableDict.perform. rewrite run_effect.
  destruct (ObservableDict.effect_of c _) as [r after|after operation its] eqn:Heff.
  - cbn [fst snd]. intros -> _. split; [done|]. intros Hne.
    destruct (effect_silent _ _ _ _ Heff) as [_ [->|[_ (other & kwargs & ->)]]].
    + by destruct st as [[dt cb] l].
    + by destruct (Hne other kwargs).
  - intros Hr He. apply notify_raises in Hr. congruence.
Qed.

(** *** A dictionary without callback *)

Lemma silent_call {L} (c : @ObservableDict.call K V)
    (st : @ObservableDict.od K V L * L) :
  ObservableDict._on_change st.1 = None →
  ObservableDict._on_change (ObservableDict.perform st c).1 = None
  ∧ (ObservableDict.perform st c).2 = st.2.
Proof.
  intros Hcb. unfold ObservableDict.perform. rewrite run_effect.
  destruct (ObservableDict.effect_of c _) as [r after|after operation its];
    [done|].
  by rewrite notify_silent.
Qed.

Lemma silent_calls {L} (cs : list (@ObservableDict.call K V))
    (st : @ObservableDict.od K V L * L) :
  ObservableDict._on_change st.1 = None →
  (foldl ObservableDict.perform st cs).2 = st.2.
Proof.
  revert st. induction cs as [|c cs IH]; intros st Hcb; [done|].
  cbn [foldl]. destruct (silent_call c st Hcb) as [Hcb' Hl].
  by rewrite IH.
Qed.

Lemma dict_getitem_snoc key value (dt : @ObservableDict.dict K V) :
  ObservableDict.dict_getitem key dt = None →
  ObservableDict.dict_getitem key (dt ++ [(key, value)]) = Some value.
Proof.
  induction dt as [|[k v] dt IH]; cbn.
  - by rewrite decide_True.
  - destruct (decide (k = key)); [done|exact IH].
Qed.

(** *** A listener that records *)

Lemma mirror_snoc (init : @ObservableDict.dict K V) log ev :
  ObservableDict.mirror init (log ++ [ev]) =
  ObservableDict.replay (ObservableDict.mirror init log) ev.
Proof. unfold ObservableDict.mirror. apply foldl_snoc. Qed.

Lemma record_passive :
  ObservableDict.passive (@ObservableDict.record K V).
Proof. intros operation its dt l. by cbn. Qed.

Lemma perform_record (c : @ObservableDict.call K V)
    (st : @ObservableDict.od K V _ * list (@ObservableDict.event K V)) :
  ObservableDict._on_change st.1 = Some ObservableDict.record →
  ObservableDict.dict_wf (ObservableDict.data st.1) →
  ObservableDict._on_change (ObservableDict.perform st c).1
  = Some ObservableDict.record
  ∧ ObservableDict.dict_wf (ObservableDict.data (ObservableDict.perform st c).1).
Proof.
  intros Hcb Hwf. unfold ObservableDict.perform.
  assert (Hun : ObservableDict.unobtrusive st.1).
  { unfold ObservableDict.unobtrusive. rewrite Hcb. apply record_passive. }
  destruct (run_unobtrusive c st Hun) as [_ ->].
  cbn [ObservableDict._on_change ObservableDict.data]. split; [done|].
  pose proof (effect_wf c _ Hwf) as Hwf'.
  by destruct (ObservableDict.effect_of c _).
Qed.

Lemma mirror_call (init : @ObservableDict.dict K V) (c : @ObservableDict.call K V)
    (st : @ObservableDict.od K V _ * list (@ObservableDict.event K V)) :
  ObservableDict._on_change st.1 = Some ObservableDict.record →
  ObservableDict.dict_wf (ObservableDict.data st.1) →
  ObservableDict.mirror init st.2 = ObservableDict.data st.1 →
  ObservableDict.updates_return [c] st = true →
  ObservableDict.mirror init (ObservableDict.perform st c).2
  = ObservableDict.data (ObservableDict.perform st c).1.
Proof.
  intros Hcb Hwf Hm Hret. unfold ObservableDict.perform.
  cbn [ObservableDict.updates_return] in Hret. rewrite andb_true_r in Hret.
  unfold ObservableDict.failed in Hret.
  rewrite run_effect in Hret |- *.
  destruct (ObservableDict.effect_of c _) as [r after|after operation its] eqn:Heff.
  - cbn [fst snd ObservableDict.data] in Hret |- *.
    destruct (effect_silent _ _ _ _ Heff) as [_ [->|[-> (other & kwargs & ->)]]];
      [done|].
    by cbn in Hret.
  - rewrite notify_record by exact Hcb.
    cbn [fst snd ObservableDict.data].
    rewrite mirror_snoc, Hm. by eapply effect_replay.
Qed.

Lemma update_mapping {L} (m kwargs : list (@ObservableDict.item K V))
    (st : @ObservableDict.od K V L * L) :
  ObservableDict.update (Some (ObservableDict.Mapping m)) kwargs st =
  match m ++ kwargs with
  | [] => (ObservableDict.Returns tt, st)
  | changed =>
      ObservableDict._notify "update" changed
        (ObservableDict.set_data (ObservableDict.dict_assign (m ++ kwargs)) st)
  end.
Proof.
  change (ObservableDict.update (Some (ObservableDict.Mapping m)) kwargs st)
    with (ObservableDict.run (ObservableDict.Update (Some (ObservableDict.Mapping m))
                                kwargs) st).
  rewrite run_effect. cbn [ObservableDict.effect_of]. cbv zeta. cbn [fst snd].
  destruct (m ++ kwargs) as [|kv pairs]; [|done].
  by destruct st as [[dt cb] l].
Qed.

Lemma setitems_record (pairs : list (@ObservableDict.item K V))
    (st : @ObservableDict.od K V _ * list (@ObservableDict.event K V)) :
  ObservableDict._on_change st.1 = Some ObservableDict.record →
  foldl (λ st kv, (ObservableDict.__setitem__ kv.1 kv.2 st).2) st pairs
  = (ObservableDict.OD (ObservableDict.dict_assign pairs (ObservableDict.data st.1))
       (ObservableDict._on_change st.1),
     st.2 ++ ((λ kv, ("set", [kv])) <$> pairs)).
Proof.
  revert st. induction pairs as [|[k v] pairs IH]; intros st Hcb.
  - cbn. rewrite app_nil_r. by destruct st as [[dt cb] l].
  - cbn [foldl]. unfold ObservableDict.__setitem__ at 2. cbn [fst snd].
    rewrite notify_record by exact Hcb.
    cbn [fst snd]. rewrite IH by exact Hcb.
    cbn [fst snd ObservableDict.set_data ObservableDict.data
         ObservableDict._on_change].
    by rewrite <- app_assoc.
Qed.

End od_calls.

(** ** What the callback can and cannot do *)

(** X22.  A callback that keeps to itself cannot disturb the
    dictionary.  Take two dictionaries with the same items, each with
    no callback or with one that leaves the items alone, installs no
    other callback and raises nothing but an [Exception]; the callbacks
    may differ and may do what they like to their listeners.  Driven
    through the same calls the two agree at every step on what the call
    returns or raises and on the items held afterwards, also when one
    callback always raises and the other dictionary has none. *)
Theorem callback_cannot_disturb {K V L1 L2 : Type} `{EqDecision K}
    (cs : list (@ObservableDict.call K V)) (c : @ObservableDict.call K V)
    (st1 : @ObservableDict.od K V L1 * L1) (st2 : @ObservableDict.od K V L2 * L2) :
  ObservableDict.unobtrusive st1.1 → ObservableDict.unobtrusive st2.1 →
  ObservableDict.data st1.1 = ObservableDict.data st2.1 →
  (ObservableDict.run c (foldl ObservableDict.perform st1 cs)).1
  = (ObservableDict.run c (foldl ObservableDict.perform st2 cs)).1
  ∧ ObservableDict.data (foldl ObservableDict.perform st1 (cs ++ [c])).1
    = ObservableDict.data (foldl ObservableDict.perform st2 (cs ++ [c])).1.
Proof.
  intros Hun1 Hun2 Hdata. rewrite !foldl_snoc.
  destruct (performs_items cs st1 st2 Hun1 Hun2 Hdata) as (Hun1' & Hun2' & Hdata').
  by apply run_result_items.
Qed.

Lemma callback_cannot_disturb_witness :
  let cs := [ObservableDict.Setitem "b" (Some 2); ObservableDict.Pop "a" None] in
  let st1 : ObservableDict.od * unit :=
    (ObservableDict.OD [("a", Some 1)] (Some ObservableDict.failing), tt) in
  let st2 : ObservableDict.od * nat :=
    (ObservableDict.OD [("a", Some 1)] None, 0%nat) in
  let st3 : ObservableDict.od * unit :=
    (ObservableDict.OD [("a", Some 1)] (Some ObservableDict.clearing), tt) in
  (ObservableDict.run ObservableDict.Popitem (foldl ObservableDict.perform st1 cs)).1
  = (ObservableDict.run ObservableDict.Popitem (foldl ObservableDict.perform st2 cs)).1
  ∧ ObservableDict.data
      (foldl ObservableDict.perform st1 (cs ++ [ObservableDict.Popitem])).1 = []
  ∧ (ObservableDict.run ObservableDict.Popitem (foldl ObservableDict.perform st2 cs)).1
    = ObservableDict.Returns tt
  ∧ (ObservableDict.run ObservableDict.Popitem (foldl ObservableDict.perform st3 cs)).1
    = ObservableDict.Raises ObservableDict.KeyError.
Proof.
  intros cs st1 st2 st3.
  assert (Hun1 : ObservableDict.unobtrusive st1.1).
  { intros operation its dt l. cbn. split; [done|]. split; [done|].
    by intros e [= <-]. }
  assert (Hun2 : ObservableDict.unobtrusive st2.1) by exact I.
  destruct (callback_cannot_disturb cs ObservableDict.Popitem st1 st2 Hun1 Hun2 eq_refl)
    as [Hres Hdata].
  split; [exact Hres|]. split; [rewrite Hdata; vm_compute; reflexivity|].
  split; vm_compute; reflexivity.
Defined.

(** X23.  A listener that applies what it is told stays in step with
    the dictionary.  With the recording callback installed, replaying
    the notifications (assigning the items of "set", "update" and
    "setdefault", removing those of "pop", "popitem", "delitem" and
    "clear") on a copy of the initial items yields exactly the items of
    the dictionary, in order, after any sequence of calls in which no
    [update] raises; calls of the other methods may raise. *)
Theorem notifications_mirror_dict {K V : Type} `{EqDecision K}
    (init : @ObservableDict.dict K V) (cs : list (@ObservableDict.call K V))
    (st : @ObservableDict.od K V _ * list (@ObservableDict.event K V)) :
  ObservableDict._on_change st.1 = Some ObservableDict.record →
  ObservableDict.dict_wf (ObservableDict.data st.1) →
  ObservableDict.mirror init st.2 = ObservableDict.data st.1 →
  ObservableDict.updates_return cs st = true →
  ObservableDict.mirror init (foldl ObservableDict.perform st cs).2
  = ObservableDict.data (foldl ObservableDict.perform st cs).1.
Proof.
  revert st. induction cs as [|c cs IH]; intros st Hcb Hwf Hm Hret; [exact Hm|].
  cbn [foldl]. cbn [ObservableDict.updates_return] in Hret.
  apply andb_true_iff in Hret as [Hc Hcs].
  destruct (perform_record c st Hcb Hwf) as [Hcb' Hwf'].
  apply IH; [done|done| |exact Hcs].
  apply mirror_call; [done|done|done|].
  cbn [ObservableDict.updates_return]. by rewrite Hc.
Qed.

Lemma notifications_mirror_dict_witness :
  let st : ObservableDict.od * list ObservableDict.event :=
    (ObservableDict.__init__ (Some [("a", Some 1)]) (Some ObservableDict.record) [],
     []) in
  let cs := [ObservableDict.Setitem "b" (Some 2);
             ObservableDict.Update (Some (ObservableDict.Mapping [("c", None)]))
               [("a", Some 3)];
             ObservableDict.Pop "zz" None;
             ObservableDict.Delitem "b";
             ObservableDict.Setdefault "d" None;
             ObservableDict.Popitem] in
  ObservableDict.mirror [("a", Some 1)] (foldl ObservableDict.perform st cs).2
  = [("a", Some 3); ("c", None)]
  ∧ ObservableDict.failed (ObservableDict.Pop "zz" None)
      (foldl ObservableDict.perform st (take 2 cs)) = true.
Proof.
  intros st cs. split; [|vm_compute; reflexivity].
  rewrite (notifications_mirror_dict [("a", Some 1)] cs st).
  - vm_compute. reflexivity.
  - reflexivity.
  - apply NoDup_cons. split; [apply not_elem_of_nil|apply NoDup_nil_2].
  - reflexivity.
  - vm_compute. reflexivity.
Defined.

(** X24.  A call that raises an [Exception] (the [KeyError] of a
    missing key or of an empty dictionary, the error of an element that
    is no pair) has told the listener nothing: the callback was not
    invoked, whatever it is.  Unless the call is an [update], it has not
    changed the dictionary either.  What a callback raises reaches the
    caller only when it is no [Exception], and then the callback has
    run. *)
Theorem failed_calls_do_not_notify {K V L : Type} `{EqDecision K}
    (c : @ObservableDict.call K V) (st : @ObservableDict.od K V L * L)
    (e : ObservableDict.pyexn) :
  (ObservableDict.run c st).1 = ObservableDict.Raises e →
  ObservableDict.is_Exception e = true →
  (ObservableDict.perform st c).2 = st.2
  ∧ ((∀ other kwargs, c ≠ ObservableDict.Update other kwargs) →
     ObservableDict.perform st c = st).
Proof. apply failed_call_listener. Qed.

Lemma failed_calls_do_not_notify_witness :
  let st : ObservableDict.od * list ObservableDict.event :=
    (ObservableDict.OD [("a", Some 1)] (Some ObservableDict.record), []) in
  let st' : ObservableDict.od * list ObservableDict.event :=
    (ObservableDict.OD [("a", Some 1)] (Some ObservableDict.interrupted), []) in
  (ObservableDict.pop "b" None st).1 = ObservableDict.Raises ObservableDict.KeyError
  ∧ (ObservableDict.pop "b" (Some 7) st).1 = ObservableDict.Returns (Some 7)
  ∧ ObservableDict.perform st (ObservableDict.Pop "b" None) = st
  ∧ ObservableDict.run (ObservableDict.Setitem "b" (Some 2)) st'
    = (ObservableDict.Raises ObservableDict.KeyboardInterrupt,
       (ObservableDict.OD [("a", Some 1); ("b", Some 2)]
          (Some ObservableDict.interrupted),
        [("set", [("b", Some 2)])])).
Proof.
  intros st st'. split; [reflexivity|]. split; [reflexivity|].
  split; [|reflexivity].
  refine (proj2 (failed_calls_do_not_notify (ObservableDict.Pop "b" None) st
                   ObservableDict.KeyError _ _) _).
  - reflexivity.
  - reflexivity.
  - intros other kwargs. discriminate.
Defined.

(** X25.  An [update] that meets an element that is no (key, value)
    pair raises, and leaves the work half done in silence: the pairs
    before that element are in the dictionary, the keyword arguments
    are not, and the listener has been told nothing. *)
Theorem failed_update_keeps_partial {K V L : Type} `{EqDecision K}
    (good : list (@ObservableDict.item K V))
    (rest : list (option (@ObservableDict.item K V)))
    (kwargs : list (@ObservableDict.item K V))
    (st : @ObservableDict.od K V L * L) :
  ObservableDict.update
    (Some (ObservableDict.Pairs ((Some <$> good) ++ None :: rest))) kwargs st
  = (ObservableDict.Raises ObservableDict.ValueError,
     (ObservableDict.OD (ObservableDict.dict_assign good (ObservableDict.data st.1))
        (ObservableDict._on_change st.1),
      st.2)).
Proof.
  unfold ObservableDict.update, ObservableDict._assign_pairs.
  by rewrite assign_loop_bad.
Qed.

(** ** [update] and [__setitem__] *)

(** X26.  [update] with a mapping and keyword arguments leaves the
    items that assigning the pairs one by one with [__setitem__]
    leaves, the mapping's pairs first; but where the assignments notify
    once per pair, [update] notifies once, with all the pairs in order,
    and not at all when there is no pair. *)
Theorem update_as_sets {K V : Type} `{EqDecision K}
    (m kwargs : list (@ObservableDict.item K V))
    (st : @ObservableDict.od K V _ * list (@ObservableDict.event K V)) :
  ObservableDict._on_change st.1 = Some ObservableDict.record →
  let pairs := m ++ kwargs in
  let st_u := (ObservableDict.update (Some (ObservableDict.Mapping m)) kwargs st).2 in
  let st_s := foldl (λ st kv, (ObservableDict.__setitem__ kv.1 kv.2 st).2) st pairs in
  ObservableDict.data st_u.1 = ObservableDict.data st_s.1
  ∧ st_u.2 = st.2 ++ match pairs with [] => [] | _ => [("update", pairs)] end
  ∧ st_s.2 = st.2 ++ ((λ kv, ("set", [kv])) <$> pairs).
Proof.
  intros Hcb. cbv zeta.
  rewrite update_mapping, setitems_record by exact Hcb.
  cbn [fst snd ObservableDict.data].
  destruct (m ++ kwargs) as [|kv pairs'] eqn:Hpairs.
  - cbn. by rewrite app_nil_r.
  - rewrite notify_record by exact Hcb. done.
Qed.

Lemma update_as_sets_witness :
  let st : ObservableDict.od * list ObservableDict.event :=
    (ObservableDict.OD [("a", Some 1)] (Some ObservableDict.record), []) in
  let st_u := (ObservableDict.update (Some (ObservableDict.Mapping [("b", Some 2)]))
                 [("a", Some 3)] st).2 in
  ObservableDict.data st_u.1 = [("a", Some 3); ("b", Some 2)]
  ∧ st_u.2 = [("update", [("b", Some 2); ("a", Some 3)])].
Proof.
  intros st st_u.
  destruct (update_as_sets [("b", Some 2)] [("a", Some 3)] st eq_refl)
    as (Hdata & Hlog & _).
  split.
  - subst st_u. rewrite Hdata. vm_compute. reflexivity.
  - exact Hlog.
Defined.

(** ** Round trips *)

(** X27.  Setting a key that is not in the dictionary and taking it out
    again gives the dictionary back as it was, items and order, when
    the callback keeps to itself (it leaves the items alone, installs
    no other callback and raises nothing but an [Exception]) or there
    is none: after [__setitem__] of a new key, [pop] of that key
    returns the value set (whatever default it is given), [popitem]
    returns that key with that value, [__delitem__] succeeds, and each
    of them leaves the items that were there before. *)
Theorem set_then_undo {K V L : Type} `{EqDecision K}
    (key : K) (value default : option V) (st : @ObservableDict.od K V L * L) :
  ObservableDict.unobtrusive st.1 →
  ObservableDict.dict_getitem key (ObservableDict.data st.1) = None →
  let st1 := (ObservableDict.__setitem__ key value st).2 in
  (ObservableDict.pop key default st1).1 = ObservableDict.Returns value
  ∧ ObservableDict.data (ObservableDict.pop key default st1).2.1
    = ObservableDict.data st.1
  ∧ (ObservableDict.popitem st1).1 = ObservableDict.Returns (key, value)
  ∧ ObservableDict.data (ObservableDict.popitem st1).2.1 = ObservableDict.data st.1
  ∧ (ObservableDict.__delitem__ key st1).1 = ObservableDict.Returns tt
  ∧ ObservableDict.data (ObservableDict.__delitem__ key st1).2.1
    = ObservableDict.data st.1.
Proof.
  intros Hun Habs st1.
  assert (Hk : key ∉ (ObservableDict.data st.1).*1) by (by apply dict_getitem_None).
  assert (Hst1 : st1.1 = ObservableDict.OD
                           (ObservableDict.data st.1 ++ [(key, value)])
                           (ObservableDict._on_change st.1)).
  { destruct (notify_passive "set" [(key, value)]
                (ObservableDict.set_data (ObservableDict.dict_setitem key value) st)
                Hun) as [_ Hp].
    subst st1. etrans; [exact Hp|]. cbn. by rewrite dict_setitem_absent. }
  assert (Hd1 : ObservableDict.data st1.1 = ObservableDict.data st.1 ++ [(key, value)])
    by (by rewrite Hst1).
  assert (Hun1 : ObservableDict.unobtrusive st1.1) by (by rewrite Hst1).
  assert (Hget : ObservableDict.dict_getitem key (ObservableDict.data st1.1)
                 = Some value).
  { rewrite Hd1. by apply dict_getitem_snoc. }
  assert (Hdel : ObservableDict.dict_delitem key (ObservableDict.data st1.1)
                 = ObservableDict.data st.1).
  { rewrite Hd1, dict_delitem_app, dict_delitem_absent by done.
    unfold ObservableDict.dict_delitem. cbn.
    rewrite bool_decide_eq_true_2 by done. cbn. apply app_nil_r. }
  assert (Hlast : last (ObservableDict.data st1.1) = Some (key, value)).
  { rewrite Hd1. apply last_snoc. }
  assert (Hn : ∀ operation its f,
    (ObservableDict._notify operation its (ObservableDict.set_data f st1)).1
    = ObservableDict.Returns tt
    ∧ ObservableDict.data
        (ObservableDict._notify operation its (ObservableDict.set_data f st1)).2.1
      = f (ObservableDict.data st1.1)).
  { intros operation its f.
    destruct (notify_passive operation its (ObservableDict.set_data f st1) Hun1)
      as [Hr Hp].
    split; [exact Hr|]. by rewrite Hp. }
  assert (Har : ∀ A operation its f (a : A),
    (ObservableDict.and_return
       (ObservableDict._notify operation its (ObservableDict.set_data f st1)) a).1
    = ObservableDict.Returns a
    ∧ ObservableDict.data
        (ObservableDict.and_return
           (ObservableDict._notify operation its (ObservableDict.set_data f st1))
           a).2.1
      = f (ObservableDict.data st1.1)).
  { intros A operation its f a. destruct (Hn operation its f) as [Hr Hd].
    destruct (ObservableDict._notify operation its _) as [[[]|e] st'];
      cbn in *; [done|discriminate]. }
  destruct (Har _ "pop" [(key, value)] (ObservableDict.dict_delitem key) value)
    as [Hp1 Hp2].
  destruct (Har _ "popitem" [(key, value)] (λ dt, removelast dt) (key, value))
    as [Hq1 Hq2].
  destruct (Hn "delitem" [(key, value)] (ObservableDict.dict_delitem key))
    as [Hr1 Hr2].
  unfold ObservableDict.pop, ObservableDict.popitem, ObservableDict.__delitem__.
  rewrite Hget, Hlast.
  split; [exact Hp1|]. split; [etrans; [exact Hp2|exact Hdel]|].
  split; [exact Hq1|].
  split; [etrans; [exact Hq2|]; rewrite Hd1; apply removelast_last|].
  split; [exact Hr1|etrans; [exact Hr2|exact Hdel]].
Qed.

Lemma set_then_undo_witness :
  let st : ObservableDict.od * list ObservableDict.event :=
    (ObservableDict.OD [("a", Some 1)] (Some ObservableDict.record), []) in
  let st1 := (ObservableDict.__setitem__ "b" (Some 2) st).2 in
  let st' : ObservableDict.od * unit :=
    (ObservableDict.OD [("a", Some 1)] (Some ObservableDict.clearing), tt) in
  (ObservableDict.pop "b" (Some 9) st1).1 = ObservableDict.Returns (Some 2)
  ∧ ObservableDict.data (ObservableDict.pop "b" (Some 9) st1).2.1 = [("a", Some 1)]
  ∧ (ObservableDict.pop "b" (Some 9) (ObservableDict.__setitem__ "b" (Some 2) st').2).1
    = ObservableDict.Returns (Some 9).
Proof.
  intros st st1 st'.
  assert (Hun : ObservableDict.unobtrusive st.1) by apply record_passive.
  assert (Habs : ObservableDict.dict_getitem "b" (ObservableDict.data st.1) = None)
    by reflexivity.
  destruct (set_then_undo "b" (Some 2) (Some 9) st Hun Habs) as (Hp & Hd & _).
  split; [exact Hp|]. split; [exact Hd|reflexivity].
Defined.

(** ** [copy] *)

(** X28.  [copy] gives a dictionary with the same items in the same
    order and with no callback: whatever is done to the copy, no
    listener hears of it. *)
Theorem copy_is_silent {K V L : Type} `{EqDecision K}
    (self : @ObservableDict.od K V L) :
  ObservableDict.dict_wf (ObservableDict.data self) →
  ObservableDict.items (ObservableDict.copy self) = ObservableDict.items self
  ∧ ∀ (cs : list (@ObservableDict.call K V)) (l : L),
      (foldl ObservableDict.perform (ObservableDict.copy self, l) cs).2 = l.
Proof.
  intros Hwf. split.
  - unfold ObservableDict.items, ObservableDict.copy, ObservableDict.__init__.
    cbn. apply (dict_assign_items [] (ObservableDict.data self)). exact Hwf.
  - intros cs l. by rewrite silent_calls.
Qed.

Lemma copy_is_silent_witness :
  let self : @ObservableDict.od string Z (list ObservableDict.event) :=
    ObservableDict.OD [("a", Some 1); ("b", None)] (Some ObservableDict.record) in
  ObservableDict.items (ObservableDict.copy self) = [("a", Some 1); ("b", None)]
  ∧ (ObservableDict.perform (ObservableDict.copy self, [])
       (ObservableDict.Setitem "c" (Some 3))).2 = []
  ∧ (ObservableDict.perform (self, []) (ObservableDict.Setitem "c" (Some 3))).2
    = [("set", [("c", Some 3)])].
Proof.
  intros self.
  assert (Hwf : ObservableDict.dict_wf (ObservableDict.data self)).
  { apply (bool_decide_unpack _). by vm_compute. }
  destruct (copy_is_silent self Hwf) as [Hitems Hsilent].
  split; [exact Hitems|]. split; [|reflexivity].
  exact (Hsilent [ObservableDict.Setitem "c" (Some 3)] []).
Defined.
